(** * Graph construction over clustered voxels (mlreco/utils/gnn/network.py)

    A shallow embedding of the incidence-matrix builders, the pruning and
    symmetrisation steps, the edge-feature extractors, the inter-cluster
    distance matrix and the fragment-edge mapper, with the properties the
    specification states about them, and further properties of the code.
    The control flow of the message-passing network
    (mlreco/models/layers/gnn/models/meta.py) and of the CRT-TPC
    post-processor (analysis/post_processing/crt_tpc_matching) follows,
    over the libraries they drive taken as parameters.

    Conventions of the embedding:
    - a Python exception is a value of [exn]; a computation that may raise
      is a [result];
    - a numpy [(E,2)] integer array is the list of its rows, each a pair;
      its transpose, the [(2,E)] incidence matrix, is a pair of rows;
    - [np.empty] yields memory whose content is not determined: every use
      takes the content as a parameter ([uninit]);
    - reading or writing outside an array raises [IndexError];
    - a function compiled by numba is typed for its arguments before it
      runs: a call it is not typed for raises [TypingError]. *)

From Stdlib Require Import String.
From Stdlib Require Import List ZArith Lia Bool Arith PeanoNat.
From Stdlib Require Import Permutation Sorted FinFun.
From Stdlib Require Import Floats.
From Stdlib Require Import Reals Lra.
Import ListNotations.

Set Implicit Arguments.
Set Warnings "-register-all".

(** ** Python exceptions and the error monad *)

Module Py.

Inductive exn : Type :=
| ValueError (msg : String.string)
| IndexError
| AssertionError
| TypeError
| NameError (name : String.string)
| TypingError (* numba.core.errors.TypingError *).

Inductive result (A : Type) : Type :=
| Ok (a : A)
| Raise (e : exn).

Arguments Ok {A} a.
Arguments Raise {A} e.

Definition bind {A B : Type} (c : result A) (k : A -> result B) : result B :=
  match c with
  | Ok a => k a
  | Raise e => Raise e
  end.

(** [for x in xs: s = body(s, x)], stopping at the first exception. *)
Fixpoint for_ {A S : Type} (xs : list A) (s : S) (body : S -> A -> result S)
  : result S :=
  match xs with
  | [] => Ok s
  | x :: xs' => bind (body s x) (fun s' => for_ xs' s' body)
  end.

(** [[f(x) for x in xs]], stopping at the first exception. *)
Fixpoint mapM {A B : Type} (f : A -> result B) (xs : list A) : result (list B) :=
  match xs with
  | [] => Ok []
  | x :: xs' =>
      bind (f x) (fun y => bind (mapM f xs') (fun ys => Ok (y :: ys)))
  end.

(** [seq[i]] for a non-negative index. *)
Definition getitem {A : Type} (l : list A) (i : nat) : result A :=
  match nth_error l i with
  | Some a => Ok a
  | None => Raise IndexError
  end.

(** [seq[i] = v] for a non-negative index. *)
Fixpoint setitem {A : Type} (l : list A) (i : nat) (v : A) : result (list A) :=
  match l, i with
  | [], _ => Raise IndexError
  | _ :: t, O => Ok (v :: t)
  | h :: t, S i' => bind (setitem t i' v) (fun t' => Ok (h :: t'))
  end.

(** [range(n)] and [range(a, b)]. *)
Definition range (n : nat) : list nat := seq 0 n.
Definition range2 (a b : nat) : list nat := seq a (b - a).

(** [enumerate(xs)]. *)
Definition enumerate {A : Type} (xs : list A) : list (nat * A) :=
  combine (seq 0 (length xs)) xs.

End Py.

Import Py.

Declare Scope py_scope.
Notation "x <- c ;; k" := (bind c (fun x => k))
  (at level 61, c at next level, right associativity) : py_scope.
Notation "' pat <- c ;; k" := (bind c (fun x => match x with pat => k end))
  (at level 61, pat pattern, c at next level, right associativity) : py_scope.
Open Scope py_scope.

(** ** The element type of the distance matrix

    The builders only copy and compare the entries of [dist_mat]
    ([dists < max_dist], [max_dist > -1], [mst_mat > 0.]); they are generic
    in its dtype ([dtype=dist_mat.dtype]). *)

Class Dtype (F : Type) : Type := {
  zero : F;
  minus_one : F;
  ltb : F -> F -> bool
}.

(** IEEE 754 binary64, numpy's [float64]. *)
#[export] Instance float64 : Dtype float := {
  zero := 0%float;
  minus_one := (-1)%float;
  ltb := PrimFloat.ltb
}.

(** ** numpy on lists *)

Module Np.

Fixpoint insert_unique (x : Z) (l : list Z) : list Z :=
  match l with
  | [] => [x]
  | y :: t =>
      if (x <? y)%Z then x :: l
      else if (x =? y)%Z then l
      else y :: insert_unique x t
  end.

(** [np.unique]: the distinct values, ascending. *)
Definition unique (l : list Z) : list Z := fold_right insert_unique [] l.

(** [np.where(mask)[0]] for the mask [p(l[i])]. *)
Definition where_ {A : Type} (p : A -> bool) (l : list A) : list nat :=
  map fst (filter (fun ix => p (snd ix)) (enumerate l)).

(** [np.sum(mask)]. *)
Definition count {A : Type} (p : A -> bool) (l : list A) : nat :=
  length (filter p l).

(** [np.where(mat)] on a 2-D mask: the positions of the true entries, in
    row-major order. *)
Definition where2 (mat : list (list bool)) : list (nat * nat) :=
  flat_map (fun ir => map (fun c => (fst ir, c)) (where_ (fun b : bool => b) (snd ir)))
           (enumerate mat).

(** [mat[i,j]]. *)
Definition getitem2 {A : Type} (mat : list (list A)) (i j : nat) : result A :=
  row <- getitem mat i ;; getitem row j.

(** [mat[i,j] = v]. *)
Definition setitem2 {A : Type} (mat : list (list A)) (i j : nat) (v : A)
  : result (list (list A)) :=
  row <- getitem mat i ;;
  row' <- setitem row j v ;;
  setitem mat i row'.

(** [arr[mask]] for a boolean mask of the same length. *)
Definition select {A : Type} (arr : list A) (mask : list bool) : list A :=
  map fst (filter snd (combine arr mask)).

(** [ret[:, ::-1]] on an [(E,2)] array. *)
Definition flip {A : Type} (ret : list (A * A)) : list (A * A) :=
  map (fun e => (snd e, fst e)) ret.

(** [ret.T] on an [(E,2)] array: the [(2,E)] array, as its two rows. *)
Definition T {A : Type} (ret : list (A * A)) : list A * list A :=
  (map fst ret, map snd ret).

(** The edges of a [(2,E)] incidence matrix: its columns. *)
Definition edges {A : Type} (m : list A * list A) : list (A * A) :=
  combine (fst m) (snd m).

(** [np.empty((n,2))]: [n] rows of undetermined content. *)
Definition empty_rows (uninit : nat -> nat * nat) (n : Z) : result (list (nat * nat)) :=
  if (n <? 0)%Z then Raise (ValueError "negative dimensions are not allowed"%string)
  else Ok (map uninit (seq 0 (Z.to_nat n))).

(** [np.triu]: the entries below the diagonal set to zero. *)
Definition triu {F : Type} `{Dtype F} (mat : list (list F)) : list (list F) :=
  map (fun ir => map (fun jc => if (fst jc <? fst ir)%nat then zero else snd jc)
                     (enumerate (snd ir)))
      (enumerate mat).

Fixpoint insert_sorted (x : nat) (l : list nat) : list nat :=
  match l with
  | [] => [x]
  | y :: t => if (x <=? y)%nat then x :: l else y :: insert_sorted x t
  end.

(** [np.sort] on indices. *)
Definition sort (l : list nat) : list nat := fold_right insert_sorted [] l.

(** [seq[1:stop]], with Python's reading of a negative [stop]. *)
Definition slice1 {A : Type} (stop : Z) (l : list A) : list A :=
  let n := Z.of_nat (length l) in
  let stop' := if (stop <? 0)%Z then Z.max 0 (stop + n) else Z.min stop n in
  skipn 1 (firstn (Z.to_nat stop') l).

End Np.

(** ** Two-dimensional int64 arrays that carry their shape

    [loop_graph] allocates a [(2,n)] array and assigns to its rows, so the
    shape matters there. *)

Module Array2.

Record t : Type := mk { nrows : nat; ncols : nat; rows : list (list Z) }.

(** [np.empty((r,c), dtype=np.int64)]. *)
Definition empty (uninit : nat -> nat -> Z) (r c : Z) : result t :=
  if ((r <? 0) || (c <? 0))%Z
  then Raise (ValueError "negative dimensions are not allowed"%string)
  else Ok (mk (Z.to_nat r) (Z.to_nat c)
              (map (fun i => map (uninit i) (seq 0 (Z.to_nat c)))
                   (seq 0 (Z.to_nat r)))).

(** [a[k] = v] for a sequence [v]: the row index is checked, then [v] is
    broadcast to the row's shape [(ncols,)], which numpy allows when [v]
    has [ncols] elements or one. *)
Definition setrow (a : t) (k : nat) (v : list Z) : result t :=
  if (nrows a <=? k)%nat then Raise IndexError
  else if (length v =? ncols a)%nat
       then rows' <- setitem (rows a) k v ;; Ok (mk (nrows a) (ncols a) rows')
  else match v with
       | [x] => rows' <- setitem (rows a) k (repeat x (ncols a)) ;;
                Ok (mk (nrows a) (ncols a) rows')
       | _ => Raise (ValueError "could not broadcast input array"%string)
       end.

(** [a.T]. *)
Definition transpose (a : t) : t :=
  mk (ncols a) (nrows a)
     (map (fun j => map (fun row => nth j row 0%Z) (rows a)) (seq 0 (ncols a))).

(** The columns of an array read as a [(2,E)] incidence matrix. *)
Definition edges (a : t) : list (Z * Z) :=
  combine (nth 0 (rows a) []) (nth 1 (rows a) []).

End Array2.

(** ** What the builders take from outside

    The two object-mode calls into scipy (either may raise, on degenerate
    input for one), numpy's [argsort] (whose order among equal keys is not
    fixed), and the content of memory that [np.empty] hands out. *)

Class Runtime (F : Type) : Type := {
  (** [Delaunay(points, qhull_options='QJ').simplices] *)
  Delaunay : list (list F) -> result (list (list nat));
  (** [minimum_spanning_tree(submat).toarray().astype(np.float32)]: the
      array [mst_mat] the object-mode block hands back *)
  minimum_spanning_tree : list (list F) -> result (list (list F));
  (** [np.argsort] *)
  argsort : list F -> list nat;
  (** the content of a freshly allocated [(n,2)] array, by row *)
  uninit : nat -> nat * nat
}.

(** [np.argsort] returns the indices of its argument, each once. *)
Class ArgsortSpec (F : Type) (RT : Runtime F) : Prop :=
  argsort_perm : forall row : list F, Permutation (argsort row) (seq 0 (length row)).

(** Modelled from the spec: mlreco.utils.numba.submatrix_nb is not among the
    sources; the spec calls its result the sub-block of the distance matrix
    restricted to that batch's clusters: the entries at the given rows
    and columns. *)
Definition submatrix_nb {F : Type} (mat : list (list F)) (rs cs : list nat)
  : result (list (list F)) :=
  mapM (fun r => row <- getitem mat r ;; mapM (fun c => getitem row c) cs) rs.

(** ** Compilation by numba

    A function under [nb.njit] is typed for the types of its arguments
    when it is called, before any of it runs, and a call that cannot be
    typed raises [TypingError] whatever the values are. Two rules bear on
    this file: an array operation is not typed for an argument that is
    [None], and [np.concatenate] is typed for a tuple of arrays, not for a
    list. A function that asserts [dist_mat is not None] before it uses
    [dist_mat] is typed for [None], and the assertion fails when it is
    reached. *)

Module Numba.

(** An argument that the function hands to an array operation. *)
Definition array_argument {A : Type} (arg : option A) : result unit :=
  match arg with
  | Some _ => Ok tt
  | None => Raise TypingError
  end.

(** The display a sequence is written with: [(a, b)] or [[a, b]]. *)
Inductive display : Type :=
| tuple_display
| list_display.

(** The argument of [np.concatenate]. *)
Definition concatenate_argument (d : display) : result unit :=
  match d with
  | tuple_display => Ok tt
  | list_display => Raise TypingError
  end.

End Numba.

(** ** The graph builders *)

(** [loop_graph(n)]. *)
Definition loop_graph (uninit : nat -> nat -> Z) (n : Z) : result Array2.t :=
  ret <- Array2.empty uninit 2 n ;;
  ret <- for_ (range (Z.to_nat n)) ret
           (fun ret k => Array2.setrow ret k [Z.of_nat k; Z.of_nat k]) ;;
  Ok (Array2.transpose ret).

Section Builders.

Context {F : Type} {DT : Dtype F} {RT : Runtime F}.

(** The block every pruning builder repeats:
    [if max_dist > -1: assert dist_mat is not None; ...; ret = ret[dists < max_dist]]. *)
Definition prune (ret : list (nat * nat)) (dist_mat : option (list (list F)))
  (max_dist : F) : result (list (nat * nat)) :=
  if ltb minus_one max_dist then
    match dist_mat with
    | None => Raise AssertionError
    | Some dm =>
        dists <- mapM (fun e => Np.getitem2 dm (fst e) (snd e)) ret ;;
        Ok (Np.select ret (map (fun d => ltb d max_dist) dists))
    end
  else Ok ret.

(** [np.vstack((ret, ret[:,::-1]))]. *)
Definition add_reciprocal (ret : list (nat * nat)) : list (nat * nat) :=
  ret ++ Np.flip ret.

(** [np.where(batch_ids == b)[0]]. *)
Definition clusters_of (batch_ids : list Z) (b : Z) : list nat :=
  Np.where_ (fun x => (x =? b)%Z) batch_ids.

(** [clust_ids[edges[0]], clust_ids[edges[1]]], row by row. *)
Definition to_cluster_ids (clust_ids : list nat) (es : list (nat * nat))
  : result (list (nat * nat)) :=
  mapM (fun e => a <- getitem clust_ids (fst e) ;;
                 b <- getitem clust_ids (snd e) ;;
                 Ok (a, b)) es.

Definition complete_graph (batch_ids : list Z) (dist_mat : option (list (list F)))
  (max_dist : F) : result (list nat * list nat) :=
  let n := length batch_ids in
  let edge_count :=
    fold_left (fun acc b =>
                 (acc + Z.of_nat (Np.count (fun x => x =? b) batch_ids) ^ 2)%Z)
              (Np.unique batch_ids) 0%Z in
  let edge_count := ((edge_count - Z.of_nat n) ÷ 2)%Z in
  if (edge_count =? 0)%Z then Ok ([], [])
  else
    ret <- Np.empty_rows uninit edge_count ;;
    st <- for_ (range n) (ret, 0)
            (fun st i =>
               for_ (range2 (i + 1) n) st
                 (fun st j =>
                    if (nth i batch_ids 0 =? nth j batch_ids 0)%Z
                    then ret' <- setitem (fst st) (snd st) (i, j) ;;
                         Ok (ret', S (snd st))
                    else Ok st)) ;;
    ret <- prune (fst st) dist_mat max_dist ;;
    Ok (Np.T (add_reciprocal ret)).

Definition delaunay_graph (data : list (list F)) (clusts : list (list nat))
  (batch_ids : list Z) (dist_mat : option (list (list F))) (max_dist : F)
  : result (list nat * list nat) :=
  ret <- for_ (Np.unique batch_ids) []
    (fun ret b =>
       let clust_ids := clusters_of batch_ids b in
       members <- mapM (getitem clusts) clust_ids ;;
       let mask := concat members in
       let labels :=
         concat (map (fun ic => repeat (fst ic) (length (snd ic)))
                     (enumerate members)) in
       points <- mapM (fun v => row <- getitem data v ;; Ok (firstn 3 row)) mask ;;
       tri <- Delaunay points ;;
       let m := length clust_ids in
       adj_mat <- for_ tri (repeat (repeat false m) m)
         (fun adj s =>
            for_ s adj (fun adj i =>
              for_ s adj (fun adj j =>
                lj <- getitem labels j ;;
                li <- getitem labels i ;;
                if (li <? lj)%nat then Np.setitem2 adj li lj true else Ok adj))) ;;
       edges <- to_cluster_ids clust_ids (Np.where2 adj_mat) ;;
       Ok (ret ++ edges)) ;;
  ret <- prune ret dist_mat max_dist ;;
  Ok (Np.T (add_reciprocal ret)).

(** [mst_graph]; [submatrix_nb] is applied to [dist_mat] with no assertion
    before it, so the function is not typed for [dist_mat=None]. *)
Definition mst_graph (batch_ids : list Z) (dist_mat : option (list (list F)))
  (max_dist : F) : result (list nat * list nat) :=
  typed <- Numba.array_argument dist_mat ;;
  ret <- for_ (Np.unique batch_ids) []
    (fun ret b =>
       let clust_ids := clusters_of batch_ids b in
       if (1 <? length clust_ids)%nat then
         match dist_mat with
         | None => Raise TypingError
         | Some dm =>
             sub <- submatrix_nb dm clust_ids clust_ids ;;
             let submat := Np.triu sub in
             mst_mat <- minimum_spanning_tree submat ;;
             edges <- to_cluster_ids clust_ids
                        (Np.where2 (map (map (ltb zero)) mst_mat)) ;;
             Ok (ret ++ edges)
         end
       else Ok ret) ;;
  ret <- prune ret dist_mat max_dist ;;
  Ok (Np.T (add_reciprocal ret)).

(** [knn_graph]; as for [mst_graph], it is not typed for [dist_mat=None]. *)
Definition knn_graph (batch_ids : list Z) (k : Z) (dist_mat : option (list (list F)))
  : result (list nat * list nat) :=
  typed <- Numba.array_argument dist_mat ;;
  ret <- for_ (Np.unique batch_ids) []
    (fun ret b =>
       let clust_ids := clusters_of batch_ids b in
       if (1 <? length clust_ids)%nat then
         let subk := Z.min (k + 1) (Z.of_nat (length clust_ids)) in
         match dist_mat with
         | None => Raise TypingError
         | Some dm =>
             submat <- submatrix_nb dm clust_ids clust_ids ;;
             for_ (enumerate submat) ret
               (fun ret irow =>
                  let idxs := Np.slice1 subk (argsort (snd irow)) in
                  edges <- Np.empty_rows uninit (subk - 1) ;;
                  edges <- for_ (enumerate (Np.sort idxs)) edges
                    (fun edges jidx =>
                       ci <- getitem clust_ids (fst irow) ;;
                       cidx <- getitem clust_ids (snd jidx) ;;
                       setitem edges (fst jidx) (ci, cidx)) ;;
                  if (length edges =? 0)%nat then Ok ret else Ok (ret ++ edges))
         end
       else Ok ret) ;;
  Ok (Np.T (add_reciprocal ret)).

Definition bipartite_graph (batch_ids : list Z) (primaries : list bool)
  (dist_mat : option (list (list F))) (max_dist : F) (directed : bool)
  (directed_to : String.string) : result (list nat * list nat) :=
  ret <- for_ (Np.where_ (fun p : bool => p) primaries) []
    (fun ret i =>
       for_ (Np.where_ negb primaries) ret
         (fun ret j =>
            bi <- getitem batch_ids i ;;
            bj <- getitem batch_ids j ;;
            if (bi =? bj)%Z then Ok (ret ++ [(i, j)]) else Ok ret)) ;;
  ret <- prune ret dist_mat max_dist ;;
  if directed then
    if String.eqb directed_to "primary" then Ok (Np.T (Np.flip ret))
    else if negb (String.eqb directed_to "secondary")
         then Raise (ValueError "Graph orientation not recognized"%string)
         else Ok (Np.T ret)
  else Ok (Np.T (add_reciprocal ret)).

End Builders.

(** ** Geometry over the exact reals

    Coordinates and distances are real numbers here: the statements about
    norms, unit vectors and minima are the exact ones, and the rounding of
    float32/float64 arithmetic is outside this model. *)

Module Geometry.

Local Open Scope R_scope.

(** [a - b] on coordinate vectors. *)
Definition vsub (a b : list R) : list R :=
  map (fun p => fst p - snd p) (combine a b).

(** [np.linalg.norm]. *)
Definition norm (v : list R) : R :=
  sqrt (fold_right (fun x acc => x * x + acc) 0 v).

(** [np.outer(a, b)]. *)
Definition outer (a b : list R) : list (list R) :=
  map (fun x => map (fun y => x * y) b) a.

(** Modelled from the spec: mlreco.utils.numba.cdist_nb is not among the
    sources; the spec has the closest-point search use brute-force pairwise
    distance evaluation with the Euclidean distance: entry [(a,b)] is the
    distance between point [a] of the first set and point [b] of the
    second. *)
Definition cdist_nb (x1 x2 : list (list R)) : list (list R) :=
  map (fun a => map (fun b => norm (vsub a b)) x2) x1.

(** [np.min] of a 2-D array. *)
Definition np_min (m : list (list R)) : result R :=
  match concat m with
  | [] => Raise (ValueError "zero-size array to reduction operation minimum"%string)
  | x :: t => Ok (fold_left Rmin t x)
  end.

Fixpoint argmin_from (best_i : nat) (best : R) (i : nat) (l : list R) : nat :=
  match l with
  | [] => best_i
  | x :: t => if Rlt_dec x best then argmin_from i x (S i) t
              else argmin_from best_i best (S i) t
  end.

(** [np.argmin] of a 2-D array: the first position of the least entry of
    the flattened array. *)
Definition np_argmin (m : list (list R)) : result nat :=
  match concat m with
  | [] => Raise (ValueError "attempt to get argmin of an empty sequence"%string)
  | x :: t => Ok (argmin_from 0 x 1 t)
  end.

(** [data[ids, :3]]. *)
Definition coords (data : list (list R)) (ids : list nat) : result (list (list R)) :=
  mapM (fun v => row <- getitem data v ;; Ok (firstn 3 row)) ids.

(** The tail both extractors share: normalise the displacement, take the
    outer product and store the row, which has to have 19 entries. *)
Definition feature_row (p q disp : list R) : result (list R) :=
  let lend := norm disp in
  let disp := if Rlt_dec 0 lend then map (fun x => x / lend) disp else disp in
  let B := concat (outer disp disp) in
  let row := p ++ q ++ disp ++ [lend] ++ B in
  if (length row =? 19)%nat then Ok row
  else Raise (ValueError "cannot assign slice from input of different size"%string).

(** [_get_cluster_edge_features]; the row is stored through
    [np.concatenate] of a tuple. *)
Definition _get_cluster_edge_features (data : list (list R))
  (clusts : list (list nat)) (edge_index : list (nat * nat))
  : result (list (list R)) :=
  typed <- Numba.concatenate_argument Numba.tuple_display ;;
  mapM (fun e =>
          c1 <- getitem clusts (fst e) ;;
          x1 <- coords data c1 ;;
          c2 <- getitem clusts (snd e) ;;
          x2 <- coords data c2 ;;
          let d12 := cdist_nb x1 x2 in
          imin <- np_argmin d12 ;;
          let i1 := (imin / length x2)%nat in
          let i2 := (imin mod length x2)%nat in
          v1 <- getitem x1 i1 ;;
          v2 <- getitem x2 i2 ;;
          feature_row v1 v2 (vsub v1 v2))
       edge_index.

(** The loop of [_get_voxel_edge_features], one row per edge: what the
    function stores when it is run as plain Python, not compiled. *)
Definition voxel_edge_rows (data : list (list R))
  (edge_index : list (nat * nat)) : result (list (list R)) :=
  mapM (fun e =>
          ri <- getitem data (fst e) ;;
          rj <- getitem data (snd e) ;;
          let xi := firstn 3 ri in
          let xj := firstn 3 rj in
          feature_row xi xj (vsub xj xi))
       edge_index.

(** [_get_voxel_edge_features]; the row is stored through
    [np.concatenate] of a list, [[xi, xj, disp, np.array([lend]), B]],
    where [_get_cluster_edge_features] has a tuple: the function is not
    typed, whatever it is called with. *)
Definition _get_voxel_edge_features (data : list (list R))
  (edge_index : list (nat * nat)) : result (list (list R)) :=
  typed <- Numba.concatenate_argument Numba.list_display ;;
  voxel_edge_rows data edge_index.

(** The body of the inner loop of [_inter_cluster_distance]: entry
    [(i,j)] of the matrix. *)
Definition inter_cluster_cell (voxels : list (list R)) (clusts : list (list nat))
  (batch_ids : list Z) (i : nat) (dist_mat : list (list R)) (j : nat)
  : result (list (list R)) :=
  if (nth i batch_ids 0 =? nth j batch_ids 0)%Z then
    if (i <? j)%nat then
      ci <- getitem clusts i ;;
      xi <- mapM (getitem voxels) ci ;;
      cj <- getitem clusts j ;;
      xj <- mapM (getitem voxels) cj ;;
      d <- np_min (cdist_nb xi xj) ;;
      Np.setitem2 dist_mat i j d
    else if (j <? i)%nat then
      d <- Np.getitem2 dist_mat j i ;;
      Np.setitem2 dist_mat i j d
    else Ok dist_mat
  else Ok dist_mat.

(** One iteration of the [prange] loop over [i]: the inner loop over [j],
    which fills row [i]. *)
Definition inter_cluster_row (voxels : list (list R)) (clusts : list (list nat))
  (batch_ids : list Z) (dist_mat : list (list R)) (i : nat)
  : result (list (list R)) :=
  for_ (range (length batch_ids)) dist_mat
       (inter_cluster_cell voxels clusts batch_ids i).

(** The loop over [i], its iterations taken in the given order. *)
Definition inter_cluster_distance_in_order (order : list nat)
  (voxels : list (list R)) (clusts : list (list nat)) (batch_ids : list Z)
  : result (list (list R)) :=
  let n := length batch_ids in
  for_ order (repeat (repeat 0 n) n) (inter_cluster_row voxels clusts batch_ids).

(** The run of reference of [_inter_cluster_distance]: the iterations in
    index order, as a plain [range] takes them. What a call returns is
    [inter_cluster_distance_in_order] at the order its [prange] loop
    took. *)
Definition _inter_cluster_distance (voxels : list (list R))
  (clusts : list (list nat)) (batch_ids : list Z) : result (list (list R)) :=
  inter_cluster_distance_in_order (range (length batch_ids)) voxels clusts batch_ids.

(** One iteration of the loop of [_get_edge_distances]: the length and the
    two voxel ids it stores at [k]. *)
Definition edge_distance (voxels : list (list R)) (clusts : list (list nat))
  (e : nat * nat) : result (R * nat * nat) :=
  let i := fst e in
  let j := snd e in
  if (i =? j)%nat then
    ci <- getitem clusts i ;;
    ri <- getitem ci 0%nat ;;
    cj <- getitem clusts j ;;
    rj <- getitem cj 0%nat ;;
    Ok (0, ri, rj)
  else
    ci <- getitem clusts i ;;
    xi <- mapM (getitem voxels) ci ;;
    cj <- getitem clusts j ;;
    xj <- mapM (getitem voxels) cj ;;
    let dist_mat := cdist_nb xi xj in
    idx <- np_argmin dist_mat ;;
    let ii := (idx / length cj)%nat in
    let jj := (idx mod length cj)%nat in
    d <- Np.getitem2 dist_mat ii jj ;;
    ri <- getitem ci ii ;;
    rj <- getitem cj jj ;;
    Ok (d, ri, rj).

(** [_get_edge_distances]: the lengths, and the voxel ids of the closest
    points of approach in the first and in the second cluster. Every
    iteration writes the slots of its own [k] only. The array of the
    lengths is float32 whatever the dtype of [voxels]: a length is the
    entry of the distance matrix as rounded by the store, a rounding the
    reals do not have. *)
Definition _get_edge_distances (voxels : list (list R)) (clusts : list (list nat))
  (edge_index : list (nat * nat)) : result (list R * list nat * list nat) :=
  res <- mapM (edge_distance voxels clusts) edge_index ;;
  Ok (map (fun r => fst (fst r)) res, map (fun r => snd (fst r)) res, map snd res).

(** [np.hstack] of 2-D arrays: the rows side by side, for arrays with as
    many rows each. *)
Definition hstack (ms : list (list (list R))) : result (list (list R)) :=
  match ms with
  | [] => Raise (ValueError "need at least one array to concatenate"%string)
  | m :: rest =>
      if forallb (fun m' => (length m' =? length m)%nat) rest
      then Ok (fold_left (fun acc m' => map (fun p => fst p ++ snd p) (combine acc m'))
                         rest m)
      else Raise (ValueError "all the input array dimensions except for the concatenation axis must match exactly"%string)
  end.

(** [B[k] = v] for a row of 9 entries: [v] is broadcast to the row's shape,
    which numpy allows when [v] has 9 elements or one. *)
Definition broadcast9 (v : list R) : result (list R) :=
  if (length v =? 9)%nat then Ok v
  else match v with
       | [x] => Ok (repeat x 9)
       | _ => Raise (ValueError "could not broadcast input array"%string)
       end.

(** [_get_cluster_edge_features_vec]; [np.outer] flattens its arguments,
    here the whole [(E,3)] array of displacements. *)
Definition _get_cluster_edge_features_vec (data : list (list R))
  (clusts : list (list nat)) (edge_index : list (nat * nat))
  : result (list (list R)) :=
  r <- _get_edge_distances (map (firstn 3) data) clusts edge_index ;;
  let lend := fst (fst r) in
  let idxs1 := snd (fst r) in
  let idxs2 := snd r in
  v1 <- coords data idxs1 ;;
  v2 <- coords data idxs2 ;;
  let disp := map (fun pq => vsub (fst pq) (snd pq)) (combine v1 v2) in
  let lend := map (fun l => [l]) lend in
  let disp :=
    map (fun dl => map (fun x => x / (nth 0 (snd dl) 0
                                      + (if Req_dec_T (nth 0 (snd dl) 0) 0 then 1 else 0)))
                       (fst dl))
        (combine disp lend) in
  B <- mapM (fun _ : nat => broadcast9 (concat (outer (concat disp) (concat disp))))
            (range (length disp)) ;;
  hstack [v1; v2; disp; lend; B].

End Geometry.

(** The exact reals as the dtype of a distance matrix: the matrix of
    [_inter_cluster_distance] is what the builders take as [dist_mat]. *)
#[export] Instance real : Dtype R := {
  zero := 0%R;
  minus_one := (-1)%R;
  ltb := fun x y => if Rlt_dec x y then true else false
}.

(** ** The cluster extractor in float32

    The loop of [_get_cluster_edge_features] over the numbers of the arrays
    its signature names: binary32, every operation rounded to the nearest
    number, ties to even. *)

Module Float32.

Definition prec : Z := 24.
Definition emax : Z := 128.

Definition of_Z (n : Z) : spec_float := binary_normalize prec emax n 0 false.

Definition zero : spec_float := S754_zero false.

Definition isnan (x : spec_float) : bool :=
  match x with
  | S754_nan => true
  | _ => false
  end.

(** [a - b] on coordinate vectors. *)
Definition vsub (a b : list spec_float) : list spec_float :=
  map (fun p => SFsub prec emax (fst p) (snd p)) (combine a b).

(** [np.linalg.norm]: the square root of the sum of the squares, each
    operation rounded. The library routine behind it may scale the entries
    or sum in a wider format; it returns the same number where the squares
    and their sum are float32 numbers, as they are for (-3, -4, 0). *)
Definition norm (v : list spec_float) : spec_float :=
  SFsqrt prec emax
    (fold_left (fun acc x => SFadd prec emax acc (SFmul prec emax x x)) v zero).

(** [np.outer(a, b)]. *)
Definition outer (a b : list spec_float) : list (list spec_float) :=
  map (fun x => map (fun y => SFmul prec emax x y) b) a.

(** Modelled from the spec: mlreco.utils.numba.cdist_nb is not among the
    sources; the spec has the closest-point search use brute-force pairwise
    distance evaluation with the Euclidean distance. *)
Definition cdist_nb (x1 x2 : list (list spec_float)) : list (list spec_float) :=
  map (fun a => map (fun b => norm (vsub a b)) x2) x1.

Fixpoint argmin_from (best_i : nat) (best : spec_float) (i : nat)
  (l : list spec_float) : nat :=
  match l with
  | [] => best_i
  | x :: t =>
      if isnan best then best_i
      else if isnan x || SFltb x best then argmin_from i x (S i) t
      else argmin_from best_i best (S i) t
  end.

(** [np.argmin] of a 2-D array: the first position of the least entry of
    the flattened array, of the first NaN if there is one. *)
Definition np_argmin (m : list (list spec_float)) : result nat :=
  match concat m with
  | [] => Raise (ValueError "attempt to get argmin of an empty sequence"%string)
  | x :: t => Ok (argmin_from 0 x 1 t)
  end.

(** [data[ids, :3]]. *)
Definition coords (data : list (list spec_float)) (ids : list nat)
  : result (list (list spec_float)) :=
  mapM (fun v => row <- getitem data v ;; Ok (firstn 3 row)) ids.

Definition feature_row (p q disp : list spec_float) : result (list spec_float) :=
  let lend := norm disp in
  let disp := if SFltb zero lend then map (fun x => SFdiv prec emax x lend) disp
              else disp in
  let B := concat (outer disp disp) in
  let row := p ++ q ++ disp ++ [lend] ++ B in
  if (length row =? 19)%nat then Ok row
  else Raise (ValueError "cannot assign slice from input of different size"%string).

Definition _get_cluster_edge_features (data : list (list spec_float))
  (clusts : list (list nat)) (edge_index : list (nat * nat))
  : result (list (list spec_float)) :=
  typed <- Numba.concatenate_argument Numba.tuple_display ;;
  mapM (fun e =>
          c1 <- getitem clusts (fst e) ;;
          x1 <- coords data c1 ;;
          c2 <- getitem clusts (snd e) ;;
          x2 <- coords data c2 ;;
          let d12 := cdist_nb x1 x2 in
          imin <- np_argmin d12 ;;
          let i1 := (imin / length x2)%nat in
          let i2 := (imin mod length x2)%nat in
          v1 <- getitem x1 i1 ;;
          v2 <- getitem x2 i2 ;;
          feature_row v1 v2 (vsub v1 v2))
       edge_index.

(** The value of a number in units of [2^-k], when it is finite and a
    whole number of units. *)
Definition units (k : Z) (x : spec_float) : option Z :=
  match x with
  | S754_zero _ => Some 0%Z
  | S754_finite s m e =>
      if (0 <=? e + k)%Z
      then Some ((if s then Z.neg m else Z.pos m) * 2 ^ (e + k))%Z
      else None
  | _ => None
  end.

(** The sum of the values, in units of [2^-k], and the sum of their
    squares, in units of [2^-2k]; no rounding here. *)
Definition total (k : Z) (xs : list spec_float) : option Z :=
  fold_right (fun x acc => match units k x, acc with
                           | Some u, Some a => Some (u + a)%Z
                           | _, _ => None
                           end) (Some 0%Z) xs.

Definition total_squares (k : Z) (xs : list spec_float) : option Z :=
  fold_right (fun x acc => match units k x, acc with
                           | Some u, Some a => Some (u * u + a)%Z
                           | _, _ => None
                           end) (Some 0%Z) xs.

End Float32.

(** ** The fragment-edge mapper *)

Definition _get_fragment_edges (graph : list (Z * Z)) (clust_ids : list Z)
  : list (Z * Z) :=
  fold_left
    (fun true_edges e =>
       let n1 := Np.where_ (fun c => (c =? fst e)%Z) clust_ids in
       let n2 := Np.where_ (fun c => (c =? snd e)%Z) clust_ids in
       match n1, n2 with
       | i1 :: _, i2 :: _ => true_edges ++ [(Z.of_nat i1, Z.of_nat i2)]
       | _, _ => true_edges
       end)
    graph [].

(** ** Name resolution in the body of [inter_cluster_distance]

    The public entry point is
    [def inter_cluster_distance(voxels, clsuts, batch_ids):
         return _inter_cluster_distance(voxels, clusts, batch_ids, mode)].
    Python looks a name up among the locals (here the three parameters),
    then the module's globals, then the builtins, and raises [NameError]
    when none binds it; a call evaluates the callee, then the arguments
    from left to right, and only then applies. The decorator
    [numba_wrapper] is not among the sources: the body is modelled as it
    runs once called with three argument values. *)

Module Names.

Local Open Scope string_scope.

Inductive value : Type :=
| VVoxels (v : list (list R))
| VClusts (c : list (list nat))
| VBatch (b : list Z)
| VMatrix (m : list (list R))
| VGlobal (name : String.string).

Inductive expr : Type :=
| Name (id : String.string)
| Call (f : expr) (args : list expr).

(** The names network.py binds at module level: its imports and its
    functions. *)
Definition module_globals : list String.string :=
  [ "np"; "nb"; "torch"; "Delaunay"; "minimum_spanning_tree";
    "numba_wrapper"; "submatrix_nb"; "cdist_nb";
    "loop_graph"; "complete_graph"; "delaunay_graph"; "mst_graph";
    "knn_graph"; "bipartite_graph";
    "get_cluster_edge_features"; "_get_cluster_edge_features";
    "_get_cluster_edge_features_vec";
    "get_voxel_edge_features"; "_get_voxel_edge_features";
    "get_edge_distances"; "_get_edge_distances";
    "inter_cluster_distance"; "_inter_cluster_distance";
    "get_fragment_edges"; "_get_fragment_edges" ].

(** Python's builtin functions and constants. *)
Definition builtins : list String.string :=
  [ "abs"; "aiter"; "all"; "anext"; "any"; "ascii"; "bin"; "bool";
    "breakpoint"; "bytearray"; "bytes"; "callable"; "chr"; "classmethod";
    "compile"; "complex"; "delattr"; "dict"; "dir"; "divmod"; "enumerate";
    "eval"; "exec"; "filter"; "float"; "format"; "frozenset"; "getattr";
    "globals"; "hasattr"; "hash"; "help"; "hex"; "id"; "input"; "int";
    "isinstance"; "issubclass"; "iter"; "len"; "list"; "locals"; "map";
    "max"; "memoryview"; "min"; "next"; "object"; "oct"; "open"; "ord";
    "pow"; "print"; "property"; "range"; "repr"; "reversed"; "round";
    "set"; "setattr"; "slice"; "sorted"; "staticmethod"; "str"; "sum";
    "super"; "tuple"; "type"; "vars"; "zip"; "__import__";
    "True"; "False"; "None"; "NotImplemented"; "Ellipsis"; "__debug__" ].

Fixpoint lookup (locals : list (String.string * value)) (id : String.string)
  : option value :=
  match locals with
  | [] => None
  | (k, v) :: rest => if String.eqb k id then Some v else lookup rest id
  end.

Definition resolve (locals : list (String.string * value)) (id : String.string)
  : result value :=
  match lookup locals id with
  | Some v => Ok v
  | None =>
      if existsb (String.eqb id) module_globals then Ok (VGlobal id)
      else if existsb (String.eqb id) builtins then Ok (VGlobal id)
      else Raise (NameError id)
  end.

Fixpoint eval (call : String.string -> list value -> result value)
  (locals : list (String.string * value)) (e : expr) : result value :=
  match e with
  | Name id => resolve locals id
  | Call f args =>
      fv <- eval call locals f ;;
      avs <- mapM (eval call locals) args ;;
      match fv with
      | VGlobal g => call g avs
      | _ => Raise TypeError
      end
  end.

(** Applying a global of the module: [_inter_cluster_distance] takes
    three positional arguments. *)
Definition call_global (g : String.string) (args : list value) : result value :=
  if String.eqb g "_inter_cluster_distance" then
    match args with
    | [VVoxels v; VClusts c; VBatch b] =>
        m <- Geometry._inter_cluster_distance v c b ;; Ok (VMatrix m)
    | _ => Raise TypeError
    end
  else Raise TypeError.

Definition inter_cluster_distance_body : expr :=
  Call (Name "_inter_cluster_distance")
       [Name "voxels"; Name "clusts"; Name "batch_ids"; Name "mode"].

Definition inter_cluster_distance_with
  (call : String.string -> list value -> result value)
  (voxels clsuts batch_ids : value) : result value :=
  eval call
       [("voxels", voxels); ("clsuts", clsuts); ("batch_ids", batch_ids)]
       inter_cluster_distance_body.

Definition inter_cluster_distance (voxels clsuts batch_ids : value) : result value :=
  inter_cluster_distance_with call_global voxels clsuts batch_ids.

End Names.

(** ** A concrete runtime

    An insertion-sort [argsort] (stable), and stand-ins for the two scipy
    calls, which make the builders computable on small inputs and are not
    scipy's results: one simplex through all the points, and the chain of
    first super-diagonal entries. *)

Module Concrete.

Fixpoint insert_by {F : Type} `{Dtype F} (x : nat * F) (l : list (nat * F))
  : list (nat * F) :=
  match l with
  | [] => [x]
  | y :: t => if ltb (snd y) (snd x) then y :: insert_by x t else x :: l
  end.

Definition argsort_insertion {F : Type} `{Dtype F} (row : list F) : list nat :=
  map fst (fold_right insert_by [] (enumerate row)).

Definition one_simplex {F : Type} (points : list (list F)) : result (list (list nat)) :=
  Ok [seq 0 (length points)].

Definition chain_tree {F : Type} `{Dtype F} (mat : list (list F))
  : result (list (list F)) :=
  Ok (map (fun ir => map (fun jc => if (fst jc =? S (fst ir))%nat then snd jc else zero)
                         (enumerate (snd ir)))
          (enumerate mat)).

#[export] Instance runtime {F : Type} `{Dtype F} : Runtime F := {
  Delaunay := one_simplex;
  minimum_spanning_tree := chain_tree;
  argsort := argsort_insertion;
  uninit := fun _ => (0, 0)
}.

End Concrete.

(** * The orchestration code

    [MetaLayerGNN] (mlreco/models/layers/gnn/models/meta.py) and
    [run_crt_tpc_matching]
    (analysis/post_processing/crt_tpc_matching/crt_tpc_matching.py) drive
    libraries that are not among the sources: the layers, the
    normalisations and the hit matcher are parameters here. What is
    modelled is the control flow around them: the names a function binds,
    the keys and attributes it reads, and the objects it updates. *)

Module Host.

Inductive exn : Type :=
| AssertionError
| KeyError (key : String.string)
| AttributeError (attr : String.string)
| IndexError
| NameError (name : String.string)
| UnboundLocalError (name : String.string)
| External (msg : String.string).

Inductive result (A : Type) : Type :=
| Ok (a : A)
| Raise (e : exn).

Arguments Ok {A} a.
Arguments Raise {A} e.

Definition bind {A B : Type} (c : result A) (k : A -> result B) : result B :=
  match c with
  | Ok a => k a
  | Raise e => Raise e
  end.

(** [for x in xs: s = body(s, x)], stopping at the first exception. *)
Fixpoint for_ {A S : Type} (xs : list A) (s : S) (body : S -> A -> result S)
  : result S :=
  match xs with
  | [] => Ok s
  | x :: xs' => bind (body s x) (fun s' => for_ xs' s' body)
  end.

(** [seq[i]] for a non-negative index. *)
Definition getitem {A : Type} (l : list A) (i : nat) : result A :=
  match nth_error l i with
  | Some a => Ok a
  | None => Raise IndexError
  end.

(** [d[key]] for a dict given as its items. *)
Fixpoint lookup {V : Type} (d : list (String.string * V)) (key : String.string)
  : result V :=
  match d with
  | [] => Raise (KeyError key)
  | (k, v) :: rest => if String.eqb k key then Ok v else lookup rest key
  end.

(** [d[key] = v]. *)
Fixpoint store {V : Type} (d : list (String.string * V)) (key : String.string) (v : V)
  : list (String.string * V) :=
  match d with
  | [] => [(key, v)]
  | (k, w) :: rest =>
      if String.eqb k key then (k, v) :: rest else (k, w) :: store rest key v
  end.

(** [d[key].append(v)] for a [defaultdict(list)]: a missing key is created
    with an empty list first. *)
Fixpoint append_to {V : Type} (d : list (String.string * list V))
  (key : String.string) (v : V) : list (String.string * list V) :=
  match d with
  | [] => [(key, [v])]
  | (k, l) :: rest =>
      if String.eqb k key then (k, l ++ [v]) :: rest
      else (k, l) :: append_to rest key v
  end.

End Host.

Declare Scope host_scope.
Delimit Scope host_scope with host.
Notation "x <~ c ;; k" := (Host.bind c (fun x => k))
  (at level 61, c at next level, right associativity) : host_scope.

(** ** MetaLayerGNN *)

(** What the class takes from torch, torch_geometric and the layer
    factories: the layers and normalisations, how they are built (which
    may raise) and how they are applied (which may raise). *)
Class Torch : Type := {
  Config : Type;
  Layer : Type;
  Norm : Type;
  Tensor : Type;
  Counts : Type;
  EdgeIndex : Type;
  BatchIds : Type;
  TensorBatch : Type;
  (** [model.feature_size] *)
  feature_size : Layer -> Z;
  (** [batch.tensor], [batch.counts] *)
  tensor : TensorBatch -> Tensor;
  counts : TensorBatch -> Counts;
  norm_construct : Config -> Z -> Host.result Norm;
  edge_layer_construct : Config -> Z -> Z -> Z -> Host.result Layer;
  node_layer_construct : Config -> Z -> Z -> Z -> Host.result Layer;
  global_layer_construct : Config -> Z -> Z -> Host.result Layer;
  (** [norm(tensor)] *)
  call_norm : Norm -> Tensor -> Host.result Tensor;
  (** [MetaLayer(edge_model, node_model, global_model)(x, edge_index, e, u, batch)] *)
  call_layer : option Layer -> option Layer -> option Layer ->
               Tensor -> EdgeIndex -> option Tensor -> option Tensor -> BatchIds ->
               Host.result (Tensor * option Tensor * option Tensor);
  (** [TensorBatch(tensor, counts)] *)
  make_batch : option Tensor -> Counts -> Host.result TensorBatch
}.

Module MetaLayerGNN.

Import Host.
Local Open Scope host_scope.
Local Open Scope string_scope.

Section Class.

Context {T : Torch}.

(** [MetaLayer(edge_model, node_model, global_model)]: the three models it
    stores, [None] for a model that is not there. *)
Record MetaLayer : Type := {
  edge_model : option Layer;
  node_model : option Layer;
  global_model : option Layer
}.

(** The attributes [__init__] sets on [self]. *)
Record t : Type := {
  node_feats : Z;
  edge_feats : Z;
  global_feats : Z;
  num_mp : Z;
  node_bn : Norm;
  edge_bn : Norm;
  global_bn : Norm;
  mp_layers : list MetaLayer;
  node_feature_size : Z;
  edge_feature_size : Z;
  global_feature_size : Z
}.

(** The local variables of [__init__] that live across the iterations of
    its loop; [node_model] is assigned under a condition only, and holds
    [None] here for as long as it has not been bound. *)
Record locals : Type := {
  node_nf : Z;
  edge_nf : Z;
  glob_nf : Z;
  node_model_var : option Layer;
  layers : list MetaLayer
}.

(** One iteration of the loop of [__init__]. *)
Definition init_step (node_layer edge_layer global_layer : option Config)
  (st : locals) (l : nat) : result locals :=
  em <~ match edge_layer with
        | Some cfg =>
            m <~ edge_layer_construct cfg (node_nf st) (edge_nf st) (glob_nf st) ;;
            Ok (Some m, feature_size m)
        | None => Ok (None, edge_nf st)
        end ;;
  let edge_model := fst em in
  let edge_nf := snd em in
  nm <~ match node_layer with
        | Some cfg =>
            m <~ node_layer_construct cfg (node_nf st) edge_nf (glob_nf st) ;;
            Ok (Some m, feature_size m)
        | None => Ok (node_model_var st, node_nf st)
        end ;;
  let node_model := fst nm in
  let node_nf := snd nm in
  gm <~ match global_layer with
        | Some cfg =>
            m <~ global_layer_construct cfg node_nf (glob_nf st) ;;
            Ok (Some m, feature_size m)
        | None => Ok (None, glob_nf st)
        end ;;
  let global_model := fst gm in
  let glob_nf := snd gm in
  match node_model with
  | None => Raise (UnboundLocalError "node_model")
  | Some m =>
      Ok {| node_nf := node_nf; edge_nf := edge_nf; glob_nf := glob_nf;
            node_model_var := Some m;
            layers := layers st ++ [ {| edge_model := edge_model;
                                        node_model := Some m;
                                        global_model := global_model |} ] |}
  end.

Definition __init__ (node_feats : Z) (node_layer : option Config) (edge_feats : Z)
  (edge_layer : option Config) (global_feats : Z) (global_layer : option Config)
  (num_mp : Z) (input_normalization : Config) : result t :=
  node_bn <~ norm_construct input_normalization node_feats ;;
  edge_bn <~ norm_construct input_normalization edge_feats ;;
  global_bn <~ norm_construct input_normalization global_feats ;;
  st <~ for_ (seq 0 (Z.to_nat num_mp))
          {| node_nf := node_feats; edge_nf := edge_feats; glob_nf := global_feats;
             node_model_var := None; layers := [] |}
          (init_step node_layer edge_layer global_layer) ;;
  Ok {| node_feats := node_feats; edge_feats := edge_feats;
        global_feats := global_feats; num_mp := num_mp;
        node_bn := node_bn; edge_bn := edge_bn; global_bn := global_bn;
        mp_layers := layers st;
        node_feature_size := node_nf st;
        edge_feature_size := edge_nf st;
        global_feature_size := glob_nf st |}.

(** [forward]; the result dictionary is the list of its items. The last
    item would read [global_feats], a name the function does not bind (its
    parameter is [glob_feats]) and the module does not define. *)
Definition forward (self : t) (node_feats : TensorBatch) (edge_index : EdgeIndex)
  (edge_feats glob_feats : option TensorBatch) (batch : BatchIds)
  : result (list (String.string * TensorBatch)) :=
  x <~ call_norm (node_bn self) (tensor node_feats) ;;
  e <~ match edge_feats with
       | Some ef => t <~ call_norm (edge_bn self) (tensor ef) ;; Ok (Some t)
       | None => Ok None
       end ;;
  u <~ match glob_feats with
       | Some gf => t <~ call_norm (global_bn self) (tensor gf) ;; Ok (Some t)
       | None => Ok None
       end ;;
  xeu <~ for_ (seq 0 (Z.to_nat (num_mp self))) (x, e, u)
           (fun st l =>
              layer <~ getitem (mp_layers self) l ;;
              call_layer (edge_model layer) (node_model layer) (global_model layer)
                         (fst (fst st)) edge_index (snd (fst st)) (snd st) batch) ;;
  let x := fst (fst xeu) in
  let e := snd (fst xeu) in
  let u := snd xeu in
  let result := [] in
  l0 <~ getitem (mp_layers self) 0 ;;
  result <~ match node_model l0 with
            | Some _ =>
                b <~ make_batch (Some x) (counts node_feats) ;;
                Ok (store result "node_features" b)
            | None => Ok result
            end ;;
  l0 <~ getitem (mp_layers self) 0 ;;
  result <~ match edge_model l0 with
            | Some _ =>
                ef <~ match edge_feats with
                      | Some ef => Ok ef
                      | None => Raise (AttributeError "counts")
                      end ;;
                b <~ make_batch e (counts ef) ;;
                Ok (store result "edge_features" b)
            | None => Ok result
            end ;;
  l0 <~ getitem (mp_layers self) 0 ;;
  match global_model l0 with
  | Some _ => Raise (NameError "global_feats")
  | None => Ok result
  end.

End Class.

End MetaLayerGNN.

(** ** run_crt_tpc_matching *)

Module CrtTpc.

Import Host.
Local Open Scope host_scope.
Local Open Scope string_scope.

(** The attributes of an interaction the post-processor reads or sets. *)
Record Interaction : Type := {
  id : Z;
  crthit_matched : bool;
  crthit_matched_particle_id : option Z;
  crthit_id : option Z
}.

(** [match.track] ([interaction_id], [id]) and [match.crthit] ([id]). *)
Record MatchCandidate : Type := {
  track_interaction_id : Z;
  track_id : Z;
  crthit_hit_id : Z
}.

(** An element of the list the matcher returns: a [MatchCandidate], or
    anything else. *)
Inductive item : Type :=
| Candidate (m : MatchCandidate)
| Other.

(** A value of the dictionary returned: a reference to an interaction, or
    a dictionary of matches, given as its items. *)
Inductive entry : Type :=
| Ref (r : nat)
| Dict (items : list (Z * MatchCandidate)).

Section Run.

(** The values of [data_dict], [int(entry)], and the matcher: it is given
    the entry number, the interactions (the objects and the list of
    references to them) and the CRT hits, and may raise. *)
Variable Value : Type.
Variable to_int : Value -> result Z.
Variable Manager : Type.
Variable get_crt_tpc_matches :
  Manager -> Z -> list Interaction -> list nat -> list (String.string * Value) ->
  result (list item).

(** [interaction.id] for a reference into the objects. *)
Definition has_id (objects : list Interaction) (iid : Z) (r : nat) : bool :=
  match nth_error objects r with
  | Some i => (iid =? id i)%Z
  | None => false
  end.

(** The inner loop: the first interaction of the list with the track's
    interaction id. *)
Definition matched_interaction (objects : list Interaction) (interactions : list nat)
  (iid : Z) : option nat :=
  find (has_id objects iid) interactions.

(** The three assignments, on the object behind reference [r]. *)
Fixpoint set_matched (objects : list Interaction) (r : nat) (m : MatchCandidate)
  : list Interaction :=
  match objects, r with
  | [], _ => []
  | i :: rest, O =>
      {| id := id i; crthit_matched := true;
         crthit_matched_particle_id := Some (track_id m);
         crthit_id := Some (crthit_hit_id m) |} :: rest
  | i :: rest, S r' => i :: set_matched rest r' m
  end.

(** One iteration of the loop over the matches. *)
Definition mark (interactions : list nat)
  (st : list Interaction * list (String.string * list entry)) (m : MatchCandidate)
  : list Interaction * list (String.string * list entry) :=
  match matched_interaction (fst st) interactions (track_interaction_id m) with
  | None => st
  | Some r => (set_matched (fst st) r m, append_to (snd st) "interactions" (Ref r))
  end.

(** [assert all(isinstance(item, MatchCandidate) for item in crt_tpc_matches)]. *)
Fixpoint candidates (l : list item) : result (list MatchCandidate) :=
  match l with
  | [] => Ok []
  | Candidate m :: rest => ms <~ candidates rest ;; Ok (m :: ms)
  | Other :: _ => Raise AssertionError
  end.

(** [run_crt_tpc_matching], on the objects the interactions refer to; it
    returns the objects as it leaves them and the dictionary. *)
Definition run_crt_tpc_matching (objects : list Interaction)
  (data_dict : list (String.string * Value))
  (result_dict : list (String.string * list nat))
  (crt_tpc_manager : option Manager) (crthit_keys : list String.string)
  : result (list Interaction * list (String.string * list entry)) :=
  if (0 <? length crthit_keys)%nat then
    crthits <~ for_ crthit_keys []
                 (fun crthits key => v <~ lookup data_dict key ;;
                                     Ok (store crthits key v)) ;;
    interactions <~ lookup result_dict "interactions" ;;
    entry <~ lookup data_dict "index" ;;
    manager <~ match crt_tpc_manager with
               | Some m => Ok m
               | None => Raise (AttributeError "get_crt_tpc_matches")
               end ;;
    n <~ to_int entry ;;
    crt_tpc_matches <~ get_crt_tpc_matches manager n objects interactions crthits ;;
    ms <~ candidates crt_tpc_matches ;;
    let st := fold_left (mark interactions) ms (objects, []) in
    Ok (fst st, append_to (snd st) "crt_tpc_matches" (Dict []))
  else Raise AssertionError.

End Run.

End CrtTpc.

(** ** A concrete host

    Stand-ins for the libraries behind [MetaLayerGNN]: a layer is its
    feature size, a tensor is a number, and nothing raises. *)

Module ConcreteHost.

#[export] Instance torch : Torch := {
  Config := Z;
  Layer := Z;
  Norm := unit;
  Tensor := Z;
  Counts := unit;
  EdgeIndex := unit;
  BatchIds := unit;
  TensorBatch := Z;
  feature_size := fun m => m;
  tensor := fun b => b;
  counts := fun _ => tt;
  norm_construct := fun _ _ => Host.Ok tt;
  edge_layer_construct := fun cfg _ _ _ => Host.Ok cfg;
  node_layer_construct := fun cfg _ _ _ => Host.Ok cfg;
  global_layer_construct := fun cfg _ _ => Host.Ok cfg;
  call_norm := fun _ x => Host.Ok x;
  call_layer := fun _ _ _ x _ e u _ => Host.Ok (x, e, u);
  make_batch := fun x _ => Host.Ok (match x with Some v => v | None => 0%Z end)
}.

(** A matcher that returns two candidates, for the interactions 20 and
    99, and two interactions, 10 and 20. *)
Definition matcher (_ : unit) (_ : Z) (_ : list CrtTpc.Interaction) (_ : list nat)
  (_ : list (String.string * Z)) : Host.result (list CrtTpc.item) :=
  Host.Ok [CrtTpc.Candidate {| CrtTpc.track_interaction_id := 20;
                               CrtTpc.track_id := 7; CrtTpc.crthit_hit_id := 3 |};
           CrtTpc.Candidate {| CrtTpc.track_interaction_id := 99;
                               CrtTpc.track_id := 8; CrtTpc.crthit_hit_id := 4 |}].

Definition two_interactions : list CrtTpc.Interaction :=
  [{| CrtTpc.id := 10; CrtTpc.crthit_matched := false;
      CrtTpc.crthit_matched_particle_id := None; CrtTpc.crthit_id := None |};
   {| CrtTpc.id := 20; CrtTpc.crthit_matched := false;
      CrtTpc.crthit_matched_particle_id := None; CrtTpc.crthit_id := None |}].

End ConcreteHost.

(** * The vocabulary of the statements *)

(** Every edge of the incidence matrix between two distinct nodes has its
    reverse in the matrix. *)
Definition reciprocal (m : list nat * list nat) : Prop :=
  forall i j, In (i, j) (Np.edges m) -> i <> j -> In (j, i) (Np.edges m).

(** ** Batches and pairs *)

(** [batch_ids[i] == batch_ids[j]]. *)
Definition same_batch (batch_ids : list Z) (i j : nat) : bool :=
  (nth i batch_ids 0 =? nth j batch_ids 0)%Z.

(** The pairs the double loop of [complete_graph] stores, in its order:
    [i < j] with equal batch ids. *)
Definition row_pairs (batch_ids : list Z) (i : nat) : list (nat * nat) :=
  map (pair i) (filter (same_batch batch_ids i) (range2 (i + 1) (length batch_ids))).

(** All of them, row after row. *)
Definition pairs (batch_ids : list Z) : list (nat * nat) :=
  flat_map (row_pairs batch_ids) (range (length batch_ids)).

(** The number of clusters of batch [b]. *)
Definition batch_size (batch_ids : list Z) (b : Z) : nat :=
  Np.count (fun x => (x =? b)%Z) batch_ids.

(** The pairs ahead of each cluster of batch [b], summed over its clusters. *)
Definition pairs_ahead (b : Z) (l : list Z) : nat :=
  list_sum (map (fun i => if (nth i l 0 =? b)%Z
                          then length (filter (fun y => (nth i l 0 =? y)%Z) (skipn (i + 1) l))
                          else 0)
                (seq 0 (length l))).

(** The edges of batch [b]: both ends carry the batch id [b]. *)
Definition in_batch (batch_ids : list Z) (b : Z) (e : nat * nat) : bool :=
  ((nth (fst e) batch_ids 0 =? b) && (nth (snd e) batch_ids 0 =? b))%Z.

(** Both ends of every edge are clusters of one batch. *)
Definition intra_batch (batch_ids : list Z) (es : list (nat * nat)) : Prop :=
  forall i j, In (i, j) es ->
              exists b, nth_error batch_ids i = Some b /\ nth_error batch_ids j = Some b.

(** The primary-to-secondary pairs of one batch, primaries first. *)
Definition bipartite_pairs (batch_ids : list Z) (primaries : list bool)
  : list (nat * nat) :=
  flat_map (fun i => map (pair i)
                         (filter (same_batch batch_ids i) (Np.where_ negb primaries)))
           (Np.where_ (fun p : bool => p) primaries).

(** The distance matrix has an entry for every pair of the [n] clusters. *)
Definition covers {F : Type} (n : nat) (dm : list (list F)) : Prop :=
  forall i j, i < n -> j < n -> exists d, Np.getitem2 dm i j = Ok d.


(** ** The triangulation of one batch *)

(** [clusts[i] for i in clust_ids], for the clusters of batch [b]. *)
Definition batch_members (clusts : list (list nat)) (batch_ids : list Z) (b : Z)
  : list (list nat) :=
  map (fun c => nth c clusts []) (clusters_of batch_ids b).

(** For each point handed to the triangulation of batch [b], the rank of
    its cluster among the clusters of the batch. *)
Definition batch_labels (clusts : list (list nat)) (batch_ids : list Z) (b : Z)
  : list nat :=
  concat (map (fun ic => repeat (fst ic) (length (snd ic)))
              (enumerate (batch_members clusts batch_ids b))).

(** The points handed to the triangulation of batch [b]. *)
Definition batch_points {F : Type} (data : list (list F)) (clusts : list (list nat))
  (batch_ids : list Z) (b : Z) : list (list F) :=
  map (fun v => firstn 3 (nth v data [])) (concat (batch_members clusts batch_ids b)).

(** The cluster that point [p] of the triangulation of batch [b] belongs to. *)
Definition point_cluster (clusts : list (list nat)) (batch_ids : list Z) (b : Z)
  (p : nat) : option nat :=
  match nth_error (batch_labels clusts batch_ids b) p with
  | Some l => nth_error (clusters_of batch_ids b) l
  | None => None
  end.

(** Entry [(x,y)] of the adjacency matrix is set. *)
Definition adj_at (adj : list (list bool)) (x y : nat) : Prop :=
  exists row, nth_error adj x = Some row /\ nth_error row y = Some true.

(** ** Fragment edges *)

(** The local index of an external id: the first position that holds it. *)
Definition local_index (clust_ids : list Z) (c : Z) : option Z :=
  match Np.where_ (fun x => (x =? c)%Z) clust_ids with
  | i :: _ => Some (Z.of_nat i)
  | [] => None
  end.

(** An edge with both ends in the list, in local indices. *)
Definition map_edge (clust_ids : list Z) (e : Z * Z) : option (Z * Z) :=
  match local_index clust_ids (fst e), local_index clust_ids (snd e) with
  | Some a, Some b => Some (a, b)
  | _, _ => None
  end.

(** The images of the elements that have one, in order. *)
Fixpoint filter_map {A B : Type} (h : A -> option B) (l : list A) : list B :=
  match l with
  | [] => []
  | x :: t => match h x with
              | Some y => y :: filter_map h t
              | None => filter_map h t
              end
  end.

(** ** Feature rows and distance matrices *)

Section GeometryVocabulary.

Import Geometry.
Local Open Scope R_scope.

(** The parts of a feature row. *)
Definition cpa1 (row : list R) : list R := firstn 3 row.
Definition cpa2 (row : list R) : list R := firstn 3 (skipn 3 row).
Definition displacement (row : list R) : list R := firstn 3 (skipn 6 row).
Definition distance (row : list R) : R := nth 9 row 0.
Definition block (row : list R) : list R := skipn 10 row.

(** Entry [(a,b)] of the 3x3 block, and the quadratic form [v^T B v]. *)
Definition entry (B : list R) (a b : nat) : R := nth (3 * a + b) B 0.

Definition quadratic_form (B : list R) (x y z : R) : R :=
  x * (entry B 0 0 * x + entry B 0 1 * y + entry B 0 2 * z)
  + y * (entry B 1 0 * x + entry B 1 1 * y + entry B 1 2 * z)
  + z * (entry B 2 0 * x + entry B 2 1 * y + entry B 2 2 * z).

Definition trace (B : list R) : R := entry B 0 0 + entry B 1 1 + entry B 2 2.

Record feature_ok (row : list R) : Prop := {
  row_length : length row = 19%nat;
  distance_nonneg : 0 <= distance row;
  distance_is_norm : distance row = norm (vsub (cpa1 row) (cpa2 row));
  zero_displacement : displacement row = [0; 0; 0] <-> distance row = 0;
  unit_displacement : distance row <> 0 -> norm (displacement row) = 1;
  block_is_outer : block row = concat (outer (displacement row) (displacement row));
  block_symmetric : forall a b, (a < 3)%nat -> (b < 3)%nat ->
                                entry (block row) a b = entry (block row) b a;
  block_psd : forall x y z, 0 <= quadratic_form (block row) x y z;
  block_trace : trace (block row) <= 1
}.

(** A cluster the closest-point search can work on: not empty, its voxel
    ids within the voxel set. *)
Definition valid_cluster (data : list (list R)) (c : list nat) : Prop :=
  c <> [] /\ Forall (fun v => (v < length data)%nat) c.

Definition entry2 (D : list (list R)) (a b : nat) : R := nth b (nth a D []) 0.

(** [D] is an [n] by [n] array. *)
Definition square (n : nat) (D : list (list R)) : Prop :=
  length D = n /\ Forall (fun row => length row = n) D.

(** The least element of a list ([0] for the empty list). *)
Definition min_list (l : list R) : R :=
  match l with
  | [] => 0
  | x :: t => fold_left Rmin t x
  end.

(** [voxels[c]] for a cluster [c] of valid ids. *)
Definition rows_of (voxels : list (list R)) (c : list nat) : list (list R) :=
  map (fun v => nth v voxels []) c.

(** The least entry of [cdist_nb(voxels[clusts[i]], voxels[clusts[j]])]. *)
Definition closest (voxels : list (list R)) (clusts : list (list nat)) (i j : nat) : R :=
  min_list (concat (cdist_nb (rows_of voxels (nth i clusts []))
                             (rows_of voxels (nth j clusts [])))).

(** What the inner loop of [_inter_cluster_distance] leaves at [(i,j)]
    when it starts from [D]. *)
Definition new_entry (voxels : list (list R)) (clusts : list (list nat))
  (batch_ids : list Z) (D : list (list R)) (i j : nat) : R :=
  if same_batch batch_ids i j then
    if (i <? j)%nat then closest voxels clusts i j
    else if (j <? i)%nat then entry2 D j i
    else entry2 D i j
  else entry2 D i j.

(** The matrix the specification describes. *)
Definition expected (voxels : list (list R)) (clusts : list (list nat))
  (batch_ids : list Z) (i j : nat) : R :=
  if same_batch batch_ids i j then
    if (i <? j)%nat then closest voxels clusts i j
    else if (j <? i)%nat then closest voxels clusts j i
    else 0
  else 0.

(** The Euclidean distance between voxels [v] and [w]. *)
Definition pair_distance (voxels : list (list R)) (v w : nat) : R :=
  norm (vsub (nth v voxels []) (nth w voxels [])).

(** [d] is the least distance between a voxel of [ci] and one of [cj]. *)
Definition min_distance_between (voxels : list (list R)) (ci cj : list nat) (d : R)
  : Prop :=
  (exists v w, In v ci /\ In w cj /\ d = pair_distance voxels v w)
  /\ (forall v w, In v ci -> In w cj -> d <= pair_distance voxels v w).


(** Every edge joins two clusters the closest-point search can work on. *)
Definition valid_edges (data : list (list R)) (clusts : list (list nat))
  (edge_index : list (nat * nat)) : Prop :=
  Forall (fun e => exists c1 c2,
              nth_error clusts (fst e) = Some c1 /\ nth_error clusts (snd e) = Some c2
              /\ valid_cluster data c1 /\ valid_cluster data c2) edge_index.

(** The feature row of the reversed edge: the two points swapped, the
    displacement negated, the distance and the block kept. *)
Definition reverse_row (row : list R) : list R :=
  cpa2 row ++ cpa1 row ++ map Ropp (displacement row) ++ [distance row] ++ block row.

(** The edges name voxels of the set. *)
Definition valid_voxel_edges (data : list (list R)) (edge_index : list (nat * nat))
  : Prop :=
  Forall (fun e => (fst e < length data)%nat /\ (snd e < length data)%nat) edge_index.

(** What holds of the matrix once the rows in [done] have been filled, in
    whatever order: a row not yet filled is zero; a filled row is right
    above the diagonal, and below it holds either the distance or the zero
    it found in a row that had not been filled yet. *)
Definition filled (voxels : list (list R)) (clusts : list (list nat))
  (batch_ids : list Z) (done : list nat) (D : list (list R)) : Prop :=
  square (length batch_ids) D
  /\ forall a b, (a < length batch_ids)%nat -> (b < length batch_ids)%nat ->
       (~ In a done -> entry2 D a b = 0)
       /\ (In a done ->
           if same_batch batch_ids a b then
             if (a <? b)%nat then entry2 D a b = closest voxels clusts a b
             else if (b <? a)%nat
                  then entry2 D a b = 0 \/ entry2 D a b = closest voxels clusts b a
                  else entry2 D a b = 0
           else entry2 D a b = 0).

End GeometryVocabulary.

(** ** The dictionary of the CRT-TPC post-processor *)

(** The item [interactions] of the dictionary returned: absent as long as
    nothing has been appended to it. *)
Definition interactions_item (acc : list nat)
  : list (String.string * list CrtTpc.entry) :=
  match acc with
  | [] => []
  | _ => [("interactions"%string, map CrtTpc.Ref acc)]
  end.

(** * Properties *)

(** ** inter_cluster_distance, the public entry point *)

(** C10. Whatever the three arguments and whatever the functions of the
    module do when applied, running the body of [inter_cluster_distance]
    raises [NameError] for [clusts]: the lookup fails while the arguments
    of the call are evaluated, before anything is applied. *)
Theorem inter_cluster_distance_name_error
  (call : String.string -> list Names.value -> result Names.value)
  (voxels clsuts batch_ids : Names.value) :
  Names.inter_cluster_distance_with call voxels clsuts batch_ids
    = Raise (NameError "clusts")
  /\ Names.inter_cluster_distance voxels clsuts batch_ids
    = Raise (NameError "clusts")
  /\ Names.resolve [("voxels", voxels); ("clsuts", clsuts); ("batch_ids", batch_ids)]%string
       "mode" = Raise (NameError "mode").
Proof. repeat split. Qed.

(** ** Facts about the error monad and the numpy helpers *)

Lemma bind_Ok {A B : Type} (c : result A) (k : A -> result B) (b : B) :
  bind c k = Ok b -> exists a, c = Ok a /\ k a = Ok b.
Proof. destruct c as [a | e]; simpl; [eauto | discriminate]. Qed.

Ltac inv_bind H :=
  let a := fresh "x" in
  let Ha := fresh "E" in
  apply bind_Ok in H; destruct H as (a & Ha & H).

Ltac inv_Ok H := injection H as H; subst.

(** Drops the typing step in front of a builder that returned. *)
Ltac inv_typed H :=
  let u := fresh "typed" in
  let Hu := fresh "Htyped" in
  apply bind_Ok in H; destruct H as (u & Hu & H); clear Hu u.

Lemma getitem_Ok {A : Type} (l : list A) (i : nat) (a : A) :
  getitem l i = Ok a <-> nth_error l i = Some a.
Proof.
  unfold getitem. destruct (nth_error l i); split; intro H;
    congruence || (now inversion H).
Qed.

Lemma getitem_In {A : Type} (l : list A) (i : nat) (a : A) :
  getitem l i = Ok a -> In a l.
Proof. intro H. apply getitem_Ok in H. eapply nth_error_In; eauto. Qed.

Lemma mapM_Ok {A B : Type} (f : A -> result B) (xs : list A) (ys : list B) :
  mapM f xs = Ok ys -> Forall2 (fun x y => f x = Ok y) xs ys.
Proof.
  revert ys. induction xs as [| x xs IH]; simpl; intros ys H.
  - inv_Ok H. constructor.
  - inv_bind H. inv_bind H. inv_Ok H. constructor; auto.
Qed.

Lemma mapM_total {A B : Type} (f : A -> result B) (g : A -> B) (xs : list A) :
  (forall x, In x xs -> f x = Ok (g x)) -> mapM f xs = Ok (map g xs).
Proof.
  induction xs as [| x xs IH]; simpl; intro H; [reflexivity |].
  rewrite H by auto. simpl. rewrite IH by auto. reflexivity.
Qed.

(** A loop invariant: what holds of the state before the loop and is kept
    by every iteration that returns holds of the state the loop returns. *)
Lemma for_invariant {A S : Type} (P : S -> Prop) (body : S -> A -> result S)
  (xs : list A) (s s' : S) :
  for_ xs s body = Ok s' ->
  P s ->
  (forall s0 x s1, In x xs -> P s0 -> body s0 x = Ok s1 -> P s1) ->
  P s'.
Proof.
  revert s. induction xs as [| x xs IH]; simpl; intros s H Hs Hstep.
  - inv_Ok H. exact Hs.
  - inv_bind H. eapply IH; eauto.
Qed.

Lemma edges_T {A : Type} (ret : list (A * A)) : Np.edges (Np.T ret) = ret.
Proof.
  unfold Np.edges, Np.T; simpl. induction ret as [| [a b] ret IH]; simpl; congruence.
Qed.

Lemma in_flip {A : Type} (ret : list (A * A)) (i j : A) :
  In (i, j) (Np.flip ret) <-> In (j, i) ret.
Proof.
  unfold Np.flip. rewrite in_map_iff. split.
  - intros ([a b] & H & Hin). simpl in H. now inversion H; subst.
  - intro H. exists (j, i). split; [reflexivity | assumption].
Qed.

Lemma in_add_reciprocal (ret : list (nat * nat)) (i j : nat) :
  In (i, j) (add_reciprocal ret) <-> In (i, j) ret \/ In (j, i) ret.
Proof. unfold add_reciprocal. rewrite in_app_iff, in_flip. tauto. Qed.

(** ** loop_graph *)

Example loop_graph_two (u : nat -> nat -> Z) :
  loop_graph u 2 = Ok (Array2.mk 2 2 [[0; 1]; [0; 1]]%Z).
Proof. reflexivity. Qed.

Example loop_graph_zero (u : nat -> nat -> Z) :
  loop_graph u 0 = Ok (Array2.mk 0 2 []).
Proof. reflexivity. Qed.

Example loop_graph_one (u : nat -> nat -> Z) :
  loop_graph u 1 = Raise (ValueError "could not broadcast input array").
Proof. reflexivity. Qed.

Lemma loop_graph_broadcast (u : nat -> nat -> Z) (n : Z) :
  (0 < n)%Z -> n <> 2%Z ->
  loop_graph u n = Raise (ValueError "could not broadcast input array").
Proof.
  intros Hpos Hne. unfold loop_graph, Array2.empty.
  destruct (Z.ltb_spec n 0) as [Hneg | _]; [lia |].
  cbn [orb Z.ltb Z.compare bind].
  remember (Z.to_nat n) as m eqn:Hm.
  assert (m <> 0 /\ m <> 2) as [H0 H2] by (subst m; lia).
  destruct m as [| m']; [congruence |].
  cbn [range seq for_ bind Array2.setrow Array2.nrows Array2.ncols Array2.rows
       Z.to_nat Pos.to_nat Pos.iter_op Nat.add Nat.leb length Nat.eqb].
  destruct m' as [| [| m'']]; try reflexivity. congruence.
Qed.

Lemma loop_graph_returns (u : nat -> nat -> Z) (n : Z) (a : Array2.t) :
  loop_graph u n = Ok a ->
  (n = 0%Z /\ a = Array2.mk 0 2 []) \/ (n = 2%Z /\ a = Array2.mk 2 2 [[0; 1]; [0; 1]]%Z).
Proof.
  intro H. destruct (Z.lt_trichotomy n 0) as [Hn | [-> | Hn]].
  - unfold loop_graph, Array2.empty in H.
    destruct (Z.ltb_spec n 0); [| lia]. discriminate.
  - left. split; [reflexivity |]. cbv in H. now inv_Ok H.
  - destruct (Z.eq_dec n 2) as [-> | Hne].
    + right. split; [reflexivity |]. cbv in H. now inv_Ok H.
    + rewrite loop_graph_broadcast in H by assumption. discriminate.
Qed.

(** C1. What [loop_graph] does for every [n]: the code allocates [(2,n)]
    and assigns the pair [[k,k]] to row [k], which has [n] entries, so the
    first assignment cannot be broadcast unless [n] is 2; the claimed
    matrix of self-loops comes back only for [n = 2] ([n = 0] gives the
    shape [(0,2)]), and every other [n] raises. *)
Theorem loop_graph_outcome (u : nat -> nat -> Z) (n : Z) :
  loop_graph u n
  = if (n <? 0)%Z then Raise (ValueError "negative dimensions are not allowed")
    else if (n =? 0)%Z then Ok (Array2.mk 0 2 [])
    else if (n =? 2)%Z then Ok (Array2.mk 2 2 [[0; 1]; [0; 1]]%Z)
    else Raise (ValueError "could not broadcast input array").
Proof.
  destruct (Z.ltb_spec n 0) as [Hneg | Hnn].
  - unfold loop_graph, Array2.empty.
    destruct (Z.ltb_spec n 0); [reflexivity | lia].
  - destruct (Z.eqb_spec n 0) as [-> | H0]; [reflexivity |].
    destruct (Z.eqb_spec n 2) as [-> | H2]; [reflexivity |].
    apply loop_graph_broadcast; lia.
Qed.

(** ** Reciprocal edges *)

Lemma reciprocal_T_add (ret : list (nat * nat)) :
  reciprocal (Np.T (add_reciprocal ret)).
Proof.
  intros i j. rewrite edges_T, !in_add_reciprocal. tauto.
Qed.

Section Reciprocal.

Context {F : Type} {DT : Dtype F} {RT : Runtime F}.

Lemma complete_graph_symmetrised batch_ids dist_mat max_dist m :
  complete_graph batch_ids dist_mat max_dist = Ok m ->
  exists ret, m = Np.T (add_reciprocal ret).
Proof.
  unfold complete_graph. intro H.
  match type of H with (if ?c then _ else _) = _ => destruct c end.
  - inv_Ok H. exists []. reflexivity.
  - do 3 inv_bind H. inv_Ok H. eauto.
Qed.

Lemma delaunay_graph_symmetrised data clusts batch_ids dist_mat max_dist m :
  delaunay_graph data clusts batch_ids dist_mat max_dist = Ok m ->
  exists ret, m = Np.T (add_reciprocal ret).
Proof. unfold delaunay_graph. intro H. do 2 inv_bind H. inv_Ok H. eauto. Qed.

Lemma mst_graph_symmetrised batch_ids dist_mat max_dist m :
  mst_graph batch_ids dist_mat max_dist = Ok m ->
  exists ret, m = Np.T (add_reciprocal ret).
Proof. unfold mst_graph. intro H. do 3 inv_bind H. inv_Ok H. eauto. Qed.

Lemma knn_graph_symmetrised batch_ids k dist_mat m :
  knn_graph batch_ids k dist_mat = Ok m ->
  exists ret, m = Np.T (add_reciprocal ret).
Proof. unfold knn_graph. intro H. do 2 inv_bind H. inv_Ok H. eauto. Qed.

Lemma bipartite_graph_symmetrised batch_ids primaries dist_mat max_dist directed_to m :
  bipartite_graph batch_ids primaries dist_mat max_dist false directed_to = Ok m ->
  exists ret, m = Np.T (add_reciprocal ret).
Proof. unfold bipartite_graph. intro H. do 2 inv_bind H. inv_Ok H. eauto. Qed.

End Reciprocal.

(** C3. The incidence matrix returned by the complete, Delaunay, MST,
    kNN and undirected bipartite builders holds, with every edge [(i,j)],
    [i <> j], the edge [(j,i)]. *)
Theorem undirected_builders_reciprocal (F : Type) (DT : Dtype F) (RT : Runtime F) :
  (forall batch_ids dist_mat max_dist m,
      complete_graph batch_ids dist_mat max_dist = Ok m -> reciprocal m)
  /\ (forall data clusts batch_ids dist_mat max_dist m,
      delaunay_graph data clusts batch_ids dist_mat max_dist = Ok m -> reciprocal m)
  /\ (forall batch_ids dist_mat max_dist m,
      mst_graph batch_ids dist_mat max_dist = Ok m -> reciprocal m)
  /\ (forall batch_ids k dist_mat m,
      knn_graph batch_ids k dist_mat = Ok m -> reciprocal m)
  /\ (forall batch_ids primaries dist_mat max_dist directed_to m,
      bipartite_graph batch_ids primaries dist_mat max_dist false directed_to = Ok m ->
      reciprocal m).
Proof.
  repeat split; intros.
  - destruct (complete_graph_symmetrised _ _ _ H) as [ret ->]. apply reciprocal_T_add.
  - destruct (delaunay_graph_symmetrised _ _ _ _ _ H) as [ret ->]. apply reciprocal_T_add.
  - destruct (mst_graph_symmetrised _ _ _ H) as [ret ->]. apply reciprocal_T_add.
  - destruct (knn_graph_symmetrised _ _ _ H) as [ret ->]. apply reciprocal_T_add.
  - destruct (bipartite_graph_symmetrised _ _ _ _ _ H) as [ret ->]. apply reciprocal_T_add.
Qed.

Lemma undirected_builders_reciprocal_witness :
  let RT := Concrete.runtime (F := float) in
  let data := [[0; 0; 0]; [1; 0; 0]; [0; 1; 0]; [0; 0; 1]]%float in
  let dm := Some [[0; 2]; [2; 0]]%float in
  (complete_graph [0; 0]%Z None (-1)%float = Ok ([0; 1], [1; 0])
   /\ delaunay_graph data [[0; 1]; [2; 3]] [0; 0]%Z None (-1)%float = Ok ([0; 1], [1; 0])
   /\ mst_graph [0; 0]%Z dm (-1)%float = Ok ([0; 1], [1; 0])
   /\ knn_graph [0; 0]%Z 1 dm = Ok ([0; 1; 1; 0], [1; 0; 0; 1])
   /\ bipartite_graph [0; 0]%Z [true; false] None (-1)%float false "secondary"
      = Ok ([0; 1], [1; 0]))
  /\ reciprocal ([0; 1], [1; 0])
  /\ reciprocal ([0; 1; 1; 0], [1; 0; 0; 1]).
Proof.
  intros RT data dm.
  destruct (@undirected_builders_reciprocal float float64 RT) as (Hc & Hd & Hm & Hk & Hb).
  assert (Ec : complete_graph [0; 0]%Z None (-1)%float = Ok ([0; 1], [1; 0]))
    by (vm_compute; reflexivity).
  assert (Ek : knn_graph [0; 0]%Z 1 dm = Ok ([0; 1; 1; 0], [1; 0; 0; 1]))
    by (vm_compute; reflexivity).
  split; [| split].
  - repeat split; try assumption; vm_compute; reflexivity.
  - exact (Hc _ _ _ _ Ec).
  - exact (Hk _ _ _ _ Ek).
Defined.

(** ** The orientation of the bipartite graph *)

Section Orientation.

Context {F : Type} {DT : Dtype F}.

(** C9, as amended. With [directed=True], an orientation that is neither
    ['primary'] nor ['secondary'] makes the call raise, and when the same
    call with a valid orientation returns, the error is the
    [ValueError] that names the orientation; with [directed=False] the
    orientation is not read, and the result is the one any other
    orientation gives. *)
Theorem bipartite_graph_orientation
  (batch_ids : list Z) (primaries : list bool) (dist_mat : option (list (list F)))
  (max_dist : F) (directed_to : String.string) :
  directed_to <> "primary"%string -> directed_to <> "secondary"%string ->
  (exists e, bipartite_graph batch_ids primaries dist_mat max_dist true directed_to
             = Raise e)
  /\ (forall m, bipartite_graph batch_ids primaries dist_mat max_dist true "secondary"
                = Ok m ->
                bipartite_graph batch_ids primaries dist_mat max_dist true directed_to
                = Raise (ValueError "Graph orientation not recognized"))
  /\ (forall other, bipartite_graph batch_ids primaries dist_mat max_dist false directed_to
                    = bipartite_graph batch_ids primaries dist_mat max_dist false other).
Proof.
  intros Hp Hs.
  apply String.eqb_neq in Hp. apply String.eqb_neq in Hs.
  unfold bipartite_graph.
  destruct (for_ _ _ _) as [ret | e]; simpl;
    [| repeat split; eauto; discriminate].
  destruct (prune ret dist_mat max_dist) as [ret' | e]; simpl;
    [| repeat split; eauto; discriminate].
  rewrite Hp, Hs. simpl. repeat split; eauto.
Qed.

End Orientation.

Lemma bipartite_graph_orientation_witness :
  exists e,
    bipartite_graph [0; 0]%Z [true; false] None (-1)%float
                    true "sideways" = Raise e.
Proof.
  refine (proj1 (bipartite_graph_orientation [0; 0]%Z
                   [true; false] None (-1)%float (directed_to := "sideways") _ _));
    discriminate.
Defined.

(** C9, as stated, fails: with [directed=False] an orientation that is
    neither ['primary'] nor ['secondary'] raises nothing; the graph comes
    back symmetrised. *)
Lemma bipartite_graph_undirected_ignores_orientation :
  "sideways"%string <> "primary"%string
  /\ "sideways"%string <> "secondary"%string
  /\ bipartite_graph [0; 0]%Z [true; false] None (-1)%float
                     false "sideways" = Ok ([0; 1], [1; 0]).
Proof. repeat split; try discriminate. Qed.

(** ** Pruning at the threshold *)

(** Pruning keeps the edges whose entry of the distance matrix is strictly
    below the threshold, in their order. *)
Lemma prune_keeps_strictly_below {F : Type} {DT : Dtype F}
  (ret ret' : list (nat * nat)) (dm : list (list F)) (max_dist : F) :
  ltb minus_one max_dist = true ->
  prune ret (Some dm) max_dist = Ok ret' ->
  exists dists,
    Forall2 (fun e d => Np.getitem2 dm (fst e) (snd e) = Ok d) ret dists
    /\ ret' = Np.select ret (map (fun d => ltb d max_dist) dists).
Proof.
  intros Hgt H. unfold prune in H. rewrite Hgt in H.
  inv_bind H. inv_Ok H. exists x. split; [now apply mapM_Ok | reflexivity].
Qed.

(** C6. Two clusters of one batch at distance 1.0 and the threshold 1.0:
    the entry does not exceed the threshold, and the edge is removed, in
    both directions. *)
Theorem complete_graph_drops_edge_at_threshold :
  let dist_mat := [[0; 1]; [1; 0]]%float in
  Np.getitem2 dist_mat 0 1 = Ok 1%float
  /\ ltb 1%float 1%float = false
  /\ complete_graph (RT := Concrete.runtime) [0; 0]%Z (Some dist_mat) 1%float
     = Ok ([], [])
  /\ complete_graph (RT := Concrete.runtime) [0; 0]%Z (Some dist_mat) 1.5%float
     = Ok ([0; 1], [1; 0]).
Proof. vm_compute. repeat split. Qed.

(** ** The fragment-edge mapper *)

Lemma filter_map_length {A B : Type} (h : A -> option B) (l : list A) :
  length (filter_map h l) <= length l.
Proof.
  induction l as [| x t IH]; simpl; [lia |].
  destruct (h x); simpl; lia.
Qed.

Lemma filter_map_fixed {A : Type} (h : A -> option A) (l : list A) :
  filter_map h l = l <-> Forall (fun x => h x = Some x) l.
Proof.
  induction l as [| x t IH]; simpl.
  - split; [constructor | reflexivity].
  - split.
    + intro H. destruct (h x) as [y |] eqn:Hx.
      * injection H as -> Ht. constructor; [assumption | now apply IH].
      * pose proof (filter_map_length h t) as Hlen.
        rewrite H in Hlen. simpl in Hlen. lia.
    + intro H. inversion H as [| ? ? Hx Ht]; subst.
      rewrite Hx. f_equal. now apply IH.
Qed.

Lemma get_fragment_edges_from (clust_ids : list Z) (graph : list (Z * Z))
  (acc : list (Z * Z)) :
  fold_left
    (fun true_edges e =>
       let n1 := Np.where_ (fun c => (c =? fst e)%Z) clust_ids in
       let n2 := Np.where_ (fun c => (c =? snd e)%Z) clust_ids in
       match n1, n2 with
       | i1 :: _, i2 :: _ => true_edges ++ [(Z.of_nat i1, Z.of_nat i2)]
       | _, _ => true_edges
       end)
    graph acc
  = acc ++ filter_map (map_edge clust_ids) graph.
Proof.
  revert acc. induction graph as [| e graph IH]; intro acc; simpl.
  - now rewrite app_nil_r.
  - rewrite IH. unfold map_edge, local_index.
    destruct (Np.where_ _ clust_ids) as [| i1 n1];
      destruct (Np.where_ (fun c => (c =? snd e)%Z) clust_ids) as [| i2 n2];
      try reflexivity.
    now rewrite <- app_assoc.
Qed.

(** The mapper keeps the edges with both ends in the list, in order, each
    end replaced by its local index. *)
Lemma get_fragment_edges_spec (graph : list (Z * Z)) (clust_ids : list Z) :
  _get_fragment_edges graph clust_ids = filter_map (map_edge clust_ids) graph.
Proof. unfold _get_fragment_edges. now rewrite get_fragment_edges_from. Qed.

(** C7, as amended. Mapping the mapped edges again gives the same list
    exactly when every local index in it is, read as an external id, at
    its own position in the list of ids (first occurrence). *)
Theorem get_fragment_edges_twice (graph : list (Z * Z)) (clust_ids : list Z) :
  _get_fragment_edges (_get_fragment_edges graph clust_ids) clust_ids
    = _get_fragment_edges graph clust_ids
  <-> Forall (fun e => local_index clust_ids (fst e) = Some (fst e)
                       /\ local_index clust_ids (snd e) = Some (snd e))
             (_get_fragment_edges graph clust_ids).
Proof.
  rewrite (get_fragment_edges_spec (_get_fragment_edges graph clust_ids)).
  rewrite filter_map_fixed.
  split; intro H; (eapply Forall_impl; [| exact H]); intros [a b];
    unfold map_edge; simpl.
  - destruct (local_index clust_ids a), (local_index clust_ids b);
      intro E; inversion E; subst; auto.
  - intros [-> ->]. reflexivity.
Qed.

(** C7, as stated, fails: with the ids [5, 0] the edge (5,5) maps to (0,0),
    and (0,0) maps to (1,1). *)
Lemma get_fragment_edges_not_idempotent :
  _get_fragment_edges [(5, 5)]%Z [5; 0]%Z = [(0, 0)]%Z
  /\ _get_fragment_edges (_get_fragment_edges [(5, 5)]%Z [5; 0]%Z) [5; 0]%Z = [(1, 1)]%Z
  /\ _get_fragment_edges (_get_fragment_edges [(5, 5)]%Z [5; 0]%Z) [5; 0]%Z
     <> _get_fragment_edges [(5, 5)]%Z [5; 0]%Z.
Proof. repeat split. discriminate. Qed.

(** ** The candidate pairs of the complete graph *)

Lemma setitem_middle {A : Type} (done rest : list A) (r v : A) :
  setitem (done ++ r :: rest) (length done) v = Ok (done ++ v :: rest).
Proof.
  induction done as [| d done IH]; simpl; [reflexivity |].
  rewrite IH. reflexivity.
Qed.

Lemma fill_row (p : nat -> bool) (i : nat) (js : list nat)
  (done rest : list (nat * nat)) :
  length (filter p js) <= length rest ->
  for_ js (done ++ rest, length done)
    (fun st j => if p j
                 then ret' <- setitem (fst st) (snd st) (i, j) ;; Ok (ret', S (snd st))
                 else Ok st)
  = Ok (done ++ map (pair i) (filter p js) ++ skipn (length (filter p js)) rest,
        length done + length (filter p js)).
Proof.
  revert done rest. induction js as [| j js IH]; intros done rest Hlen; simpl.
  - rewrite Nat.add_0_r. reflexivity.
  - simpl in Hlen. destruct (p j) eqn:Hp.
    + destruct rest as [| r rest]; simpl in Hlen; [lia |].
      cbn [fst snd]. rewrite setitem_middle. cbn [bind].
      replace (done ++ (i, j) :: rest) with ((done ++ [(i, j)]) ++ rest)
        by (rewrite <- app_assoc; reflexivity).
      replace (S (length done)) with (length (done ++ [(i, j)]))
        by (rewrite length_app; simpl; lia).
      rewrite IH by lia.
      rewrite <- app_assoc. simpl. rewrite length_app. simpl.
      f_equal. f_equal. lia.
    + cbn [bind]. apply IH. assumption.
Qed.

Lemma fill_rows (batch_ids : list Z) (rows : list nat) (done rest : list (nat * nat)) :
  length (flat_map (row_pairs batch_ids) rows) <= length rest ->
  for_ rows (done ++ rest, length done)
    (fun st i =>
       for_ (range2 (i + 1) (length batch_ids)) st
         (fun st j =>
            if (nth i batch_ids 0 =? nth j batch_ids 0)%Z
            then ret' <- setitem (fst st) (snd st) (i, j) ;; Ok (ret', S (snd st))
            else Ok st))
  = Ok (done ++ flat_map (row_pairs batch_ids) rows
             ++ skipn (length (flat_map (row_pairs batch_ids) rows)) rest,
        length done + length (flat_map (row_pairs batch_ids) rows)).
Proof.
  revert done rest. induction rows as [| i rows IH]; intros done rest Hlen; simpl.
  - rewrite Nat.add_0_r. reflexivity.
  - simpl in Hlen. rewrite length_app in Hlen.
    assert (Hrow : length (row_pairs batch_ids i)
                   = length (filter (same_batch batch_ids i)
                                    (range2 (i + 1) (length batch_ids))))
      by (unfold row_pairs; now rewrite length_map).
    pose proof (fill_row (same_batch batch_ids i) i
                  (range2 (i + 1) (length batch_ids)) done rest) as Hfill.
    unfold same_batch at 2 in Hfill. rewrite Hfill by lia. clear Hfill.
    cbn [bind]. fold (row_pairs batch_ids i). rewrite <- Hrow.
    set (row := row_pairs batch_ids i) in *.
    replace (done ++ row ++ skipn (length row) rest)
      with ((done ++ row) ++ skipn (length row) rest)
      by (rewrite <- app_assoc; reflexivity).
    replace (length done + length row) with (length (done ++ row))
      by (rewrite length_app; reflexivity).
    rewrite IH by (rewrite length_skipn; lia).
    rewrite skipn_skipn, !length_app, <- !app_assoc.
    f_equal. f_equal; [do 4 f_equal |]; lia.
Qed.

(** ** np.unique *)

Lemma in_insert_unique (x y : Z) (l : list Z) :
  In y (Np.insert_unique x l) <-> y = x \/ In y l.
Proof.
  induction l as [| z l IH]; simpl.
  - intuition.
  - destruct (Z.ltb_spec x z); simpl; [intuition |].
    destruct (Z.eqb_spec x z); simpl; [subst; intuition |].
    rewrite IH. intuition.
Qed.

Lemma in_unique (x : Z) (l : list Z) : In x (Np.unique l) <-> In x l.
Proof.
  induction l as [| y l IH]; simpl; [tauto |].
  rewrite in_insert_unique, IH. intuition.
Qed.

Lemma insert_unique_sorted (x : Z) (l : list Z) :
  StronglySorted Z.lt l -> StronglySorted Z.lt (Np.insert_unique x l).
Proof.
  induction l as [| z l IH]; simpl; intro Hs.
  - repeat constructor.
  - inversion Hs as [| ? ? Hl Hz]; subst.
    destruct (Z.ltb_spec x z).
    + constructor; [assumption |]. constructor; [assumption |].
      eapply Forall_impl; [| exact Hz]. simpl. intros; lia.
    + destruct (Z.eqb_spec x z); [assumption |].
      constructor; [auto |].
      apply Forall_forall. intros y Hy. apply in_insert_unique in Hy.
      destruct Hy as [-> | Hy]; [lia |].
      rewrite Forall_forall in Hz. auto.
Qed.

Lemma unique_sorted (l : list Z) : StronglySorted Z.lt (Np.unique l).
Proof.
  induction l as [| x l IH]; simpl; [constructor | now apply insert_unique_sorted].
Qed.

Lemma sorted_NoDup (l : list Z) : StronglySorted Z.lt l -> NoDup l.
Proof.
  induction 1 as [| x l Hs IH Hx]; constructor; [| assumption].
  intro Hin. rewrite Forall_forall in Hx. specialize (Hx _ Hin). lia.
Qed.

Lemma unique_NoDup (l : list Z) : NoDup (Np.unique l).
Proof. apply sorted_NoDup, unique_sorted. Qed.

(** ** Counting by batch *)

Lemma list_sum_add {A : Type} (f g : A -> nat) (u : list A) :
  list_sum (map (fun b => f b + g b) u) = list_sum (map f u) + list_sum (map g u).
Proof. induction u as [| b u IH]; simpl; lia. Qed.

Lemma list_sum_indicator (k : Z) (u : list Z) :
  NoDup u -> In k u ->
  list_sum (map (fun b => if (k =? b)%Z then 1 else 0) u) = 1.
Proof.
  induction 1 as [| b u Hb Hu IH]; simpl; [tauto |].
  intros [-> | Hin].
  - rewrite Z.eqb_refl.
    assert (list_sum (map (fun b => if (k =? b)%Z then 1 else 0) u) = 0) as ->; [| lia].
    clear IH Hu. induction u as [| c u IHu]; simpl; [reflexivity |].
    destruct (Z.eqb_spec k c); [subst; simpl in Hb; tauto |].
    apply IHu. simpl in Hb. tauto.
  - destruct (Z.eqb_spec k b); [subst; tauto |]. rewrite IH by assumption. lia.
Qed.

(** A list is as long as its parts by key, when every key is listed once. *)
Lemma length_by_key {A : Type} (key : A -> Z) (u : list Z) (es : list A) :
  NoDup u -> (forall e, In e es -> In (key e) u) ->
  length es = list_sum (map (fun b => length (filter (fun e => (key e =? b)%Z) es)) u).
Proof.
  intros Hu. induction es as [| e es IH]; intro Hkey.
  - simpl. clear. induction u; simpl; auto.
  - rewrite (map_ext _ (fun b => length (filter (fun e0 => (key e0 =? b)%Z) es)
                                  + (if (key e =? b)%Z then 1 else 0))).
    + rewrite list_sum_add, <- IH by (intros; apply Hkey; simpl; auto).
      rewrite list_sum_indicator by (auto; apply Hkey; simpl; auto).
      simpl; lia.
    + intro b. simpl. destruct (key e =? b)%Z; simpl; lia.
Qed.

Lemma length_filter_flat_map {A B : Type} (q : B -> bool) (f : A -> list B) (xs : list A) :
  length (filter q (flat_map f xs))
  = list_sum (map (fun x => length (filter q (f x))) xs).
Proof.
  induction xs as [| x xs IH]; simpl; [reflexivity |].
  rewrite filter_app, length_app, IH. reflexivity.
Qed.

Lemma length_filter_window {A : Type} (p : A -> bool) (d : A) (t pre : list A) :
  length (filter (fun j => p (nth j (pre ++ t) d)) (seq (length pre) (length t)))
  = length (filter p t).
Proof.
  revert pre. induction t as [| y t IH]; intro pre; simpl; [reflexivity |].
  rewrite nth_middle.
  replace (pre ++ y :: t) with ((pre ++ [y]) ++ t) by (now rewrite <- app_assoc).
  replace (S (length pre)) with (length (pre ++ [y])) by (rewrite length_app; simpl; lia).
  destruct (p y); simpl; rewrite IH; reflexivity.
Qed.

Lemma length_row_pairs (l : list Z) (i : nat) :
  i < length l ->
  length (row_pairs l i)
  = length (filter (fun y => (nth i l 0 =? y)%Z) (skipn (i + 1) l)).
Proof.
  intro Hi. unfold row_pairs, range2, same_batch. rewrite length_map.
  rewrite <- (length_filter_window (fun y => (nth i l 0 =? y)%Z) 0%Z
                (skipn (i + 1) l) (firstn (i + 1) l)).
  rewrite firstn_skipn, length_firstn, length_skipn.
  replace (Nat.min (i + 1) (length l)) with (i + 1) by lia. reflexivity.
Qed.

Lemma filter_batch_row (l : list Z) (b : Z) (i : nat) :
  filter (fun e : nat * nat => (nth (fst e) l 0 =? b)%Z) (row_pairs l i)
  = if (nth i l 0 =? b)%Z then row_pairs l i else [].
Proof.
  unfold row_pairs.
  induction (filter (same_batch l i) (range2 (i + 1) (length l))) as [| j js IH]; simpl.
  - now destruct (nth i l 0 =? b)%Z.
  - rewrite IH. now destruct (nth i l 0 =? b)%Z.
Qed.

Lemma pairs_ahead_cons (b x : Z) (t : list Z) :
  pairs_ahead b (x :: t)
  = (if (x =? b)%Z then length (filter (fun y => (x =? y)%Z) t) else 0) + pairs_ahead b t.
Proof.
  unfold pairs_ahead. cbn [length seq map list_sum nth Nat.add skipn].
  rewrite <- seq_shift, map_map. reflexivity.
Qed.

Lemma pairs_ahead_count (b : Z) (l : list Z) :
  2 * pairs_ahead b l = batch_size l b * (batch_size l b - 1).
Proof.
  induction l as [| x t IH]; [reflexivity |].
  rewrite pairs_ahead_cons. unfold batch_size, Np.count in *. simpl.
  destruct (Z.eqb_spec x b) as [-> | Hne]; simpl.
  - rewrite (filter_ext (fun y => (b =? y)%Z) (fun y => (y =? b)%Z))
      by (intro; apply Z.eqb_sym).
    destruct (length (filter (fun y => (y =? b)%Z) t)); simpl in *; nia.
  - exact IH.
Qed.

Lemma length_pairs_in_batch (l : list Z) (b : Z) :
  2 * length (filter (fun e : nat * nat => (nth (fst e) l 0 =? b)%Z) (pairs l))
  = batch_size l b * (batch_size l b - 1).
Proof.
  rewrite <- pairs_ahead_count. f_equal.
  unfold pairs, pairs_ahead, range. rewrite length_filter_flat_map.
  f_equal. apply map_ext_in. intros i Hi. apply in_seq in Hi.
  rewrite filter_batch_row.
  destruct (nth i l 0 =? b)%Z; [apply length_row_pairs; lia | reflexivity].
Qed.

Lemma in_row_pairs (l : list Z) (i a j : nat) :
  In (a, j) (row_pairs l i) <-> a = i /\ i < j /\ j < length l /\ nth i l 0%Z = nth j l 0%Z.
Proof.
  unfold row_pairs, range2, same_batch. rewrite in_map_iff. split.
  - intros (j' & E & Hin). inversion E; subst.
    apply filter_In in Hin. destruct Hin as [Hseq Heq].
    apply in_seq in Hseq. apply Z.eqb_eq in Heq. repeat split; auto; lia.
  - intros (-> & Hij & Hj & Heq). exists j. split; [reflexivity |].
    apply filter_In. split; [apply in_seq; lia | now apply Z.eqb_eq].
Qed.

Lemma in_pairs (l : list Z) (i j : nat) :
  In (i, j) (pairs l) <-> i < j /\ j < length l /\ nth i l 0%Z = nth j l 0%Z.
Proof.
  unfold pairs, range. rewrite in_flat_map. split.
  - intros (a & _ & Hin). apply in_row_pairs in Hin.
    destruct Hin as (-> & Hin). exact Hin.
  - intros (Hij & Hj & Heq). exists i. split; [apply in_seq; lia |].
    apply in_row_pairs. auto.
Qed.

Lemma NoDup_pairs (l : list Z) : NoDup (pairs l).
Proof.
  unfold pairs, range.
  assert (H : NoDup (seq 0 (length l))) by apply seq_NoDup.
  induction H as [| i rows Hi Hrows IH]; simpl; [constructor |].
  apply NoDup_app; [| exact IH |].
  - unfold row_pairs. apply Injective_map_NoDup.
    + intros x y E. now inversion E.
    + apply NoDup_filter, seq_NoDup.
  - intros [a j] Ha Hin. apply in_row_pairs in Ha. destruct Ha as [-> _].
    apply in_flat_map in Hin. destruct Hin as (i' & Hi' & Hin).
    apply in_row_pairs in Hin. destruct Hin as [-> _]. contradiction.
Qed.

Lemma sum_batch_sizes (l : list Z) :
  list_sum (map (batch_size l) (Np.unique l)) = length l.
Proof.
  symmetry. apply (@length_by_key Z (fun x => x) (Np.unique l) l (unique_NoDup l)).
  intros e He. now apply in_unique.
Qed.

Lemma list_sum_double {A : Type} (f : A -> nat) (u : list A) :
  2 * list_sum (map f u) = list_sum (map (fun b => 2 * f b) u).
Proof.
  induction u as [| b u IH]; [reflexivity |].
  simpl in *. lia.
Qed.

Lemma length_pairs_total (l : list Z) :
  2 * length (pairs l)
  = list_sum (map (fun b => batch_size l b * (batch_size l b - 1)) (Np.unique l)).
Proof.
  rewrite (@length_by_key _ (fun e : nat * nat => nth (fst e) l 0%Z) (Np.unique l)
             (pairs l) (unique_NoDup l)).
  - rewrite list_sum_double. f_equal. apply map_ext. intro b.
    apply length_pairs_in_batch.
  - intros [i j] Hin. apply in_pairs in Hin. apply in_unique. simpl.
    apply nth_In. lia.
Qed.

Lemma sum_squares_fold (g : Z -> nat) (u : list Z) (a : Z) :
  fold_left (fun acc b => (acc + Z.of_nat (g b) ^ 2)%Z) u a
  = (a + Z.of_nat (list_sum (map (fun b => (g b * g b)%nat) u)))%Z.
Proof.
  revert a. induction u as [| b u IH]; intro a; simpl; [lia |].
  rewrite IH. nia.
Qed.

(** The count [complete_graph] allocates for is the number of pairs its
    loop stores. *)
Lemma edge_count_pairs (l : list Z) :
  ((fold_left (fun acc b => (acc + Z.of_nat (Np.count (fun x => x =? b) l) ^ 2))
              (Np.unique l) 0 - Z.of_nat (length l)) ÷ 2)%Z
  = Z.of_nat (length (pairs l)).
Proof.
  rewrite (sum_squares_fold (batch_size l)).
  assert (H : list_sum (map (fun b => batch_size l b * batch_size l b) (Np.unique l))
              = length l + 2 * length (pairs l)).
  { rewrite length_pairs_total, <- (sum_batch_sizes l) at 1.
    rewrite <- list_sum_add. f_equal. apply map_ext. intro b.
    destruct (batch_size l b); simpl; nia. }
  rewrite H.
  replace (0 + Z.of_nat (length l + 2 * length (pairs l)) - Z.of_nat (length l))%Z
    with (Z.of_nat (length (pairs l)) * 2)%Z by lia.
  apply Z.quot_mul. lia.
Qed.

Section CompleteGraph.

Context {F : Type} {DT : Dtype F} {RT : Runtime F}.

(** The double loop fills the allocated rows exactly: what is pruned and
    symmetrised is the list of pairs. *)
Lemma complete_graph_pairs (batch_ids : list Z) (dist_mat : option (list (list F)))
  (max_dist : F) :
  complete_graph batch_ids dist_mat max_dist
  = match pairs batch_ids with
    | [] => Ok ([], [])
    | _ => ret <- prune (pairs batch_ids) dist_mat max_dist ;;
           Ok (Np.T (add_reciprocal ret))
    end.
Proof.
  unfold complete_graph. rewrite edge_count_pairs.
  destruct (pairs batch_ids) as [| e ps] eqn:Hp; [reflexivity |].
  rewrite <- Hp.
  destruct (Z.eqb_spec (Z.of_nat (length (pairs batch_ids))) 0) as [E | _];
    [rewrite Hp in E; simpl in E; lia |].
  unfold Np.empty_rows.
  destruct (Z.ltb_spec (Z.of_nat (length (pairs batch_ids))) 0); [lia |].
  rewrite Nat2Z.id. cbn [bind].
  pose proof (fill_rows batch_ids (range (length batch_ids)) []
                (map uninit (seq 0 (length (pairs batch_ids))))) as Hfill.
  cbn [app length] in Hfill. rewrite Hfill.
  - cbn [bind fst]. fold (pairs batch_ids).
    rewrite skipn_all2, app_nil_r by (rewrite length_map, length_seq; reflexivity).
    reflexivity.
  - rewrite length_map, length_seq. reflexivity.
Qed.

Lemma complete_graph_no_threshold (batch_ids : list Z)
  (dist_mat : option (list (list F))) (max_dist : F) :
  ltb minus_one max_dist = false ->
  complete_graph batch_ids dist_mat max_dist
  = Ok (Np.T (add_reciprocal (pairs batch_ids))).
Proof.
  intro H. rewrite complete_graph_pairs. unfold prune. rewrite H.
  destruct (pairs batch_ids); reflexivity.
Qed.

End CompleteGraph.

Lemma length_filter_map {A B : Type} (q : B -> bool) (f : A -> B) (l : list A) :
  length (filter q (map f l)) = length (filter (fun x => q (f x)) l).
Proof.
  induction l as [| x l IH]; simpl; [reflexivity |].
  destruct (q (f x)); simpl; congruence.
Qed.

(** C8. With no threshold, [complete_graph] returns: every ordered pair of
    distinct clusters of one batch, each once; hence [m(m-1)] edges among
    the [m] clusters of a batch, and the sum of these over the batches in
    all. *)
Theorem complete_graph_edge_count {F : Type} {DT : Dtype F} {RT : Runtime F}
  (batch_ids : list Z) (dist_mat : option (list (list F))) (max_dist : F) :
  ltb minus_one max_dist = false ->
  exists m,
    complete_graph batch_ids dist_mat max_dist = Ok m
    /\ NoDup (Np.edges m)
    /\ (forall i j, In (i, j) (Np.edges m) <->
                    i < length batch_ids /\ j < length batch_ids /\ i <> j
                    /\ nth i batch_ids 0%Z = nth j batch_ids 0%Z)
    /\ (forall b, length (filter (in_batch batch_ids b) (Np.edges m))
                  = batch_size batch_ids b * (batch_size batch_ids b - 1))
    /\ length (Np.edges m)
       = list_sum (map (fun b => batch_size batch_ids b * (batch_size batch_ids b - 1))
                       (Np.unique batch_ids)).
Proof.
  intro Hno. eexists. split; [apply complete_graph_no_threshold; exact Hno |].
  rewrite edges_T. unfold add_reciprocal. repeat split.
  - apply NoDup_app.
    + apply NoDup_pairs.
    + apply Injective_map_NoDup; [| apply NoDup_pairs].
      intros [a b] [c d] E. simpl in E. now inversion E.
    + intros [i j] Hin Hflip. fold (Np.flip (pairs batch_ids)) in Hflip.
      rewrite in_flip in Hflip.
      apply in_pairs in Hin. apply in_pairs in Hflip. lia.
  - apply in_app_iff in H. rewrite in_flip, !in_pairs in H. lia.
  - apply in_app_iff in H. rewrite in_flip, !in_pairs in H. lia.
  - apply in_app_iff in H. rewrite in_flip, !in_pairs in H. lia.
  - apply in_app_iff in H. rewrite in_flip, !in_pairs in H.
    destruct H as [H | H]; [| symmetry]; apply H.
  - intros (Hi & Hj & Hne & Heq). apply in_app_iff. rewrite in_flip, !in_pairs.
    destruct (Nat.lt_ge_cases i j); [left | right]; repeat split; auto; lia.
  - intro b. rewrite filter_app, length_app. unfold Np.flip.
    rewrite length_filter_map.
    rewrite (filter_ext_in (in_batch batch_ids b)
               (fun e : nat * nat => (nth (fst e) batch_ids 0 =? b)%Z)).
    + rewrite (filter_ext_in (fun x : nat * nat => in_batch batch_ids b (snd x, fst x))
                 (fun e : nat * nat => (nth (fst e) batch_ids 0 =? b)%Z)).
      * rewrite <- length_pairs_in_batch. lia.
      * intros [i j] Hin. apply in_pairs in Hin. unfold in_batch. simpl.
        destruct Hin as (_ & _ & ->). apply andb_diag.
    + intros [i j] Hin. apply in_pairs in Hin. unfold in_batch. simpl.
      destruct Hin as (_ & _ & ->). apply andb_diag.
  - rewrite length_app. unfold Np.flip. rewrite length_map, <- length_pairs_total. lia.
Qed.

Lemma complete_graph_edge_count_witness :
  exists m,
    complete_graph (RT := Concrete.runtime) [0; 0; 0; 1]%Z None (-1)%float = Ok m
    /\ length (Np.edges m) = 6.
Proof.
  destruct (@complete_graph_edge_count float float64 Concrete.runtime [0; 0; 0; 1]%Z
              None (-1)%float eq_refl)
    as (m & Hm & _ & _ & _ & Hlen).
  exists m. split; [exact Hm | rewrite Hlen; reflexivity].
Defined.

(** ** Edges stay within a batch *)

Lemma intra_batch_nil (l : list Z) : intra_batch l [].
Proof. intros i j []. Qed.

Lemma intra_batch_app (l : list Z) (es es' : list (nat * nat)) :
  intra_batch l es -> intra_batch l es' -> intra_batch l (es ++ es').
Proof. intros H H' i j Hin. apply in_app_iff in Hin. destruct Hin; auto. Qed.

Lemma intra_batch_incl (l : list Z) (es es' : list (nat * nat)) :
  incl es' es -> intra_batch l es -> intra_batch l es'.
Proof. intros Hincl H i j Hin. auto. Qed.

Lemma intra_batch_flip (l : list Z) (es : list (nat * nat)) :
  intra_batch l es -> intra_batch l (Np.flip es).
Proof.
  intros H i j Hin. rewrite in_flip in Hin.
  destruct (H _ _ Hin) as (b & Hj & Hi). eauto.
Qed.

Lemma intra_batch_add_reciprocal (l : list Z) (es : list (nat * nat)) :
  intra_batch l es -> intra_batch l (add_reciprocal es).
Proof. intro H. apply intra_batch_app; [| apply intra_batch_flip]; exact H. Qed.

Lemma in_enumerate_from {A : Type} (l : list A) (a i : nat) (x : A) :
  In (i, x) (combine (seq a (length l)) l) <-> a <= i /\ nth_error l (i - a) = Some x.
Proof.
  revert a. induction l as [| y l IH]; intro a; simpl.
  - split; [tauto | intros [_ H]; destruct (i - a); discriminate].
  - rewrite IH. split.
    + intros [E | [Hle Hn]].
      * inversion E; subst. rewrite Nat.sub_diag. auto.
      * split; [lia |]. replace (i - a) with (S (i - S a)) by lia. exact Hn.
    + intros [Hle Hn]. destruct (Nat.eq_dec a i) as [-> | Hne].
      * rewrite Nat.sub_diag in Hn. simpl in Hn. left. congruence.
      * right. split; [lia |].
        replace (i - a) with (S (i - S a)) in Hn by lia. exact Hn.
Qed.

Lemma in_enumerate {A : Type} (l : list A) (i : nat) (x : A) :
  In (i, x) (enumerate l) <-> nth_error l i = Some x.
Proof.
  unfold enumerate. rewrite in_enumerate_from, Nat.sub_0_r.
  split; [tauto | split; [lia | assumption]].
Qed.

Lemma in_where {A : Type} (p : A -> bool) (l : list A) (i : nat) :
  In i (Np.where_ p l) <-> exists x, nth_error l i = Some x /\ p x = true.
Proof.
  unfold Np.where_. rewrite in_map_iff. split.
  - intros ([i' x] & E & Hin). simpl in E. subst i'.
    apply filter_In in Hin. destruct Hin as [Hin Hp].
    apply in_enumerate in Hin. eauto.
  - intros (x & Hn & Hp). exists (i, x). split; [reflexivity |].
    apply filter_In. split; [now apply in_enumerate | exact Hp].
Qed.

Lemma in_clusters_of (batch_ids : list Z) (b : Z) (c : nat) :
  In c (clusters_of batch_ids b) <-> nth_error batch_ids c = Some b.
Proof.
  unfold clusters_of. rewrite in_where. split.
  - intros (x & Hn & Hx). apply Z.eqb_eq in Hx. congruence.
  - intro H. exists b. split; [exact H | apply Z.eqb_refl].
Qed.

Lemma mapM_In {A B : Type} (f : A -> result B) (xs : list A) (ys : list B) (y : B) :
  mapM f xs = Ok ys -> In y ys -> exists x, In x xs /\ f x = Ok y.
Proof.
  intro H. apply mapM_Ok in H. induction H as [| x y' xs ys Hxy _ IH]; simpl.
  - tauto.
  - intros [-> | Hin]; [eauto |]. destruct (IH Hin) as (x' & Hx' & Hf). eauto.
Qed.

Lemma mapM_length {A B : Type} (f : A -> result B) (xs : list A) (ys : list B) :
  mapM f xs = Ok ys -> length ys = length xs.
Proof.
  intro H. apply mapM_Ok in H. induction H; simpl; congruence.
Qed.

Lemma select_incl {A : Type} (arr : list A) (mask : list bool) :
  incl (Np.select arr mask) arr.
Proof.
  unfold Np.select. intros x Hin. apply in_map_iff in Hin.
  destruct Hin as ([x' m] & E & Hin). simpl in E. subst x'.
  apply filter_In in Hin. destruct Hin as [Hin _].
  eapply in_combine_l; eauto.
Qed.

Lemma prune_incl {F : Type} {DT : Dtype F} (ret ret' : list (nat * nat))
  (dist_mat : option (list (list F))) (max_dist : F) :
  prune ret dist_mat max_dist = Ok ret' -> incl ret' ret.
Proof.
  unfold prune. destruct (ltb minus_one max_dist).
  - destruct dist_mat as [dm |]; [| discriminate].
    intro H. inv_bind H. inv_Ok H. apply select_incl.
  - intro H. inv_Ok H. apply incl_refl.
Qed.

Lemma to_cluster_ids_in (clust_ids : list nat) (es es' : list (nat * nat)) :
  to_cluster_ids clust_ids es = Ok es' ->
  forall i j, In (i, j) es' -> In i clust_ids /\ In j clust_ids.
Proof.
  intros H i j Hin. unfold to_cluster_ids in H.
  destruct (mapM_In _ _ _ H Hin) as (e & _ & He).
  do 2 inv_bind He. inversion He; subst.
  split; eapply getitem_In; eauto.
Qed.

Lemma to_cluster_ids_intra (batch_ids : list Z) (b : Z) (es es' : list (nat * nat)) :
  to_cluster_ids (clusters_of batch_ids b) es = Ok es' -> intra_batch batch_ids es'.
Proof.
  intros H i j Hin. destruct (to_cluster_ids_in _ _ H _ _ Hin) as [Hi Hj].
  exists b. split; now apply in_clusters_of.
Qed.

Lemma pairs_intra (batch_ids : list Z) : intra_batch batch_ids (pairs batch_ids).
Proof.
  intros i j Hin. apply in_pairs in Hin. destruct Hin as (Hij & Hj & Heq).
  exists (nth i batch_ids 0%Z). split.
  - apply nth_error_nth'. lia.
  - rewrite Heq. now apply nth_error_nth'.
Qed.

Section IntraBatch.

Context {F : Type} {DT : Dtype F} {RT : Runtime F}.

Lemma complete_graph_intra batch_ids dist_mat max_dist m :
  complete_graph batch_ids dist_mat max_dist = Ok m ->
  intra_batch batch_ids (Np.edges m).
Proof.
  rewrite complete_graph_pairs. destruct (pairs batch_ids) eqn:Hp.
  - intro H. inv_Ok H. apply intra_batch_nil.
  - rewrite <- Hp. intro H. inv_bind H. inv_Ok H. rewrite edges_T.
    apply intra_batch_add_reciprocal.
    eapply intra_batch_incl; [eapply prune_incl; eauto | apply pairs_intra].
Qed.

Lemma delaunay_graph_intra data clusts batch_ids dist_mat max_dist m :
  delaunay_graph data clusts batch_ids dist_mat max_dist = Ok m ->
  intra_batch batch_ids (Np.edges m).
Proof.
  unfold delaunay_graph. intro H. do 2 inv_bind H. inv_Ok H. rewrite edges_T.
  apply intra_batch_add_reciprocal.
  eapply intra_batch_incl; [eapply prune_incl; eauto |].
  eapply for_invariant; [exact E | apply intra_batch_nil |].
  intros ret b ret' _ Hret Hbody. cbv beta zeta in Hbody.
  do 5 inv_bind Hbody. inv_Ok Hbody.
  apply intra_batch_app; [exact Hret |].
  eapply to_cluster_ids_intra; eauto.
Qed.

Lemma mst_graph_intra batch_ids dist_mat max_dist m :
  mst_graph batch_ids dist_mat max_dist = Ok m ->
  intra_batch batch_ids (Np.edges m).
Proof.
  unfold mst_graph. intro H. inv_typed H. do 2 inv_bind H. inv_Ok H. rewrite edges_T.
  apply intra_batch_add_reciprocal.
  eapply intra_batch_incl; [eapply prune_incl; eauto |].
  eapply for_invariant; [exact E | apply intra_batch_nil |].
  intros ret b ret' _ Hret Hbody. cbv beta zeta in Hbody. revert Hbody.
  destruct (1 <? length (clusters_of batch_ids b));
    [| intro Hbody; inv_Ok Hbody; exact Hret].
  destruct dist_mat as [dm |]; [| discriminate].
  intro Hbody. do 3 inv_bind Hbody. inv_Ok Hbody.
  apply intra_batch_app; [exact Hret |].
  eapply to_cluster_ids_intra; eauto.
Qed.

Lemma bipartite_graph_intra batch_ids primaries dist_mat max_dist directed directed_to m :
  bipartite_graph batch_ids primaries dist_mat max_dist directed directed_to = Ok m ->
  intra_batch batch_ids (Np.edges m).
Proof.
  unfold bipartite_graph. intro H. do 2 inv_bind H.
  assert (Hx0 : intra_batch batch_ids x0).
  { eapply intra_batch_incl; [eapply prune_incl; eauto |].
    eapply for_invariant; [exact E | apply intra_batch_nil |].
    intros ret i ret' _ Hret Hbody.
    eapply for_invariant; [exact Hbody | exact Hret |].
    clear. intros ret j ret' _ Hret Hbody.
    do 2 inv_bind Hbody. revert Hbody.
    destruct (Z.eqb_spec x x0) as [-> | _]; intro Hbody; inv_Ok Hbody; [| exact Hret].
    apply intra_batch_app; [exact Hret |].
    intros a b [Hab | []]. inversion Hab; subst.
    exists x0. split; now apply getitem_Ok. }
  revert H. destruct directed.
  - destruct (String.eqb directed_to "primary").
    + intro H. inv_Ok H. rewrite edges_T. now apply intra_batch_flip.
    + destruct (negb _); [discriminate |]. intro H. inv_Ok H. now rewrite edges_T.
  - intro H. inv_Ok H. rewrite edges_T. now apply intra_batch_add_reciprocal.
Qed.

End IntraBatch.

Lemma length_insert_sorted (x : nat) (l : list nat) :
  length (Np.insert_sorted x l) = S (length l).
Proof.
  induction l as [| y l IH]; simpl; [reflexivity |].
  destruct (x <=? y); simpl; congruence.
Qed.

Lemma length_sort (l : list nat) : length (Np.sort l) = length l.
Proof.
  induction l as [| x l IH]; simpl; [reflexivity |].
  rewrite length_insert_sorted. congruence.
Qed.

Lemma length_slice1 {A : Type} (stop : Z) (l : list A) :
  (0 < stop <= Z.of_nat (length l))%Z ->
  length (Np.slice1 stop l) = Z.to_nat (stop - 1).
Proof.
  intro H. unfold Np.slice1.
  destruct (Z.ltb_spec stop 0); [lia |].
  rewrite length_skipn, length_firstn. lia.
Qed.

Lemma submatrix_nb_row_length {F : Type} (dm sub : list (list F)) (rs cs : list nat) :
  submatrix_nb dm rs cs = Ok sub ->
  forall row, In row sub -> length row = length cs.
Proof.
  intros H row Hin. unfold submatrix_nb in H.
  destruct (mapM_In _ _ _ H Hin) as (r & _ & Hr).
  inv_bind Hr. eapply mapM_length; eauto.
Qed.

(** The loop of [knn_graph] that stores one row per neighbour: when there
    are as many neighbours as rows left, every row is written, with
    clusters of the batch at both ends. *)
Lemma knn_fill (clust_ids : list nat) (i : nat) (xs : list nat) (a : nat)
  (done rest r : list (nat * nat)) :
  for_ (combine (seq a (length xs)) xs) (done ++ rest)
    (fun edges jidx =>
       ci <- getitem clust_ids i ;;
       cidx <- getitem clust_ids (snd jidx) ;;
       setitem edges (fst jidx) (ci, cidx)) = Ok r ->
  length done = a -> length rest = length xs ->
  exists new, r = done ++ new
              /\ Forall (fun e => In (fst e) clust_ids /\ In (snd e) clust_ids) new.
Proof.
  revert a done rest. induction xs as [| x xs IH]; intros a done rest H Hd Hr.
  - destruct rest; [| discriminate]. simpl in H. inv_Ok H. exists []. auto.
  - destruct rest as [| r0 rest]; [discriminate |].
    simpl in H. inv_bind H. do 2 inv_bind E. simpl in E. subst a.
    rewrite setitem_middle in E. inv_Ok E.
    replace (done ++ (x1, x2) :: rest) with ((done ++ [(x1, x2)]) ++ rest) in H
      by (now rewrite <- app_assoc).
    apply IH in H; [| rewrite length_app; simpl; lia | simpl in Hr; lia].
    destruct H as (new & -> & Hnew). exists ((x1, x2) :: new).
    split; [now rewrite <- app_assoc |].
    constructor; [| exact Hnew]. simpl. split; eapply getitem_In; eauto.
Qed.

Lemma knn_graph_intra {F : Type} {DT : Dtype F} {RT : Runtime F}
  {AS : ArgsortSpec RT} batch_ids k dist_mat m :
  knn_graph batch_ids k dist_mat = Ok m ->
  intra_batch batch_ids (Np.edges m).
Proof.
  unfold knn_graph. intro H. inv_typed H. inv_bind H. inv_Ok H. rewrite edges_T.
  apply intra_batch_add_reciprocal.
  eapply for_invariant; [exact E | apply intra_batch_nil |].
  clear E x. intros ret b ret' _ Hret Hbody. cbv beta zeta in Hbody. revert Hbody.
  destruct (1 <? length (clusters_of batch_ids b));
    [| intro Hbody; inv_Ok Hbody; exact Hret].
  destruct dist_mat as [dm |]; [| discriminate].
  intro Hbody. inv_bind Hbody.
  eapply for_invariant; [exact Hbody | exact Hret |].
  clear Hbody Hret ret ret'. intros ret [i row] ret' Hin Hret Hbody.
  cbv beta zeta in Hbody. cbn [fst snd] in Hbody.
  apply in_enumerate, nth_error_In in Hin.
  pose proof (submatrix_nb_row_length _ _ _ E _ Hin) as Hrow.
  set (n := length (clusters_of batch_ids b)) in *.
  set (subk := Z.min (k + 1) (Z.of_nat n)) in *.
  inv_bind Hbody. unfold Np.empty_rows in E0. revert E0.
  destruct (Z.ltb_spec (subk - 1) 0) as [| Hk]; [discriminate |].
  intro E0. inv_Ok E0. inv_bind Hbody.
  unfold enumerate in E0.
  apply (knn_fill _ _ _ [] _) in E0; [| reflexivity |].
  - destruct E0 as (new & -> & Hnew). simpl in Hbody. revert Hbody.
    destruct (length new =? 0); intro Hbody; inv_Ok Hbody; [exact Hret |].
    apply intra_batch_app; [exact Hret |].
    intros c d Hcd. rewrite Forall_forall in Hnew.
    destruct (Hnew _ Hcd) as [Hc Hd]. simpl in Hc, Hd.
    exists b. split; now apply in_clusters_of.
  - rewrite length_map, length_seq, length_sort, length_slice1; [reflexivity |].
    rewrite (Permutation_length (argsort_perm row)), length_seq, Hrow.
    subst subk. lia.
Qed.

(** ** The insertion argsort is an argsort *)

Lemma insert_by_perm {F : Type} {DT : Dtype F} (x : nat * F) (l : list (nat * F)) :
  Permutation (Concrete.insert_by x l) (x :: l).
Proof.
  induction l as [| y l IH]; simpl; [apply Permutation_refl |].
  destruct (ltb (snd y) (snd x)); [| apply Permutation_refl].
  eapply Permutation_trans; [apply perm_skip, IH | apply perm_swap].
Qed.

Lemma map_fst_combine_seq {A : Type} (l : list A) (a : nat) :
  map fst (combine (seq a (length l)) l) = seq a (length l).
Proof.
  revert a. induction l as [| y l IH]; intro a; simpl; [reflexivity |].
  now rewrite IH.
Qed.

Lemma argsort_insertion_spec {F : Type} {DT : Dtype F} :
  ArgsortSpec (Concrete.runtime (F := F)).
Proof.
  intro row. unfold argsort; simpl. unfold Concrete.argsort_insertion.
  apply Permutation_trans with (map fst (enumerate row)).
  - apply Permutation_map.
    induction (enumerate row) as [| x l IH]; simpl.
    + apply Permutation_refl.
    + eapply Permutation_trans; [apply insert_by_perm | apply perm_skip, IH].
  - unfold enumerate. rewrite map_fst_combine_seq. apply Permutation_refl.
Qed.

(** C4. No builder returns an edge between clusters of different batches:
    both ends of an edge of the complete, Delaunay, MST, kNN or bipartite
    graph are clusters with one batch id, and the edges [loop_graph]
    returns are self-loops. *)
Theorem builders_stay_within_batch (F : Type) (DT : Dtype F) (RT : Runtime F) :
  ArgsortSpec RT ->
  (forall u n a, loop_graph u n = Ok a ->
                 forall i j, In (i, j) (Array2.edges a) -> i = j)
  /\ (forall batch_ids dist_mat max_dist m,
         complete_graph batch_ids dist_mat max_dist = Ok m ->
         intra_batch batch_ids (Np.edges m))
  /\ (forall data clusts batch_ids dist_mat max_dist m,
         delaunay_graph data clusts batch_ids dist_mat max_dist = Ok m ->
         intra_batch batch_ids (Np.edges m))
  /\ (forall batch_ids dist_mat max_dist m,
         mst_graph batch_ids dist_mat max_dist = Ok m ->
         intra_batch batch_ids (Np.edges m))
  /\ (forall batch_ids k dist_mat m,
         knn_graph batch_ids k dist_mat = Ok m ->
         intra_batch batch_ids (Np.edges m))
  /\ (forall batch_ids primaries dist_mat max_dist directed directed_to m,
         bipartite_graph batch_ids primaries dist_mat max_dist directed directed_to = Ok m ->
         intra_batch batch_ids (Np.edges m)).
Proof.
  intro AS. repeat split.
  - intros u n a H i j Hin.
    destruct (loop_graph_returns _ _ H) as [[_ ->] | [_ ->]]; simpl in Hin.
    + contradiction.
    + destruct Hin as [E | [E | []]]; inversion E; reflexivity.
  - intros; eapply complete_graph_intra; eauto.
  - intros; eapply delaunay_graph_intra; eauto.
  - intros; eapply mst_graph_intra; eauto.
  - intros; eapply knn_graph_intra; eauto.
  - intros; eapply bipartite_graph_intra; eauto.
Qed.

Lemma builders_stay_within_batch_witness :
  let RT := Concrete.runtime (F := float) in
  let batch_ids := [0; 0; 0; 1; 1]%Z in
  let dm := Some [[0; 1; 5; 9; 9]; [1; 0; 2; 9; 9]; [5; 2; 0; 9; 9];
                  [9; 9; 9; 0; 3]; [9; 9; 9; 3; 0]]%float in
  knn_graph batch_ids 1 dm
    = Ok ([0; 1; 2; 3; 4; 1; 0; 1; 4; 3], [1; 0; 1; 4; 3; 0; 1; 2; 3; 4])
  /\ intra_batch batch_ids
       (Np.edges ([0; 1; 2; 3; 4; 1; 0; 1; 4; 3], [1; 0; 1; 4; 3; 0; 1; 2; 3; 4])).
Proof.
  intros RT batch_ids dm.
  assert (E : knn_graph batch_ids 1 dm
              = Ok ([0; 1; 2; 3; 4; 1; 0; 1; 4; 3], [1; 0; 1; 4; 3; 0; 1; 2; 3; 4]))
    by (vm_compute; reflexivity).
  split; [exact E |].
  destruct (@builders_stay_within_batch float float64 RT argsort_insertion_spec)
    as (_ & _ & _ & _ & Hk & _).
  exact (Hk _ _ _ _ E).
Defined.

(** ** Edge features *)

Section EdgeFeatures.

Import Geometry.
Local Open Scope R_scope.

Lemma norm3 (a b c : R) : norm [a; b; c] = sqrt (a * a + b * b + c * c).
Proof. unfold norm. simpl. f_equal. ring. Qed.

Lemma sum_squares_nonneg (a b c : R) : 0 <= a * a + b * b + c * c.
Proof. nra. Qed.

Lemma norm3_sqr (a b c : R) : norm [a; b; c] * norm [a; b; c] = a * a + b * b + c * c.
Proof. rewrite norm3. apply sqrt_sqrt, sum_squares_nonneg. Qed.

Lemma norm3_zero (a b c : R) : norm [a; b; c] = 0 -> a = 0 /\ b = 0 /\ c = 0.
Proof.
  intro H. pose proof (norm3_sqr a b c) as Hs. rewrite H in Hs.
  repeat split; nra.
Qed.

Lemma norm3_unit (a b c l : R) :
  l = norm [a; b; c] -> 0 < l -> norm [a / l; b / l; c / l] = 1.
Proof.
  intros Hl Hpos. rewrite norm3.
  replace (a / l * (a / l) + b / l * (b / l) + c / l * (c / l))
    with ((a * a + b * b + c * c) / (l * l)) by (field; lra).
  rewrite <- norm3_sqr, <- Hl.
  replace (l * l / (l * l)) with 1 by (field; lra).
  apply sqrt_1.
Qed.

Lemma feature_ok_intro (p1 p2 p3 q1 q2 q3 d1 d2 d3 lend : R) :
  0 <= lend ->
  lend = norm [p1 - q1; p2 - q2; p3 - q3] ->
  ([d1; d2; d3] = [0; 0; 0] <-> lend = 0) ->
  (lend <> 0 -> norm [d1; d2; d3] = 1) ->
  feature_ok ([p1; p2; p3] ++ [q1; q2; q3] ++ [d1; d2; d3] ++ [lend]
              ++ concat (outer [d1; d2; d3] [d1; d2; d3])).
Proof.
  intros Hpos Hnorm Hzero Hunit.
  assert (Htr : d1 * d1 + d2 * d2 + d3 * d3 <= 1).
  { destruct (Req_dec lend 0) as [E | E].
    - apply Hzero in E. inversion E; subst. lra.
    - rewrite <- norm3_sqr, (Hunit E). lra. }
  constructor; try reflexivity; try assumption.
  - intros a b Ha Hb.
    destruct a as [| [| [| a]]]; [| | | lia];
      (destruct b as [| [| [| b]]]; [| | | lia]);
      unfold entry, block; simpl; ring.
  - intros x y z. unfold quadratic_form, entry, block. simpl.
    match goal with
    | |- 0 <= ?e => replace e with (Rsqr (d1 * x + d2 * y + d3 * z))
        by (unfold Rsqr; ring)
    end.
    apply Rle_0_sqr.
Qed.

Lemma length_outer (u v : list R) :
  length (concat (outer u v)) = (length u * length v)%nat.
Proof.
  unfold outer. induction u as [| a u IH]; simpl; [reflexivity |].
  rewrite length_app, length_map, IH. reflexivity.
Qed.

(** What [feature_row] stores for two points and their difference, in
    either order. *)
Lemma feature_row_ok (p q disp row : list R) :
  (length p <= 3)%nat -> (length q <= 3)%nat ->
  disp = vsub p q \/ disp = vsub q p ->
  feature_row p q disp = Ok row ->
  feature_ok row.
Proof.
  intros Hp Hq Hdisp H. unfold feature_row in H. revert H.
  match goal with |- (if ?c then _ else _) = _ -> _ => destruct c eqn:Hlen end;
    [| discriminate].
  intro H. inv_Ok H. apply Nat.eqb_eq in Hlen.
  assert (Hd : length disp = Nat.min (length p) (length q)).
  { destruct Hdisp as [-> | ->]; unfold vsub;
      rewrite length_map, length_combine; lia. }
  assert (Hl : length p = 3%nat /\ length q = 3%nat).
  { rewrite !length_app in Hlen.
    assert (Hdn : length (if Rlt_dec 0 (norm disp)
                         then map (fun x => x / norm disp) disp else disp)
                  = length disp)
      by (destruct (Rlt_dec 0 (norm disp)); [apply length_map | reflexivity]).
    set (d' := if Rlt_dec 0 (norm disp)
               then map (fun x => x / norm disp) disp else disp) in *.
    rewrite length_outer, Hdn in Hlen. simpl in Hlen.
    destruct (length p) as [| [| [| [| ?]]]]; destruct (length q) as [| [| [| [| ?]]]];
      simpl in Hd; rewrite Hd in Hlen; simpl in Hlen; lia. }
  destruct Hl as [Hlp Hlq].
  destruct p as [| p1 [| p2 [| p3 [| ? ?]]]]; try discriminate.
  destruct q as [| q1 [| q2 [| q3 [| ? ?]]]]; try discriminate.
  assert (Hsym : norm [q1 - p1; q2 - p2; q3 - p3] = norm [p1 - q1; p2 - q2; p3 - q3])
    by (rewrite !norm3; f_equal; ring).
  assert (Hdisp' : disp = [p1 - q1; p2 - q2; p3 - q3]
                   \/ disp = [q1 - p1; q2 - p2; q3 - p3])
    by (destruct Hdisp as [-> | ->]; [left | right]; reflexivity).
  clear Hdisp Hd Hlen.
  assert (Hn : norm disp = norm [p1 - q1; p2 - q2; p3 - q3])
    by (destruct Hdisp' as [-> | ->]; [reflexivity | exact Hsym]).
  assert (exists a b c, disp = [a; b; c]) as (a & b & c & ->)
    by (destruct Hdisp' as [-> | ->]; eauto).
  assert (H0 : 0 <= norm [a; b; c]) by (unfold norm; apply sqrt_pos).
  destruct (Rlt_dec 0 (norm [a; b; c])) as [Hpos | Hnpos]; simpl map.
  - apply feature_ok_intro; try assumption.
    + split; [| lra]. intro E.
      pose proof (norm3_unit a b c eq_refl Hpos) as Hu.
      rewrite E, norm3 in Hu.
      replace (0 * 0 + 0 * 0 + 0 * 0) with 0 in Hu by ring.
      rewrite sqrt_0 in Hu. lra.
    + intros _. now apply norm3_unit.
  - assert (Hz : norm [a; b; c] = 0) by lra.
    apply feature_ok_intro; try assumption.
    + split; [intros _; exact Hz |]. intros _.
      destruct (norm3_zero _ _ _ Hz) as (-> & -> & ->). reflexivity.
    + intro Hne. contradiction.
Qed.

Lemma feature_row_total (p q disp : list R) :
  length p = 3%nat -> length q = 3%nat -> length disp = 3%nat ->
  exists row, feature_row p q disp = Ok row.
Proof.
  intros Hp Hq Hd.
  destruct p as [| p1 [| p2 [| p3 [| ? ?]]]]; try discriminate.
  destruct q as [| q1 [| q2 [| q3 [| ? ?]]]]; try discriminate.
  destruct disp as [| d1 [| d2 [| d3 [| ? ?]]]]; try discriminate.
  unfold feature_row. destruct (Rlt_dec 0 (norm [d1; d2; d3])); simpl; eauto.
Qed.

End EdgeFeatures.

Lemma mapM_Forall {A B : Type} (f : A -> result B) (Q : B -> Prop) (xs : list A)
  (ys : list B) :
  mapM f xs = Ok ys -> (forall x y, In x xs -> f x = Ok y -> Q y) -> Forall Q ys.
Proof.
  intros H HQ. apply Forall_forall. intros y Hy.
  destruct (mapM_In _ _ _ H Hy) as (x & Hx & Hf). eauto.
Qed.

Lemma mapM_total_ex {A B : Type} (f : A -> result B) (xs : list A) :
  (forall x, In x xs -> exists y, f x = Ok y) -> exists ys, mapM f xs = Ok ys.
Proof.
  induction xs as [| x xs IH]; simpl; intro H; [eauto |].
  destruct (H x) as (y & Hy); [auto |]. rewrite Hy. simpl.
  destruct IH as (ys & Hys); [auto |]. rewrite Hys. simpl. eauto.
Qed.

Section EdgeFeatureRows.

Import Geometry.

Lemma coords_points (data : list (list R)) (ids : list nat) (x : list (list R)) :
  coords data ids = Ok x ->
  length x = length ids
  /\ forall pt, In pt x -> exists row, In row data /\ pt = firstn 3 row.
Proof.
  intro H. split; [eapply mapM_length; eauto |].
  intros pt Hpt. destruct (mapM_In _ _ _ H Hpt) as (v & _ & Hv).
  inv_bind Hv. inv_Ok Hv. exists x0. split; [eapply getitem_In; eauto | reflexivity].
Qed.

Lemma coords_total (data : list (list R)) (ids : list nat) :
  Forall (fun v => v < length data) ids -> exists x, coords data ids = Ok x.
Proof.
  intro H. apply mapM_total_ex. intros v Hv.
  rewrite Forall_forall in H. specialize (H _ Hv).
  destruct (nth_error data v) as [row |] eqn:E.
  - exists (firstn 3 row). apply getitem_Ok in E. now rewrite E.
  - apply nth_error_None in E. lia.
Qed.

Lemma argmin_from_bound (l : list R) (best_i : nat) (best : R) (i : nat) :
  best_i < i -> argmin_from best_i best i l < i + length l.
Proof.
  revert best_i best i. induction l as [| x l IH]; intros bi b i Hlt; simpl; [lia |].
  destruct (Rlt_dec x b).
  - specialize (IH i x (S i)). lia.
  - specialize (IH bi b (S i)). lia.
Qed.

Lemma length_cdist (x1 x2 : list (list R)) :
  length (concat (cdist_nb x1 x2)) = length x1 * length x2.
Proof.
  unfold cdist_nb. induction x1 as [| a x1 IH]; simpl; [reflexivity |].
  rewrite length_app, length_map, IH. reflexivity.
Qed.

Lemma np_argmin_bound (m : list (list R)) (imin : nat) :
  np_argmin m = Ok imin -> imin < length (concat m).
Proof.
  unfold np_argmin. destruct (concat m) as [| x t]; [discriminate |].
  intro H. inv_Ok H. simpl. pose proof (@argmin_from_bound t 0 x 1). lia.
Qed.

Lemma np_argmin_total (m : list (list R)) :
  concat m <> [] -> exists imin, np_argmin m = Ok imin.
Proof.
  unfold np_argmin. destruct (concat m); [congruence | eauto].
Qed.

Lemma getitem_total {A : Type} (l : list A) (i : nat) :
  i < length l -> exists a, getitem l i = Ok a.
Proof.
  intro H. unfold getitem. destruct (nth_error l i) eqn:E; [eauto |].
  apply nth_error_None in E. lia.
Qed.

Lemma firstn3_length (row : list R) : length (firstn 3 row) <= 3.
Proof. rewrite length_firstn. lia. Qed.

(** Over exact arithmetic, the loop of either extractor stores one row per
    edge whenever the edges name voxels (clusters of voxels, not empty) of
    a voxel set with three coordinates or more, and every row satisfies
    [feature_ok]. The rounding of the arrays' float32 or float64 entries
    is outside this statement: a rounded displacement need not have norm
    1, nor its block trace at most 1. *)
Lemma edge_feature_rows_exact (data : list (list R)) (clusts : list (list nat))
  (edge_index voxel_edges : list (nat * nat)) :
  Forall (fun row => 3 <= length row) data ->
  Forall (fun e => exists c1 c2,
              nth_error clusts (fst e) = Some c1 /\ nth_error clusts (snd e) = Some c2
              /\ valid_cluster data c1 /\ valid_cluster data c2) edge_index ->
  Forall (fun e => fst e < length data /\ snd e < length data) voxel_edges ->
  (exists feats, _get_cluster_edge_features data clusts edge_index = Ok feats
                 /\ length feats = length edge_index /\ Forall feature_ok feats)
  /\ (exists feats, voxel_edge_rows data voxel_edges = Ok feats
                    /\ length feats = length voxel_edges /\ Forall feature_ok feats).
Proof.
  intros Hrows Hclust Hvox.
  assert (Hc_ok : forall feats,
             _get_cluster_edge_features data clusts edge_index = Ok feats ->
             Forall feature_ok feats).
  { intros feats H. unfold _get_cluster_edge_features in H.
    cbn [bind Numba.concatenate_argument] in H.
    eapply mapM_Forall; [exact H |].
    intros e row _ He. cbv beta zeta in He.
    do 7 inv_bind He.
    destruct (coords_points _ _ E0) as [_ Hx1].
    destruct (coords_points _ _ E2) as [_ Hx2].
    destruct (Hx1 _ (getitem_In _ _ E4)) as (r1 & _ & ->).
    destruct (Hx2 _ (getitem_In _ _ E5)) as (r2 & _ & ->).
    eapply feature_row_ok; [| | | exact He]; auto using firstn3_length. }
  assert (Hv_ok : forall feats,
             voxel_edge_rows data voxel_edges = Ok feats ->
             Forall feature_ok feats).
  { intros feats H. eapply mapM_Forall; [exact H |].
    intros e row _ He. cbv beta zeta in He. do 2 inv_bind He.
    eapply feature_row_ok; [| | | exact He]; auto using firstn3_length. }
  assert (Hrow3 : forall row, In row data -> length (firstn 3 row) = 3).
  { intros row Hin. rewrite Forall_forall in Hrows. specialize (Hrows _ Hin).
    rewrite length_firstn. lia. }
  split.
  - destruct (@mapM_total_ex _ _
                (fun e =>
                   c1 <- getitem clusts (fst e) ;;
                   x1 <- coords data c1 ;;
                   c2 <- getitem clusts (snd e) ;;
                   x2 <- coords data c2 ;;
                   imin <- np_argmin (cdist_nb x1 x2) ;;
                   v1 <- getitem x1 (imin / length x2) ;;
                   v2 <- getitem x2 (imin mod length x2) ;;
                   feature_row v1 v2 (vsub v1 v2)) edge_index) as (feats & Hf).
    + intros e He. rewrite Forall_forall in Hclust.
      destruct (Hclust _ He) as (c1 & c2 & H1 & H2 & [Hne1 Hv1] & [Hne2 Hv2]).
      apply getitem_Ok in H1, H2. rewrite H1. cbn [bind].
      destruct (@coords_total data c1 Hv1) as (x1 & Hx1). rewrite Hx1. cbn [bind].
      rewrite H2. cbn [bind].
      destruct (@coords_total data c2 Hv2) as (x2 & Hx2). rewrite Hx2. cbn [bind].
      destruct (coords_points _ _ Hx1) as [Hl1 Hp1].
      destruct (coords_points _ _ Hx2) as [Hl2 Hp2].
      assert (Hn1 : 0 < length x1) by (rewrite Hl1; destruct c1; simpl; [congruence | lia]).
      assert (Hn2 : 0 < length x2) by (rewrite Hl2; destruct c2; simpl; [congruence | lia]).
      destruct (@np_argmin_total (cdist_nb x1 x2)) as (imin & Him).
      { intro E. apply (f_equal (@length R)) in E.
        rewrite length_cdist in E. simpl in E. nia. }
      rewrite Him. cbn [bind].
      apply np_argmin_bound in Him. rewrite length_cdist in Him.
      destruct (@getitem_total _ x1 (imin / length x2)) as (v1 & Hg1).
      { apply Nat.Div0.div_lt_upper_bound. lia. }
      destruct (@getitem_total _ x2 (imin mod length x2)) as (v2 & Hg2).
      { apply Nat.mod_upper_bound. lia. }
      rewrite Hg1, Hg2. cbn [bind].
      destruct (Hp1 _ (getitem_In _ _ Hg1)) as (r1 & Hr1 & ->).
      destruct (Hp2 _ (getitem_In _ _ Hg2)) as (r2 & Hr2 & ->).
      apply feature_row_total; auto.
      unfold vsub. rewrite length_map, length_combine, !Hrow3; auto.
    + exists feats. split; [exact Hf |].
      split; [eapply mapM_length; eauto | eapply Hc_ok; exact Hf].
  - destruct (@mapM_total_ex _ _
                (fun e =>
                   ri <- getitem data (fst e) ;;
                   rj <- getitem data (snd e) ;;
                   feature_row (firstn 3 ri) (firstn 3 rj)
                               (vsub (firstn 3 rj) (firstn 3 ri))) voxel_edges)
      as (feats & Hf).
    + intros e He. rewrite Forall_forall in Hvox. destruct (Hvox _ He) as [H1 H2].
      destruct (@getitem_total _ data (fst e) H1) as (ri & Hri).
      destruct (@getitem_total _ data (snd e) H2) as (rj & Hrj).
      rewrite Hri, Hrj. cbn [bind].
      assert (Hi : In ri data) by (eapply getitem_In; eauto).
      assert (Hj : In rj data) by (eapply getitem_In; eauto).
      apply feature_row_total; auto.
      unfold vsub. rewrite length_map, length_combine, !Hrow3; auto.
    + exists feats. split; [exact Hf |].
      split; [eapply mapM_length; eauto | eapply Hv_ok; exact Hf].
Qed.

Local Open Scope R_scope.

Lemma norm_3_4_0 : norm [3 - 0; 4 - 0; 0 - 0] = 5.
Proof.
  unfold norm. cbn [fold_right].
  replace ((3 - 0) * (3 - 0) + ((4 - 0) * (4 - 0) + ((0 - 0) * (0 - 0) + 0)))
    with (5 * 5) by ring.
  apply sqrt_square. lra.
Qed.

(** C5. [_get_voxel_edge_features] returns no row. It hands [np.concatenate]
    a list, for which the compiled function is not typed: every call
    raises [TypingError], whatever the voxels and the edges. The loop it
    holds, run as plain Python on the voxels (0,0,0), (3,4,0) and the edge
    (0,1), stores, in exact arithmetic, the row of the two points, the
    displacement (3/5, 4/5, 0), the distance 5 and the outer product. *)
Theorem voxel_edge_features_typing_error :
  (forall data edge_index,
      _get_voxel_edge_features data edge_index = Raise TypingError)
  /\ voxel_edge_rows [[0; 0; 0]; [3; 4; 0]] [(0, 1)%nat]
     = Ok [[0; 0; 0; 3; 4; 0; 3 / 5; 4 / 5; 0; 5;
            9 / 25; 12 / 25; 0; 12 / 25; 16 / 25; 0; 0; 0; 0]].
Proof.
  split; [reflexivity |].
  unfold voxel_edge_rows.
  cbn [mapM bind getitem nth_error fst snd firstn vsub combine map].
  unfold feature_row. rewrite norm_3_4_0.
  destruct (Rlt_dec 0 5) as [_ | Hn]; [| exfalso; lra].
  cbn [map outer concat app length Nat.eqb bind].
  apply f_equal.
  apply (f_equal2 (@cons (list R))); [| reflexivity].
  repeat (apply (f_equal2 (@cons R)); [first [reflexivity | field | ring] |]).
  reflexivity.
Qed.

End EdgeFeatureRows.

(** ** The distance matrix *)

Section DistanceMatrix.

Import Geometry.
Local Open Scope R_scope.

Lemma setitem_spec {A : Type} (l : list A) (i : nat) (v d : A) :
  (i < length l)%nat ->
  exists l', setitem l i v = Ok l'
             /\ length l' = length l
             /\ forall k, nth k l' d = if (k =? i)%nat then v else nth k l d.
Proof.
  revert i. induction l as [| h t IH]; intros i Hi; simpl in Hi; [lia |].
  destruct i as [| i]; simpl.
  - eexists. split; [reflexivity |]. split; [reflexivity |].
    intros [| k]; reflexivity.
  - destruct (IH i) as (t' & -> & Hlen & Hnth); [lia |]. simpl.
    eexists. split; [reflexivity |]. split; [simpl; congruence |].
    intros [| k]; [reflexivity | apply Hnth].
Qed.

Lemma square_row (n : nat) (D : list (list R)) (a : nat) :
  square n D -> (a < n)%nat -> length (nth a D []) = n.
Proof.
  intros [Hlen Hrows] Ha. rewrite Forall_forall in Hrows.
  apply Hrows, nth_In. lia.
Qed.

Lemma getitem_nth {A : Type} (l : list A) (i : nat) (d : A) :
  (i < length l)%nat -> getitem l i = Ok (nth i l d).
Proof. intro H. apply getitem_Ok. now apply nth_error_nth'. Qed.

Lemma getitem2_entry (n : nat) (D : list (list R)) (a b : nat) :
  square n D -> (a < n)%nat -> (b < n)%nat -> Np.getitem2 D a b = Ok (entry2 D a b).
Proof.
  intros HD Ha Hb. unfold Np.getitem2, entry2.
  rewrite (getitem_nth D []) by (destruct HD; lia). cbn [bind].
  apply getitem_nth. rewrite (square_row HD Ha). exact Hb.
Qed.

Lemma setitem2_spec (n : nat) (D : list (list R)) (i j : nat) (v : R) :
  square n D -> (i < n)%nat -> (j < n)%nat ->
  exists D', Np.setitem2 D i j v = Ok D'
             /\ square n D'
             /\ forall a b, entry2 D' a b
                            = if ((a =? i) && (b =? j))%nat then v else entry2 D a b.
Proof.
  intros HD Hi Hj. unfold Np.setitem2.
  rewrite (getitem_nth D []) by (destruct HD; lia). cbn [bind].
  destruct (@setitem_spec _ (nth i D []) j v 0) as (row' & -> & Hlen & Hrow).
  { rewrite (square_row HD Hi). exact Hj. }
  cbn [bind].
  destruct (@setitem_spec _ D i row' []) as (D' & -> & HlenD & HD').
  { destruct HD; lia. }
  exists D'. split; [reflexivity |]. split.
  - split; [destruct HD; lia |].
    apply Forall_forall. intros row Hin.
    destruct (In_nth _ _ [] Hin) as (a & Ha & <-). rewrite HD'.
    destruct (a =? i)%nat.
    + rewrite Hlen. now apply square_row.
    + apply square_row; [exact HD | destruct HD; lia].
  - intros a b. unfold entry2. rewrite HD'.
    destruct (Nat.eqb_spec a i) as [-> | _]; simpl; [| reflexivity].
    rewrite Hrow. reflexivity.
Qed.

End DistanceMatrix.

Section DistanceMatrixLoop.

Import Geometry.
Local Open Scope R_scope.

Variable voxels : list (list R).
Variable clusts : list (list nat).
Variable batch_ids : list Z.

Hypothesis clusters_valid :
  forall i, (i < length batch_ids)%nat ->
            exists c, nth_error clusts i = Some c /\ valid_cluster voxels c.

Lemma cluster_rows (i : nat) :
  (i < length batch_ids)%nat ->
  exists c, getitem clusts i = Ok c /\ nth i clusts [] = c /\ c <> []
            /\ mapM (getitem voxels) c = Ok (rows_of voxels c).
Proof.
  intro Hi. destruct (clusters_valid Hi) as (c & Hc & Hne & Hv).
  exists c. split; [now apply getitem_Ok |].
  split; [now apply nth_error_nth |]. split; [exact Hne |].
  apply mapM_total. intros v Hin. rewrite Forall_forall in Hv.
  apply getitem_nth. auto.
Qed.

Lemma np_min_nonempty (x1 x2 : list (list R)) :
  x1 <> [] -> x2 <> [] ->
  np_min (cdist_nb x1 x2) = Ok (min_list (concat (cdist_nb x1 x2))).
Proof.
  intros H1 H2. unfold np_min, min_list.
  destruct (concat (cdist_nb x1 x2)) eqn:E; [| reflexivity].
  apply (f_equal (@length R)) in E. rewrite length_cdist in E.
  destruct x1; [congruence |]. destruct x2; [congruence |]. simpl in E. lia.
Qed.

Lemma inter_cluster_cell_spec (D : list (list R)) (i j : nat) :
  square (length batch_ids) D ->
  (i < length batch_ids)%nat -> (j < length batch_ids)%nat ->
  exists D', inter_cluster_cell voxels clusts batch_ids i D j = Ok D'
             /\ square (length batch_ids) D'
             /\ forall a b, entry2 D' a b
                            = if ((a =? i) && (b =? j))%nat then new_entry voxels clusts batch_ids D i j
                              else entry2 D a b.
Proof.
  intros HD Hi Hj. unfold inter_cluster_cell, new_entry, same_batch.
  assert (Hstay : forall a b, entry2 D a b
                    = if ((a =? i) && (b =? j))%nat then entry2 D i j else entry2 D a b).
  { intros a b. destruct (Nat.eqb_spec a i) as [-> |]; simpl; [| reflexivity].
    destruct (Nat.eqb_spec b j) as [-> |]; reflexivity. }
  destruct (nth i batch_ids 0 =? nth j batch_ids 0)%Z; [| eauto].
  destruct (i <? j)%nat.
  - destruct (cluster_rows Hi) as (ci & Hgi & Hni & Hnei & Hmi).
    destruct (cluster_rows Hj) as (cj & Hgj & Hnj & Hnej & Hmj).
    rewrite Hgi. cbn [bind]. rewrite Hmi. cbn [bind].
    rewrite Hgj. cbn [bind]. rewrite Hmj. cbn [bind].
    rewrite np_min_nonempty
      by (unfold rows_of; intro E; apply map_eq_nil in E; auto).
    cbn [bind]. unfold closest. rewrite Hni, Hnj.
    now apply setitem2_spec.
  - destruct (j <? i)%nat; [| eauto].
    rewrite (getitem2_entry HD Hj Hi). cbn [bind]. now apply setitem2_spec.
Qed.

Lemma inter_cluster_row_from (i : nat) (n j0 : nat) (D : list (list R)) :
  (j0 + n = length batch_ids)%nat ->
  square (length batch_ids) D -> (i < length batch_ids)%nat ->
  exists D', for_ (seq j0 n) D (inter_cluster_cell voxels clusts batch_ids i) = Ok D'
             /\ square (length batch_ids) D'
             /\ forall a b, entry2 D' a b
                            = if ((a =? i) && (j0 <=? b) && (b <? length batch_ids))%nat
                              then new_entry voxels clusts batch_ids D i b else entry2 D a b.
Proof.
  revert j0 D. induction n as [| n IH]; intros j0 D Hn HD Hi; simpl.
  - exists D. split; [reflexivity |]. split; [exact HD |].
    intros a b. destruct (a =? i)%nat; simpl; [| reflexivity].
    destruct (Nat.leb_spec j0 b); simpl; [| reflexivity].
    destruct (Nat.ltb_spec b (length batch_ids)); [lia | reflexivity].
  - destruct (@inter_cluster_cell_spec D i j0) as (D1 & -> & HD1 & E1); auto; [lia |].
    cbn [bind].
    destruct (IH (S j0) D1) as (D' & -> & HD' & E'); auto; [lia |].
    exists D'. split; [reflexivity |]. split; [exact HD' |].
    intros a b. rewrite E'.
    assert (Hnew : forall b', b' <> j0 -> new_entry voxels clusts batch_ids D1 i b' = new_entry voxels clusts batch_ids D i b').
    { intros b' Hb'. unfold new_entry. rewrite !E1.
      destruct (Nat.eqb_spec b' i) as [-> |]; simpl.
      - rewrite Nat.ltb_irrefl.
        destruct (Nat.eqb_spec i j0); [congruence |]. simpl.
        rewrite andb_false_r. reflexivity.
      - destruct (Nat.eqb_spec b' j0); [congruence |]. rewrite andb_false_r.
        reflexivity. }
    rewrite E1.
    destruct (Nat.eqb_spec a i) as [-> |]; cbn [andb]; [| reflexivity].
    destruct (Nat.leb_spec (S j0) b), (Nat.leb_spec j0 b); try lia; cbn [andb].
    + destruct (Nat.ltb_spec b (length batch_ids)); cbn [andb].
      * apply Hnew. lia.
      * destruct (Nat.eqb_spec b j0); [lia | reflexivity].
    + assert (b = j0) as -> by lia. rewrite Nat.eqb_refl.
      destruct (Nat.ltb_spec j0 (length batch_ids)); [reflexivity | lia].
    + destruct (Nat.eqb_spec b j0); [lia | reflexivity].
Qed.

(** One iteration of the loop over [i] rewrites row [i], reading column
    [i] of the rows above it. *)
Lemma inter_cluster_row_spec (D : list (list R)) (i : nat) :
  square (length batch_ids) D -> (i < length batch_ids)%nat ->
  exists D', inter_cluster_row voxels clusts batch_ids D i = Ok D'
             /\ square (length batch_ids) D'
             /\ forall a b, (b < length batch_ids)%nat ->
                            entry2 D' a b
                            = if (a =? i)%nat then new_entry voxels clusts batch_ids D i b else entry2 D a b.
Proof.
  intros HD Hi. unfold inter_cluster_row, range.
  destruct (@inter_cluster_row_from i (length batch_ids) 0 D) as (D' & -> & HD' & E);
    auto.
  exists D'. split; [reflexivity |]. split; [exact HD' |].
  intros a b Hb. rewrite E. simpl.
  destruct (Nat.ltb_spec b (length batch_ids)); [| lia].
  now rewrite !andb_true_r.
Qed.

End DistanceMatrixLoop.

Section DistanceMatrixSpec.

Import Geometry.
Local Open Scope R_scope.

Variable voxels : list (list R).
Variable clusts : list (list nat).
Variable batch_ids : list Z.

Lemma fold_left_Rmin_spec (t : list R) (x : R) :
  In (fold_left Rmin t x) (x :: t) /\ forall y, In y (x :: t) -> fold_left Rmin t x <= y.
Proof.
  revert x. induction t as [| z t IH]; intro x; simpl.
  - split; [auto |]. intros y [-> | []]. lra.
  - destruct (IH (Rmin x z)) as [Hin Hle]. split.
    + destruct Hin as [E | Hin]; [| auto].
      rewrite <- E. unfold Rmin. destruct (Rle_dec x z); auto.
    + intros y Hy.
      assert (Hm : fold_left Rmin t (Rmin x z) <= Rmin x z) by (apply Hle; simpl; auto).
      destruct Hy as [<- | [<- | Hy]].
      * pose proof (Rmin_l x z). lra.
      * pose proof (Rmin_r x z). lra.
      * apply Hle. simpl. auto.
Qed.

Lemma in_concat_cdist (x1 x2 : list (list R)) (d : R) :
  In d (concat (cdist_nb x1 x2)) <->
  exists p q, In p x1 /\ In q x2 /\ d = norm (vsub p q).
Proof.
  unfold cdist_nb. rewrite in_concat. split.
  - intros (row & Hrow & Hd). apply in_map_iff in Hrow.
    destruct Hrow as (p & <- & Hp). apply in_map_iff in Hd.
    destruct Hd as (q & <- & Hq). eauto.
  - intros (p & q & Hp & Hq & ->).
    exists (map (fun b => norm (vsub p b)) x2). split.
    + apply in_map_iff. eauto.
    + apply in_map_iff. eauto.
Qed.

Lemma sum_squares_vsub_sym (p q : list R) :
  fold_right (fun x acc => x * x + acc) 0 (vsub p q)
  = fold_right (fun x acc => x * x + acc) 0 (vsub q p).
Proof.
  unfold vsub. revert q. induction p as [| a p IH]; intros [| b q]; simpl; try reflexivity.
  rewrite IH. ring.
Qed.

Lemma norm_vsub_sym (p q : list R) : norm (vsub p q) = norm (vsub q p).
Proof. unfold norm. now rewrite sum_squares_vsub_sym. Qed.

Lemma min_distance_between_sym (ci cj : list nat) (d : R) :
  min_distance_between voxels ci cj d -> min_distance_between voxels cj ci d.
Proof.
  intros [(v & w & Hv & Hw & Hd) Hle]. split.
  - exists w, v. repeat split; auto. rewrite Hd. unfold pair_distance.
    apply norm_vsub_sym.
  - intros w' v' Hw' Hv'. specialize (Hle v' w' Hv' Hw').
    unfold pair_distance in *.
    now rewrite (norm_vsub_sym (nth w' voxels []) (nth v' voxels [])).
Qed.

Lemma closest_is_min (i j : nat) :
  nth i clusts [] <> [] -> nth j clusts [] <> [] ->
  min_distance_between voxels (nth i clusts []) (nth j clusts [])
                       (closest voxels clusts i j).
Proof.
  intros Hi Hj. unfold closest, min_list.
  set (ci := nth i clusts []) in *. set (cj := nth j clusts []) in *.
  destruct (concat (cdist_nb (rows_of voxels ci) (rows_of voxels cj))) as [| x t] eqn:E.
  - apply (f_equal (@length R)) in E. rewrite length_cdist in E.
    unfold rows_of in E. rewrite !length_map in E.
    destruct ci; [congruence |]. destruct cj; [congruence |]. simpl in E. lia.
  - destruct (fold_left_Rmin_spec t x) as [Hin Hle]. rewrite <- E in Hin, Hle.
    split.
    + apply in_concat_cdist in Hin. destruct Hin as (p & q & Hp & Hq & Hd).
      unfold rows_of in Hp, Hq. apply in_map_iff in Hp, Hq.
      destruct Hp as (v & <- & Hv). destruct Hq as (w & <- & Hw).
      exists v, w. auto.
    + intros v w Hv Hw. apply Hle. apply in_concat_cdist.
      exists (nth v voxels []), (nth w voxels []).
      unfold rows_of. repeat split; try reflexivity; apply in_map_iff; eauto.
Qed.

Lemma same_batch_sym (i j : nat) : same_batch batch_ids i j = same_batch batch_ids j i.
Proof. unfold same_batch. apply Z.eqb_sym. Qed.

Lemma expected_sym (i j : nat) :
  expected voxels clusts batch_ids i j = expected voxels clusts batch_ids j i.
Proof.
  unfold expected. rewrite (same_batch_sym i j).
  destruct (same_batch batch_ids j i); [| reflexivity].
  destruct (Nat.ltb_spec i j), (Nat.ltb_spec j i); try reflexivity; lia.
Qed.

Lemma entry2_zeros (n a b : nat) : entry2 (repeat (repeat 0 n) n) a b = 0.
Proof.
  unfold entry2. destruct (Nat.lt_ge_cases a n) as [Ha | Ha].
  - rewrite (nth_indep _ [] (repeat 0 n)) by (now rewrite repeat_length).
    rewrite nth_repeat. destruct (Nat.lt_ge_cases b n) as [Hb | Hb].
    + apply nth_repeat_lt. exact Hb.
    + apply nth_overflow. now rewrite repeat_length.
  - rewrite (nth_overflow _ []) by (now rewrite repeat_length). now destruct b.
Qed.

Lemma square_zeros (n : nat) : square n (repeat (repeat 0 n) n).
Proof.
  split; [apply repeat_length |].
  apply Forall_forall. intros row Hin. apply repeat_spec in Hin. subst.
  apply repeat_length.
Qed.

Hypothesis clusters_valid :
  forall i, (i < length batch_ids)%nat ->
            exists c, nth_error clusts i = Some c /\ valid_cluster voxels c.

(** The loop over [i] in index order: the rows done hold the expected
    entries, the rows to come are still zero. *)
Lemma in_order_from (n k : nat) (D : list (list R)) :
  (k + n = length batch_ids)%nat ->
  square (length batch_ids) D ->
  (forall a b, (a < length batch_ids)%nat -> (b < length batch_ids)%nat ->
               entry2 D a b = if (a <? k)%nat then expected voxels clusts batch_ids a b
                              else 0) ->
  exists D', for_ (seq k n) D (inter_cluster_row voxels clusts batch_ids) = Ok D'
             /\ square (length batch_ids) D'
             /\ forall a b, (a < length batch_ids)%nat -> (b < length batch_ids)%nat ->
                            entry2 D' a b = expected voxels clusts batch_ids a b.
Proof.
  revert k D. induction n as [| n IH]; intros k D Hn HD Hinv; simpl.
  - exists D. split; [reflexivity |]. split; [exact HD |].
    intros a b Ha Hb. rewrite Hinv by assumption.
    destruct (Nat.ltb_spec a k); [reflexivity | lia].
  - destruct (@inter_cluster_row_spec voxels clusts batch_ids clusters_valid D k)
      as (D1 & -> & HD1 & E1); auto; [lia |].
    cbn [bind]. apply IH; [lia | exact HD1 |].
    intros a b Ha Hb. rewrite E1 by assumption.
    destruct (Nat.eqb_spec a k) as [-> | Hne].
    + destruct (Nat.ltb_spec k (S k)); [| lia].
      unfold new_entry, expected. destruct (same_batch batch_ids k b) eqn:Hsb.
      * destruct (Nat.ltb_spec k b); [reflexivity |].
        destruct (Nat.ltb_spec b k) as [Hbk | Hbk].
        -- rewrite Hinv by lia. destruct (Nat.ltb_spec b k); [| lia].
           unfold expected. rewrite same_batch_sym, Hsb.
           destruct (Nat.ltb_spec b k); [reflexivity | lia].
        -- rewrite Hinv by lia. destruct (Nat.ltb_spec k k); [lia | reflexivity].
      * rewrite Hinv by lia. destruct (Nat.ltb_spec k k); [lia | reflexivity].
    + rewrite Hinv by assumption.
      destruct (Nat.ltb_spec a k), (Nat.ltb_spec a (S k)); try reflexivity; lia.
Qed.

(** Run in index order, [_inter_cluster_distance] returns the matrix of
    the specification: square, symmetric, zero on the diagonal and across
    batches, and elsewhere the least distance between a voxel of one
    cluster and a voxel of the other. *)
Lemma inter_cluster_distance_sequential :
  exists D, _inter_cluster_distance voxels clusts batch_ids = Ok D
            /\ square (length batch_ids) D
            /\ forall i j, (i < length batch_ids)%nat -> (j < length batch_ids)%nat ->
                 entry2 D i j = entry2 D j i
                 /\ (i = j -> entry2 D i j = 0)
                 /\ (nth i batch_ids 0%Z <> nth j batch_ids 0%Z -> entry2 D i j = 0)
                 /\ (i <> j -> nth i batch_ids 0%Z = nth j batch_ids 0%Z ->
                     min_distance_between voxels (nth i clusts []) (nth j clusts [])
                                          (entry2 D i j)).
Proof.
  unfold _inter_cluster_distance, inter_cluster_distance_in_order, range.
  destruct (@in_order_from (length batch_ids) 0 (repeat (repeat 0 (length batch_ids))
                                                        (length batch_ids)))
    as (D & HD & Hsq & E); [reflexivity | apply square_zeros | |].
  { intros a b _ _. rewrite entry2_zeros. reflexivity. }
  exists D. split; [exact HD |]. split; [exact Hsq |].
  intros i j Hi Hj. rewrite !E by assumption. split; [| split; [| split]].
  - apply expected_sym.
  - intros ->. unfold expected. rewrite Nat.ltb_irrefl.
    now destruct (same_batch batch_ids j j).
  - intro Hne. unfold expected, same_batch.
    destruct (Z.eqb_spec (nth i batch_ids 0%Z) (nth j batch_ids 0%Z)); [contradiction |].
    reflexivity.
  - intros Hne Heq. unfold expected, same_batch. rewrite Heq, Z.eqb_refl.
    assert (Hnonempty : forall a, (a < length batch_ids)%nat -> nth a clusts [] <> []).
    { intros a Ha. destruct (clusters_valid Ha) as (c & Hc & Hcne & _).
      now rewrite (nth_error_nth _ _ _ Hc). }
    destruct (Nat.ltb_spec i j).
    + apply closest_is_min; auto.
    + destruct (Nat.ltb_spec j i); [| lia].
      apply min_distance_between_sym, closest_is_min; auto.
Qed.

Lemma any_order_from (order done : list nat) (D : list (list R)) :
  (forall i, In i order -> (i < length batch_ids)%nat /\ ~ In i done) ->
  NoDup order ->
  filled voxels clusts batch_ids done D ->
  exists D', for_ order D (inter_cluster_row voxels clusts batch_ids) = Ok D'
             /\ filled voxels clusts batch_ids (rev order ++ done) D'.
Proof.
  revert done D. induction order as [| i order IH]; intros done D Hin Hnd HD.
  - exists D. split; [reflexivity | exact HD].
  - destruct HD as [Hsq HD]. destruct (Hin i (or_introl eq_refl)) as [Hi Hnew].
    inversion Hnd as [| ? ? Hi_order Hnd']; subst.
    cbn [for_].
    destruct (@inter_cluster_row_spec voxels clusts batch_ids clusters_valid D i)
      as (D1 & -> & HD1 & E1); auto.
    cbn [bind].
    destruct (IH (i :: done) D1) as (D' & HD' & Hfilled).
    + intros k Hk. split; [apply Hin; now right |].
      intros [-> | Hk']; [contradiction |].
      destruct (Hin k (or_intror Hk)) as [_ Hk'']. contradiction.
    + exact Hnd'.
    + split; [exact HD1 |]. intros a b Ha Hb. rewrite E1 by assumption.
      destruct (Nat.eqb_spec a i) as [-> | Hne].
      * split; [intro Hc; exfalso; apply Hc; now left |]. intros _.
        unfold new_entry. destruct (same_batch batch_ids i b) eqn:Hsb.
        -- destruct (Nat.ltb_spec i b); [reflexivity |].
           destruct (Nat.ltb_spec b i) as [Hbi | Hbi].
           ++ destruct (HD b i Hb Hi) as [Hzero Hdone].
              destruct (in_dec Nat.eq_dec b done) as [Hbd | Hbd].
              ** specialize (Hdone Hbd). rewrite same_batch_sym, Hsb in Hdone.
                 destruct (Nat.ltb_spec b i); [now right | lia].
              ** left. now apply Hzero.
           ++ now apply (HD i b Hi Hb).
        -- now apply (HD i b Hi Hb).
      * destruct (HD a b Ha Hb) as [Hzero Hdone]. split.
        -- intro Hc. apply Hzero. intro Hc'. apply Hc. now right.
        -- intros [Hc | Hc]; [congruence | now apply Hdone].
    + exists D'. split; [exact HD' |].
      destruct Hfilled as [Hsq' Hf]. split; [exact Hsq' |].
      intros a b Ha Hb. destruct (Hf a b Ha Hb) as [Hzero Hdone].
      assert (Hiff : In a (rev (i :: order) ++ done) <-> In a (rev order ++ i :: done)).
      { simpl. rewrite !in_app_iff. simpl. tauto. }
      split; [intro Hc; apply Hzero | intro Hc; apply Hdone]; rewrite <- Hiff; exact Hc.
Qed.

(** Whatever the order in which the iterations of the loop over [i] run,
    each once, the call returns a square matrix that is zero on the
    diagonal and across batches and holds the least distance at every
    entry above the diagonal; an entry below the diagonal holds that
    distance, or zero when its row was filled before the row it copies
    from. *)
Lemma inter_cluster_distance_any_order (order : list nat) :
  Permutation order (seq 0 (length batch_ids)) ->
  exists D, inter_cluster_distance_in_order order voxels clusts batch_ids = Ok D
            /\ square (length batch_ids) D
            /\ forall i j, (i < length batch_ids)%nat -> (j < length batch_ids)%nat ->
                 (i = j -> entry2 D i j = 0)
                 /\ (nth i batch_ids 0%Z <> nth j batch_ids 0%Z -> entry2 D i j = 0)
                 /\ ((i < j)%nat -> nth i batch_ids 0%Z = nth j batch_ids 0%Z ->
                     min_distance_between voxels (nth i clusts []) (nth j clusts [])
                                          (entry2 D i j))
                 /\ ((j < i)%nat -> nth i batch_ids 0%Z = nth j batch_ids 0%Z ->
                     entry2 D i j = 0
                     \/ min_distance_between voxels (nth i clusts []) (nth j clusts [])
                                             (entry2 D i j)).
Proof.
  intro Hperm. unfold inter_cluster_distance_in_order.
  destruct (@any_order_from order [] (repeat (repeat 0 (length batch_ids))
                                             (length batch_ids)))
    as (D & HD & Hsq & Hf).
  - intros i Hi. split; [| auto].
    apply (Permutation_in _ Hperm), in_seq in Hi. lia.
  - apply (Permutation_NoDup (Permutation_sym Hperm)), seq_NoDup.
  - split; [apply square_zeros |]. intros a b _ _.
    split; [intros _; apply entry2_zeros | intros []].
  - exists D. split; [exact HD |]. split; [exact Hsq |].
    intros i j Hi Hj. destruct (Hf i j Hi Hj) as [_ Hdone].
    assert (Hin : In i (rev order ++ [])).
    { rewrite app_nil_r, <- in_rev. apply (Permutation_in _ (Permutation_sym Hperm)).
      apply in_seq. lia. }
    specialize (Hdone Hin). unfold same_batch in Hdone.
    assert (Hnonempty : forall a, (a < length batch_ids)%nat -> nth a clusts [] <> []).
    { intros a Ha. destruct (clusters_valid Ha) as (c & Hc & Hcne & _).
      now rewrite (nth_error_nth _ _ _ Hc). }
    split; [| split; [| split]].
    + intros ->. rewrite Nat.ltb_irrefl in Hdone.
      now destruct (nth j batch_ids 0 =? nth j batch_ids 0)%Z.
    + intro Hne.
      destruct (Z.eqb_spec (nth i batch_ids 0%Z) (nth j batch_ids 0%Z));
        [contradiction | exact Hdone].
    + intros Hlt Heq. rewrite Heq, Z.eqb_refl in Hdone.
      destruct (Nat.ltb_spec i j); [| lia].
      rewrite Hdone. apply closest_is_min; auto.
    + intros Hlt Heq. rewrite Heq, Z.eqb_refl in Hdone.
      destruct (Nat.ltb_spec i j); [lia |].
      destruct (Nat.ltb_spec j i); [| lia].
      destruct Hdone as [Hz | Hc]; [now left | right].
      rewrite Hc. apply min_distance_between_sym, closest_is_min; auto.
Qed.

End DistanceMatrixSpec.

(** ** The order of the iterations matters *)

(** C2. Two single-voxel clusters of one batch, one unit apart. When the
    iteration [i = 1] of the [prange] loop runs before the iteration
    [i = 0], it copies the entry [(0,1)] before it is computed: the
    matrix returned has 1 at [(0,1)] and 0 at [(1,0)]; it is not
    symmetric, and [(1,0)] is not the distance between the clusters. Run
    in index order, the same input gives 1 at both. *)
Theorem inter_cluster_distance_order_dependent :
  let voxels := [[0; 0; 0]; [1; 0; 0]]%R in
  let clusts := [[0]; [1]] in
  let batch_ids := [0; 0]%Z in
  (exists D, Geometry.inter_cluster_distance_in_order [1; 0] voxels clusts batch_ids = Ok D
             /\ entry2 D 0 1 = 1%R /\ entry2 D 1 0 = 0%R)
  /\ (exists D, Geometry._inter_cluster_distance voxels clusts batch_ids = Ok D
                /\ entry2 D 0 1 = 1%R /\ entry2 D 1 0 = 1%R).
Proof.
  intros voxels clusts batch_ids.
  assert (Hvalid : forall i, i < length batch_ids ->
             exists c, nth_error clusts i = Some c /\ valid_cluster voxels c).
  { intros i Hi. destruct i as [| [| i]]; simpl in Hi; [| | lia].
    - exists [0]. repeat split; try discriminate. repeat constructor.
    - exists [1]. repeat split; try discriminate. repeat constructor. }
  assert (Hclosest : closest voxels clusts 0 1 = 1%R).
  { unfold closest, min_list, rows_of, Geometry.cdist_nb. simpl.
    unfold Geometry.vsub. cbn [combine map fst snd]. rewrite norm3. replace ((0 - 1) * (0 - 1) + (0 - 0) * (0 - 0) + (0 - 0) * (0 - 0))%R
      with 1%R by ring. apply sqrt_1. }
  split.
  - unfold Geometry.inter_cluster_distance_in_order. cbv zeta.
    change (length batch_ids) with 2. cbn [for_].
    destruct (@inter_cluster_row_spec voxels clusts batch_ids Hvalid
                (repeat (repeat 0%R 2) 2) 1) as (D1 & -> & HD1 & E1);
      [apply square_zeros | simpl; lia |].
    cbn [bind].
    destruct (@inter_cluster_row_spec voxels clusts batch_ids Hvalid D1 0)
      as (D2 & -> & HD2 & E2); [exact HD1 | simpl; lia |].
    cbn [bind]. exists D2. split; [reflexivity |].
    rewrite !E2, !E1 by (simpl; lia). cbn [Nat.eqb].
    unfold new_entry, same_batch. cbn [nth batch_ids Z.eqb Nat.ltb Nat.leb].
    rewrite Hclosest.
    split; [reflexivity | apply entry2_zeros].
  - destruct (@inter_cluster_distance_sequential voxels clusts batch_ids Hvalid)
      as (D & HD & Hsq & E).
    exists D. split; [exact HD |].
    destruct (E 0 1) as (Hsym & _ & _ & Hmin); [simpl; lia | simpl; lia |].
    destruct Hmin as [(v & w & Hv & Hw & Hd) _]; [discriminate | reflexivity |].
    simpl in Hv, Hw. destruct Hv as [<- | []]. destruct Hw as [<- | []].
    assert (H01 : entry2 D 0 1 = 1%R).
    { rewrite Hd. unfold pair_distance. simpl.
      unfold Geometry.vsub. cbn [combine map fst snd]. rewrite norm3.
      replace ((0 - 1) * (0 - 1) + (0 - 0) * (0 - 0) + (0 - 0) * (0 - 0))%R
        with 1%R by ring. apply sqrt_1. }
    split; [exact H01 | now rewrite <- Hsym].
Qed.

(** * Further properties of the code *)

(** ** The fragment-edge mapper: what it keeps and where the indices point *)

Lemma where_nil_iff {A : Type} (p : A -> bool) (l : list A) :
  Np.where_ p l = [] <-> existsb p l = false.
Proof.
  split.
  - intro H. destruct (existsb p l) eqn:E; [| reflexivity].
    apply existsb_exists in E. destruct E as (x & Hx & Hp).
    destruct (In_nth_error _ _ Hx) as (i & Hi).
    assert (Hin : In i (Np.where_ p l)) by (apply in_where; eauto).
    rewrite H in Hin. contradiction.
  - intro H. destruct (Np.where_ p l) as [| i rest] eqn:E; [reflexivity |].
    assert (Hin : In i (Np.where_ p l)) by (rewrite E; now left).
    apply in_where in Hin. destruct Hin as (x & Hx & Hp).
    assert (Hex : existsb p l = true)
      by (apply existsb_exists; exists x; split; [eapply nth_error_In; eauto | exact Hp]).
    congruence.
Qed.

Lemma local_index_some (ids : list Z) (c a : Z) :
  local_index ids c = Some a ->
  (0 <= a < Z.of_nat (length ids))%Z /\ nth (Z.to_nat a) ids 0%Z = c
  /\ existsb (fun x => (x =? c)%Z) ids = true.
Proof.
  unfold local_index. destruct (Np.where_ (fun x => (x =? c)%Z) ids) as [| i rest] eqn:E;
    [discriminate |].
  intro H. injection H as <-.
  assert (Hin : In i (Np.where_ (fun x => (x =? c)%Z) ids)) by (rewrite E; now left).
  apply in_where in Hin. destruct Hin as (x & Hx & Hp). apply Z.eqb_eq in Hp. subst x.
  assert (Hlt : i < length ids) by (apply nth_error_Some; congruence).
  rewrite Nat2Z.id. repeat split; try lia.
  - now apply nth_error_nth.
  - apply existsb_exists. exists c. split; [eapply nth_error_In; eauto | apply Z.eqb_refl].
Qed.

Lemma local_index_none (ids : list Z) (c : Z) :
  local_index ids c = None -> existsb (fun x => (x =? c)%Z) ids = false.
Proof.
  unfold local_index. destruct (Np.where_ (fun x => (x =? c)%Z) ids) eqn:E;
    [intros _; now apply where_nil_iff | discriminate].
Qed.

(** Looking the local indices of the mapped edges up in the list of ids
    gives back, in order, the edges of the graph with both ends in the
    list: an edge with an absent end is dropped, every other edge is kept
    once, and every index returned is a position of the list. *)
Theorem get_fragment_edges_round_trip (graph : list (Z * Z)) (clust_ids : list Z) :
  map (fun e => (nth (Z.to_nat (fst e)) clust_ids 0%Z, nth (Z.to_nat (snd e)) clust_ids 0%Z))
      (_get_fragment_edges graph clust_ids)
  = filter (fun e => existsb (fun c => (c =? fst e)%Z) clust_ids
                     && existsb (fun c => (c =? snd e)%Z) clust_ids) graph
  /\ Forall (fun e => (0 <= fst e < Z.of_nat (length clust_ids))%Z
                      /\ (0 <= snd e < Z.of_nat (length clust_ids))%Z)
            (_get_fragment_edges graph clust_ids).
Proof.
  rewrite get_fragment_edges_spec.
  induction graph as [| [u v] graph [IHmap IHall]]; simpl; [split; [reflexivity | constructor] |].
  unfold map_edge. simpl.
  destruct (local_index clust_ids u) as [a |] eqn:Eu.
  - destruct (local_index_some _ _ Eu) as (Ha & Hna & Hea). rewrite Hea.
    destruct (local_index clust_ids v) as [b |] eqn:Ev.
    + destruct (local_index_some _ _ Ev) as (Hb & Hnb & Heb). rewrite Heb. simpl.
      split; [rewrite Hna, Hnb; f_equal; exact IHmap
             | constructor; [simpl; lia | exact IHall]].
    + rewrite (local_index_none _ _ Ev). simpl. split; assumption.
  - rewrite (local_index_none _ _ Eu). simpl. split; assumption.
Qed.

Lemma filter_map_app {A B : Type} (h : A -> option B) (l1 l2 : list A) :
  filter_map h (l1 ++ l2) = filter_map h l1 ++ filter_map h l2.
Proof.
  induction l1 as [| x l1 IH]; simpl; [reflexivity |].
  destruct (h x); simpl; now rewrite IH.
Qed.

(** Mapping two edge lists one after the other is mapping their
    concatenation; the mapped list is never longer than the graph, and is
    empty when there are no ids to map to. *)
Theorem get_fragment_edges_concat (g1 g2 : list (Z * Z)) (clust_ids : list Z) :
  _get_fragment_edges (g1 ++ g2) clust_ids
  = _get_fragment_edges g1 clust_ids ++ _get_fragment_edges g2 clust_ids
  /\ length (_get_fragment_edges g1 clust_ids) <= length g1
  /\ _get_fragment_edges g1 [] = [].
Proof.
  rewrite !get_fragment_edges_spec. split; [apply filter_map_app |].
  split; [apply filter_map_length |].
  induction g1 as [| e g1 IH]; simpl; [reflexivity | exact IH].
Qed.

(** ** complete_graph with a threshold *)

Lemma select_In {A D : Type} (get : A -> result D) (f : D -> bool)
  (ret : list A) (dists : list D) (e : A) :
  Forall2 (fun e d => get e = Ok d) ret dists ->
  In e (Np.select ret (map f dists)) <->
  In e ret /\ exists d, get e = Ok d /\ f d = true.
Proof.
  unfold Np.select. induction 1 as [| e0 d0 ret dists H0 _ IH]; simpl.
  - split; [tauto | intros [[] _]].
  - destruct (f d0) eqn:Hf; simpl; rewrite IH; split.
    + intros [-> | [Hin Hd]]; [eauto | tauto].
    + intros [[-> | Hin] Hd]; [now left | right; tauto].
    + intros [Hin Hd]. tauto.
    + intros [[-> | Hin] (d & Hd & Hfd)]; [congruence | eauto].
Qed.

Section CompleteGraphThreshold.

Context {F : Type} {DT : Dtype F} {RT : Runtime F}.

(** With a threshold and a distance matrix that covers the clusters,
    [complete_graph] returns the ordered pairs of distinct clusters of one
    batch whose entry above the diagonal is strictly below the threshold:
    only the entry [(min i j, max i j)] is read, for both directions. *)
Theorem complete_graph_with_threshold (batch_ids : list Z) (dm : list (list F))
  (max_dist : F) :
  ltb minus_one max_dist = true ->
  (forall i j, i < j -> j < length batch_ids -> exists d, Np.getitem2 dm i j = Ok d) ->
  exists m,
    complete_graph batch_ids (Some dm) max_dist = Ok m
    /\ forall i j, In (i, j) (Np.edges m) <->
                   i < length batch_ids /\ j < length batch_ids /\ i <> j
                   /\ nth i batch_ids 0%Z = nth j batch_ids 0%Z
                   /\ exists d, Np.getitem2 dm (Nat.min i j) (Nat.max i j) = Ok d
                                /\ ltb d max_dist = true.
Proof.
  intros Hgt Hdm. rewrite complete_graph_pairs. unfold prune. rewrite Hgt.
  destruct (@mapM_total_ex _ _ (fun e : nat * nat => Np.getitem2 dm (fst e) (snd e))
              (pairs batch_ids)) as (dists & Hd).
  { intros [i j] Hin. apply in_pairs in Hin. simpl. apply Hdm; lia. }
  assert (Hsel : forall i j,
             In (i, j) (Np.select (pairs batch_ids) (map (fun d => ltb d max_dist) dists))
             <-> i < j /\ j < length batch_ids /\ nth i batch_ids 0%Z = nth j batch_ids 0%Z
                 /\ exists d, Np.getitem2 dm i j = Ok d /\ ltb d max_dist = true).
  { intros i j.
    rewrite (select_In (fun e : nat * nat => Np.getitem2 dm (fst e) (snd e))
               (fun d => ltb d max_dist) (i, j) (mapM_Ok _ _ Hd)).
    rewrite in_pairs. simpl. tauto. }
  assert (Hchar : forall i j,
             In (i, j) (add_reciprocal
                          (Np.select (pairs batch_ids) (map (fun d => ltb d max_dist) dists)))
             <-> i < length batch_ids /\ j < length batch_ids /\ i <> j
                 /\ nth i batch_ids 0%Z = nth j batch_ids 0%Z
                 /\ exists d, Np.getitem2 dm (Nat.min i j) (Nat.max i j) = Ok d
                              /\ ltb d max_dist = true).
  { intros i j. rewrite in_add_reciprocal, !Hsel. split.
    - intros [(Hlt & Hj & Heq & Hd') | (Hlt & Hi & Heq & Hd')].
      + rewrite Nat.min_l, Nat.max_r by lia. repeat split; auto; lia.
      + rewrite Nat.min_r, Nat.max_l by lia. repeat split; auto; lia.
    - intros (Hi & Hj & Hne & Heq & Hd').
      destruct (Nat.lt_ge_cases i j).
      + left. rewrite Nat.min_l, Nat.max_r in Hd' by lia. auto.
      + right. rewrite Nat.min_r, Nat.max_l in Hd' by lia.
        repeat split; auto; lia. }
  destruct (pairs batch_ids) as [| p ps] eqn:Hp.
  - exists ([], []). split; [reflexivity |]. intros i j. rewrite <- Hchar.
    simpl in Hd. inv_Ok Hd. simpl. tauto.
  - rewrite Hd. cbn [bind]. eexists. split; [reflexivity |].
    intros i j. rewrite edges_T. apply Hchar.
Qed.

(** With a threshold and no distance matrix, [complete_graph] fails its
    assertion exactly when two clusters share a batch; when none do, the
    early exit returns the empty matrix before the assertion is reached. *)
Theorem complete_graph_threshold_without_matrix (batch_ids : list Z) (max_dist : F) :
  ltb minus_one max_dist = true ->
  ((exists i j, i < j /\ j < length batch_ids
                /\ nth i batch_ids 0%Z = nth j batch_ids 0%Z) ->
   complete_graph batch_ids None max_dist = Raise AssertionError)
  /\ ((forall i j, i < j -> j < length batch_ids ->
                   nth i batch_ids 0%Z <> nth j batch_ids 0%Z) ->
      complete_graph batch_ids None max_dist = Ok ([], [])).
Proof.
  intro Hgt. rewrite complete_graph_pairs. unfold prune. rewrite Hgt. split.
  - intros (i & j & Hij). apply in_pairs in Hij.
    destruct (pairs batch_ids); [contradiction | reflexivity].
  - intro Hnone. destruct (pairs batch_ids) as [| [i j] ps] eqn:Hp; [reflexivity |].
    assert (Hin : In (i, j) (pairs batch_ids)) by (rewrite Hp; now left).
    apply in_pairs in Hin. destruct Hin as (Hij & Hj & Heq).
    exfalso. exact (Hnone i j Hij Hj Heq).
Qed.

End CompleteGraphThreshold.

Lemma complete_graph_with_threshold_witness :
  exists m, complete_graph (RT := Concrete.runtime) [0; 0; 0]%Z
              (Some [[0; 1; 5]; [1; 0; 2]; [5; 2; 0]]%float) 3%float = Ok m
            /\ (In (0, 2) (Np.edges m) <-> False).
Proof.
  destruct (@complete_graph_with_threshold float float64 Concrete.runtime [0; 0; 0]%Z
              [[0; 1; 5]; [1; 0; 2]; [5; 2; 0]]%float 3%float eq_refl) as (m & Hm & Hchar).
  - intros i j Hij Hj. simpl in Hj.
    destruct i as [| [| [| i]]]; destruct j as [| [| [| j]]]; try lia; eexists; reflexivity.
  - exists m. split; [exact Hm |]. rewrite Hchar. simpl. split; [| tauto].
    intros (_ & _ & _ & _ & d & Hd & Hlt). vm_compute in Hd. inv_Ok Hd.
    vm_compute in Hlt. discriminate.
Defined.

Lemma complete_graph_threshold_without_matrix_witness :
  complete_graph (RT := Concrete.runtime) [0; 0]%Z None 1%float = Raise AssertionError
  /\ complete_graph (RT := Concrete.runtime) [0; 1]%Z None 1%float = Ok ([], []).
Proof.
  destruct (@complete_graph_threshold_without_matrix float float64 Concrete.runtime
              [0; 0]%Z 1%float eq_refl) as [Hraise _].
  destruct (@complete_graph_threshold_without_matrix float float64 Concrete.runtime
              [0; 1]%Z 1%float eq_refl) as [_ Hempty].
  split.
  - apply Hraise. exists 0, 1. simpl. repeat split; lia.
  - apply Hempty. intros i j Hij Hj. simpl in Hj.
    destruct i as [| [| i]]; destruct j as [| [| j]]; simpl; try lia; discriminate.
Defined.

(** ** bipartite_graph: the edges it builds *)

Lemma NoDup_map_fst_filter {A B : Type} (q : A * B -> bool) (l : list (A * B)) :
  NoDup (map fst l) -> NoDup (map fst (filter q l)).
Proof.
  induction l as [| x l IH]; simpl; intro H; [constructor |].
  inversion H as [| ? ? Hx Hl]; subst. destruct (q x); simpl; [| auto].
  constructor; [| auto]. intro Hin. apply Hx.
  apply in_map_iff in Hin. destruct Hin as (y & Hy & Hin).
  apply filter_In in Hin. apply in_map_iff. exists y. tauto.
Qed.

Lemma NoDup_where {A : Type} (p : A -> bool) (l : list A) : NoDup (Np.where_ p l).
Proof.
  unfold Np.where_. apply NoDup_map_fst_filter. unfold enumerate.
  rewrite map_fst_combine_seq. apply seq_NoDup.
Qed.

Lemma bipartite_row (batch_ids : list Z) (i : nat) (js : list nat)
  (ret : list (nat * nat)) :
  i < length batch_ids -> (forall j, In j js -> j < length batch_ids) ->
  for_ js ret
    (fun ret j =>
       bi <- getitem batch_ids i ;;
       bj <- getitem batch_ids j ;;
       if (bi =? bj)%Z then Ok (ret ++ [(i, j)]) else Ok ret)
  = Ok (ret ++ map (pair i) (filter (same_batch batch_ids i) js)).
Proof.
  intros Hi.
  set (body := fun (ret : list (nat * nat)) (j : nat) =>
                 bi <- getitem batch_ids i ;;
                 bj <- getitem batch_ids j ;;
                 if (bi =? bj)%Z then Ok (ret ++ [(i, j)]) else Ok ret).
  assert (Hstep : forall r j, j < length batch_ids ->
             body r j = Ok (if same_batch batch_ids i j then r ++ [(i, j)] else r)).
  { intros r j Hj. unfold body, same_batch.
    rewrite (getitem_nth batch_ids 0%Z Hi). cbn [bind].
    rewrite (getitem_nth batch_ids 0%Z Hj). cbn [bind].
    now destruct (nth i batch_ids 0 =? nth j batch_ids 0)%Z. }
  clearbody body.
  revert ret. induction js as [| j js IH]; intros ret Hjs; cbn [for_ filter map].
  - now rewrite app_nil_r.
  - rewrite Hstep by (apply Hjs; now left). cbn [bind].
    rewrite IH by (intros; apply Hjs; now right).
    destruct (same_batch batch_ids i j); cbn [map]; [now rewrite <- app_assoc | reflexivity].
Qed.

Lemma bipartite_rows (batch_ids : list Z) (primaries : list bool) (rows : list nat)
  (ret : list (nat * nat)) :
  length primaries <= length batch_ids ->
  (forall i, In i rows -> i < length batch_ids) ->
  for_ rows ret
    (fun ret i =>
       for_ (Np.where_ negb primaries) ret
         (fun ret j =>
            bi <- getitem batch_ids i ;;
            bj <- getitem batch_ids j ;;
            if (bi =? bj)%Z then Ok (ret ++ [(i, j)]) else Ok ret))
  = Ok (ret ++ flat_map (fun i => map (pair i)
                                      (filter (same_batch batch_ids i)
                                              (Np.where_ negb primaries))) rows).
Proof.
  intros Hlen. revert ret.
  induction rows as [| i rows IH]; intros ret Hrows; cbn [for_ flat_map].
  - now rewrite app_nil_r.
  - rewrite bipartite_row.
    + cbn [bind]. rewrite IH by (intros; apply Hrows; now right).
      now rewrite <- app_assoc.
    + apply Hrows. now left.
    + intros j Hj. apply in_where in Hj. destruct Hj as (x & Hx & _).
      assert (j < length primaries) by (apply nth_error_Some; congruence). lia.
Qed.

Lemma in_bipartite_pairs (batch_ids : list Z) (primaries : list bool) (i j : nat) :
  In (i, j) (bipartite_pairs batch_ids primaries) <->
  nth_error primaries i = Some true /\ nth_error primaries j = Some false
  /\ nth i batch_ids 0%Z = nth j batch_ids 0%Z.
Proof.
  unfold bipartite_pairs. rewrite in_flat_map. split.
  - intros (a & Ha & Hin). apply in_map_iff in Hin. destruct Hin as (b & E & Hb).
    inversion E; subst. apply filter_In in Hb. destruct Hb as [Hb Hsame].
    apply in_where in Ha, Hb. destruct Ha as ([|] & Ha & Hpa); [| discriminate].
    destruct Hb as ([|] & Hb & Hpb); [discriminate |].
    unfold same_batch in Hsame. apply Z.eqb_eq in Hsame. auto.
  - intros (Hi & Hj & Heq). exists i. split; [apply in_where; eauto |].
    apply in_map. apply filter_In. split; [apply in_where; eauto |].
    unfold same_batch. now apply Z.eqb_eq.
Qed.

Lemma NoDup_bipartite_pairs (batch_ids : list Z) (primaries : list bool) :
  NoDup (bipartite_pairs batch_ids primaries).
Proof.
  unfold bipartite_pairs.
  assert (H : NoDup (Np.where_ (fun p : bool => p) primaries)) by apply NoDup_where.
  induction H as [| i rows Hi Hrows IH]; simpl; [constructor |].
  apply NoDup_app; [| exact IH |].
  - apply Injective_map_NoDup; [intros x y E; now inversion E |].
    apply NoDup_filter, NoDup_where.
  - intros [a b] Ha Hin. apply in_map_iff in Ha. destruct Ha as (b' & E & _).
    inversion E; subst. apply in_flat_map in Hin. destruct Hin as (i' & Hi' & Hin).
    apply in_map_iff in Hin. destruct Hin as (b'' & E' & _). inversion E'; subst.
    contradiction.
Qed.

(** Without a threshold and with a mask no longer than the batch ids,
    [bipartite_graph] builds every pair (primary, non-primary) of one
    batch, each once: directed to the secondaries it returns these pairs,
    directed to the primaries their reverses, and undirected both; no
    edge joins two primaries or two secondaries. *)
Theorem bipartite_graph_edges {F : Type} {DT : Dtype F} (batch_ids : list Z)
  (primaries : list bool) (dist_mat : option (list (list F))) (max_dist : F) :
  length primaries <= length batch_ids ->
  ltb minus_one max_dist = false ->
  exists ret,
    NoDup ret
    /\ (forall i j, In (i, j) ret <->
                    nth_error primaries i = Some true /\ nth_error primaries j = Some false
                    /\ nth i batch_ids 0%Z = nth j batch_ids 0%Z)
    /\ bipartite_graph batch_ids primaries dist_mat max_dist true "secondary"
       = Ok (Np.T ret)
    /\ bipartite_graph batch_ids primaries dist_mat max_dist true "primary"
       = Ok (Np.T (Np.flip ret))
    /\ forall directed_to,
         bipartite_graph batch_ids primaries dist_mat max_dist false directed_to
         = Ok (Np.T (ret ++ Np.flip ret)).
Proof.
  intros Hlen Hno. exists (bipartite_pairs batch_ids primaries).
  split; [apply NoDup_bipartite_pairs |]. split; [apply in_bipartite_pairs |].
  assert (Hloop := @bipartite_rows batch_ids primaries
                     (Np.where_ (fun p : bool => p) primaries) [] Hlen).
  cbn [app] in Hloop. fold (bipartite_pairs batch_ids primaries) in Hloop.
  unfold bipartite_graph. rewrite Hloop.
  - cbn [bind]. unfold prune. rewrite Hno. cbn [bind]. repeat split.
  - intros i Hi. apply in_where in Hi. destruct Hi as (x & Hx & _).
    assert (i < length primaries) by (apply nth_error_Some; congruence). lia.
Qed.

Lemma bipartite_graph_edges_witness :
  exists ret,
    bipartite_graph [0; 0; 0; 1]%Z [true; false; false; false] None (-1)%float
                    true "secondary" = Ok (Np.T ret)
    /\ (In (0, 3) ret <-> False).
Proof.
  destruct (@bipartite_graph_edges float float64 [0; 0; 0; 1]%Z
              [true; false; false; false] None (-1)%float) as (ret & _ & Hchar & Hs & _).
  - simpl. lia.
  - reflexivity.
  - exists ret. split; [exact Hs |]. rewrite Hchar. simpl.
    split; [intros (_ & _ & H); discriminate | tauto].
Defined.

(** With a threshold and no distance matrix, [bipartite_graph] fails its
    assertion whatever the masks, even when there is no edge to prune. *)
Theorem bipartite_graph_threshold_without_matrix {F : Type} {DT : Dtype F}
  (batch_ids : list Z) (primaries : list bool) (max_dist : F) (directed : bool)
  (directed_to : String.string) :
  length primaries <= length batch_ids ->
  ltb minus_one max_dist = true ->
  bipartite_graph batch_ids primaries None max_dist directed directed_to
  = Raise AssertionError.
Proof.
  intros Hlen Hgt.
  assert (Hloop := @bipartite_rows batch_ids primaries
                     (Np.where_ (fun p : bool => p) primaries) [] Hlen).
  unfold bipartite_graph. rewrite Hloop.
  - cbn [bind]. unfold prune. rewrite Hgt. reflexivity.
  - intros i Hi. apply in_where in Hi. destruct Hi as (x & Hx & _).
    assert (i < length primaries) by (apply nth_error_Some; congruence). lia.
Qed.

Lemma bipartite_graph_threshold_without_matrix_witness :
  bipartite_graph [0; 1]%Z [true; true] None 1%float true "secondary"
  = Raise AssertionError.
Proof.
  apply (@bipartite_graph_threshold_without_matrix float float64); [simpl; lia | reflexivity].
Defined.

(** ** knn_graph and mst_graph on small batches, and the number of kNN edges *)

Lemma length_where {A : Type} (p : A -> bool) (l : list A) :
  length (Np.where_ p l) = Np.count p l.
Proof.
  unfold Np.where_, Np.count, enumerate. rewrite length_map.
  generalize 0. induction l as [| x l IH]; intro a; simpl; [reflexivity |].
  destruct (p x); simpl; now rewrite IH.
Qed.

Lemma length_clusters_of (batch_ids : list Z) (b : Z) :
  length (clusters_of batch_ids b) = batch_size batch_ids b.
Proof. apply length_where. Qed.

Lemma for_unchanged {A S : Type} (body : S -> A -> result S) (xs : list A) (s : S) :
  (forall x, In x xs -> body s x = Ok s) -> for_ xs s body = Ok s.
Proof.
  induction xs as [| x xs IH]; intro H; simpl; [reflexivity |].
  rewrite H by now left. cbn [bind]. apply IH. intros; apply H; now right.
Qed.

(** When no two clusters share a batch, [knn_graph] and [mst_graph], given
    a distance matrix, return the empty matrix without reading it,
    whatever [k] and the threshold. Given [None] for the matrix they
    raise [TypingError]. *)
Theorem knn_mst_singleton_batches {F : Type} {DT : Dtype F} {RT : Runtime F}
  (batch_ids : list Z) :
  (forall b, batch_size batch_ids b <= 1) ->
  (forall k dm, knn_graph batch_ids k (Some dm) = Ok ([], []))
  /\ (forall dm max_dist, mst_graph batch_ids (Some dm) max_dist = Ok ([], []))
  /\ (forall k, knn_graph batch_ids k None = Raise TypingError)
  /\ (forall max_dist, mst_graph batch_ids None max_dist = Raise TypingError).
Proof.
  intro Hsmall.
  assert (Hnot : forall b, (1 <? length (clusters_of batch_ids b)) = false).
  { intro b. rewrite length_clusters_of. apply Nat.ltb_ge. apply Hsmall. }
  split; [| split; [| split; reflexivity]].
  - intros k dm. unfold knn_graph. cbn [bind Numba.array_argument].
    rewrite for_unchanged; [reflexivity |].
    intros b _. cbv beta zeta. now rewrite Hnot.
  - intros dm max_dist. unfold mst_graph. cbn [bind Numba.array_argument].
    rewrite for_unchanged.
    + cbn [bind]. unfold prune. destruct (ltb minus_one max_dist); reflexivity.
    + intros b _. cbv beta zeta. now rewrite Hnot.
Qed.

Lemma knn_mst_singleton_batches_witness :
  let dm := [[0; 1; 2]; [1; 0; 3]; [2; 3; 0]]%float in
  knn_graph (RT := Concrete.runtime) [0; 1; 2]%Z 5 (Some dm) = Ok ([], [])
  /\ mst_graph (RT := Concrete.runtime) [0; 1; 2]%Z (Some dm) 1%float = Ok ([], [])
  /\ knn_graph (RT := Concrete.runtime) [0; 1; 2]%Z 5 (@None (list (list float)))
     = Raise TypingError.
Proof.
  intro dm.
  destruct (@knn_mst_singleton_batches float float64 Concrete.runtime [0; 1; 2]%Z)
    as (Hk & Hm & Hkn & _).
  - intro b. unfold batch_size, Np.count. cbn [filter].
    destruct (Z.eqb_spec 0 b), (Z.eqb_spec 1 b), (Z.eqb_spec 2 b); cbn [length]; lia.
  - split; [exact (Hk 5%Z dm) | split; [exact (Hm dm 1%float) | exact (Hkn 5%Z)]].
Defined.

Lemma submatrix_nb_total {F : Type} (n : nat) (dm : list (list F)) (cs : list nat) :
  covers n dm -> (forall c, In c cs -> c < n) ->
  exists sub, submatrix_nb dm cs cs = Ok sub
              /\ length sub = length cs
              /\ forall row, In row sub -> length row = length cs.
Proof.
  intros Hcov Hcs.
  destruct (@mapM_total_ex _ _
              (fun r => row <- getitem dm r ;; mapM (fun c => getitem row c) cs) cs)
    as (sub & Hsub).
  - intros r Hr. destruct (Hcov r r (Hcs r Hr) (Hcs r Hr)) as (d & Hd).
    unfold Np.getitem2 in Hd. inv_bind Hd. rewrite E. cbn [bind].
    apply mapM_total_ex. intros c Hc.
    destruct (Hcov r c (Hcs r Hr) (Hcs c Hc)) as (d' & Hd').
    unfold Np.getitem2 in Hd'. rewrite E in Hd'. cbn [bind] in Hd'. eauto.
  - exists sub. split; [exact Hsub |]. split; [eapply mapM_length; eauto |].
    eapply submatrix_nb_row_length; eauto.
Qed.


Lemma for_first_failure {A S : Type} (bad : A -> bool) (e : exn)
  (body : S -> A -> result S) (xs : list A) (s : S) :
  (forall s0 x, In x xs -> if bad x then body s0 x = Raise e
                           else exists s1, body s0 x = Ok s1) ->
  existsb bad xs = true ->
  for_ xs s body = Raise e.
Proof.
  revert s. induction xs as [| x xs IH]; intros s H Hbad; [discriminate |].
  pose proof (H s x (or_introl eq_refl)) as Hx.
  cbn [existsb for_] in *. destruct (bad x).
  - rewrite Hx. reflexivity.
  - destruct Hx as (s1 & ->). cbn [bind]. apply IH.
    + intros s0 y Hy. apply H. now right.
    + exact Hbad.
Qed.





Section KnnCount.

Context {F : Type} {DT : Dtype F} {RT : Runtime F} {AS : ArgsortSpec RT}.



(** A negative [k] makes [knn_graph] raise as soon as a batch has two
    clusters: the array for the edges of a cluster would have a negative
    number of rows. *)
Theorem knn_graph_negative_k (batch_ids : list Z) (k : Z) (dm : list (list F)) :
  (k < 0)%Z -> covers (length batch_ids) dm ->
  (exists b, 2 <= batch_size batch_ids b) ->
  knn_graph batch_ids k (Some dm)
  = Raise (ValueError "negative dimensions are not allowed").
Proof.
  intros Hk Hcov (b & Hb). unfold knn_graph. cbn [bind Numba.array_argument].
  rewrite (@for_first_failure _ _
             (fun b => 1 <? length (clusters_of batch_ids b))
             (ValueError "negative dimensions are not allowed")); [reflexivity | |].
  - intros s c _. cbv beta zeta. set (cs := clusters_of batch_ids c).
    destruct (Nat.ltb_spec 1 (length cs)) as [Hm | Hm]; [| eauto].
    destruct (@submatrix_nb_total _ (length batch_ids) dm cs Hcov) as (sub & -> & Hlen & _).
    { intros x Hx. apply in_clusters_of in Hx. apply nth_error_Some. congruence. }
    cbn [bind]. destruct sub as [| row sub]; [simpl in Hlen; lia |].
    unfold enumerate. cbn [length seq combine for_ fst snd]. unfold Np.empty_rows.
    destruct (Z.ltb_spec (Z.min (k + 1) (Z.of_nat (length cs)) - 1) 0); [reflexivity | lia].
  - apply existsb_exists. exists b. split.
    + apply in_unique. unfold batch_size, Np.count in Hb.
      destruct (filter (fun x => (x =? b)%Z) batch_ids) as [| x l] eqn:E; [simpl in Hb; lia |].
      assert (Hx : In x (filter (fun x => (x =? b)%Z) batch_ids)) by (rewrite E; now left).
      apply filter_In in Hx. destruct Hx as [Hx Hxb]. apply Z.eqb_eq in Hxb. now subst.
    + rewrite length_clusters_of. apply Nat.ltb_lt. lia.
Qed.

End KnnCount.

Lemma covers_three_by_three :
  covers 3 [[0; 1; 5]; [1; 0; 2]; [5; 2; 0]]%float.
Proof.
  intros i j Hi Hj.
  destruct i as [| [| [| i]]]; destruct j as [| [| [| j]]]; try lia; eexists; reflexivity.
Qed.


Lemma knn_graph_negative_k_witness :
  knn_graph (RT := Concrete.runtime) [0; 0; 0]%Z (-1)
            (Some [[0; 1; 5]; [1; 0; 2]; [5; 2; 0]]%float)
  = Raise (ValueError "negative dimensions are not allowed").
Proof.
  apply (knn_graph_negative_k (RT := Concrete.runtime)).
  - lia.
  - exact covers_three_by_three.
  - exists 0%Z. vm_compute. lia.
Defined.

(** ** Closest points of approach *)

Lemma nth_concat_rect {A : Type} (c : nat) (M : list (list A)) (idx : nat) (d : A) :
  Forall (fun row => length row = c) M -> idx < length M * c ->
  nth idx (concat M) d = nth (idx mod c) (nth (idx / c) M []) d.
Proof.
  intros HM. revert idx. induction HM as [| row M Hrow _ IH]; intros idx Hidx.
  - simpl in Hidx. lia.
  - assert (Hc : c <> 0) by (intro; subst c; simpl in Hidx; lia).
    cbn [concat]. destruct (Nat.lt_ge_cases idx c) as [Hlt | Hge].
    + rewrite Nat.div_small, Nat.mod_small by exact Hlt. cbn [nth].
      apply app_nth1. lia.
    + rewrite app_nth2 by lia. rewrite Hrow.
      replace idx with ((idx - c) + 1 * c) at 2 3 by lia.
      rewrite Nat.div_add, Nat.Div0.mod_add by exact Hc.
      rewrite Nat.add_1_r. cbn [nth]. apply IH. simpl in Hidx. lia.
Qed.

Lemma nth_map_in {A B : Type} (f : A -> B) (l : list A) (k : nat) (d : A) (d' : B) :
  k < length l -> nth k (map f l) d' = f (nth k l d).
Proof.
  intro Hk. rewrite (nth_indep _ d' (f d)) by (now rewrite length_map).
  apply map_nth.
Qed.

Lemma Forall2_nth_error {A B : Type} (P : A -> B -> Prop) (xs : list A) (ys : list B)
  (k : nat) (x : A) (d : B) :
  Forall2 P xs ys -> nth_error xs k = Some x -> P x (nth k ys d).
Proof.
  intro H. revert k. induction H as [| x0 y0 xs ys H0 _ IH]; intros [| k] Hk;
    simpl in Hk; try discriminate.
  - injection Hk as ->. exact H0.
  - simpl. now apply IH.
Qed.

Section ClosestPoints.

Import Geometry.
Local Open Scope R_scope.

Lemma argmin_from_spec (l : list R) (bi : nat) (b : R) (i : nat) :
  (bi < i)%nat ->
  (argmin_from bi b i l = bi /\ fold_left Rmin l b = b)
  \/ ((i <= argmin_from bi b i l)%nat
      /\ nth (argmin_from bi b i l - i) l 0 = fold_left Rmin l b).
Proof.
  revert bi b i. induction l as [| x l IH]; intros bi b i Hlt; simpl.
  - left. split; reflexivity.
  - destruct (Rlt_dec x b) as [Hx | Hx].
    + rewrite Rmin_right by lra.
      destruct (IH i x (S i)) as [[Hr Hf] | [Hr Hf]]; [lia | |]; right.
      * rewrite Hr, Nat.sub_diag. split; [lia | now rewrite Hf].
      * split; [lia |].
        replace (argmin_from i x (S i) l - i)%nat
          with (S (argmin_from i x (S i) l - S i)) by lia.
        exact Hf.
    + rewrite Rmin_left by lra.
      destruct (IH bi b (S i)) as [[Hr Hf] | [Hr Hf]]; [lia | |].
      * left. split; assumption.
      * right. split; [lia |].
        replace (argmin_from bi b (S i) l - i)%nat
          with (S (argmin_from bi b (S i) l - S i)) by lia.
        exact Hf.
Qed.

Lemma np_argmin_spec (m : list (list R)) (imin : nat) :
  np_argmin m = Ok imin -> nth imin (concat m) 0 = min_list (concat m).
Proof.
  unfold np_argmin, min_list. destruct (concat m) as [| x t]; [discriminate |].
  intro H. inv_Ok H.
  destruct (@argmin_from_spec t 0%nat x 1%nat) as [[Hr Hf] | [Hr Hf]]; [lia | |].
  - rewrite Hr, Hf. reflexivity.
  - destruct (argmin_from 0 x 1 t) as [| r]; [lia |].
    simpl. rewrite <- Hf. f_equal. lia.
Qed.

(** The first least entry is taken: when nothing is below the first entry,
    the first position is returned. *)
Lemma argmin_from_stays (l : list R) (bi : nat) (b : R) (i : nat) :
  (forall x, In x l -> b <= x) -> argmin_from bi b i l = bi.
Proof.
  revert i. induction l as [| x l IH]; intros i Hl; simpl; [reflexivity |].
  destruct (Rlt_dec x b) as [Hx | _].
  - specialize (Hl x (or_introl eq_refl)). lra.
  - apply IH. intros y Hy. apply Hl. now right.
Qed.

Lemma cdist_rows (x1 x2 : list (list R)) :
  Forall (fun row => length row = length x2) (cdist_nb x1 x2).
Proof.
  unfold cdist_nb. apply Forall_forall. intros row Hrow.
  apply in_map_iff in Hrow. destruct Hrow as (a & <- & _). apply length_map.
Qed.

Lemma cdist_entry (x1 x2 : list (list R)) (a b : nat) :
  (a < length x1)%nat -> (b < length x2)%nat ->
  nth b (nth a (cdist_nb x1 x2) []) 0 = norm (vsub (nth a x1 []) (nth b x2 [])).
Proof.
  intros Ha Hb. unfold cdist_nb.
  rewrite (@nth_map_in _ _ _ x1 a [] []) by exact Ha.
  now rewrite (@nth_map_in _ _ _ x2 b [] 0) by exact Hb.
Qed.

Lemma norm_nonneg (v : list R) : 0 <= norm v.
Proof. unfold norm. apply sqrt_pos. Qed.

Lemma norm_vsub_self (p : list R) : norm (vsub p p) = 0.
Proof.
  unfold norm. replace (fold_right (fun x acc => x * x + acc) 0 (vsub p p)) with 0.
  - apply sqrt_0.
  - unfold vsub. induction p as [| a p IH]; simpl; [reflexivity |].
    rewrite <- IH. ring.
Qed.

Lemma rows_of_total (voxels : list (list R)) (c : list nat) :
  Forall (fun v => (v < length voxels)%nat) c ->
  mapM (getitem voxels) c = Ok (rows_of voxels c).
Proof.
  intro Hv. apply mapM_total. intros v Hin. rewrite Forall_forall in Hv.
  apply getitem_nth. auto.
Qed.

Lemma min_distance_unique (voxels : list (list R)) (ci cj : list nat) (d d' : R) :
  min_distance_between voxels ci cj d -> min_distance_between voxels ci cj d' -> d = d'.
Proof.
  intros [(v & w & Hv & Hw & Hd) Hle] [(v' & w' & Hv' & Hw' & Hd') Hle'].
  specialize (Hle v' w' Hv' Hw'). specialize (Hle' v w Hv Hw). lra.
Qed.

(** The search of one pair of clusters: the position [np.argmin] returns,
    split by the width of the matrix, names a pair of voxels at the least
    distance. *)
Lemma closest_search (voxels : list (list R)) (clusts : list (list nat)) (i j : nat)
  (idx : nat) :
  let ci := nth i clusts [] in
  let cj := nth j clusts [] in
  np_argmin (cdist_nb (rows_of voxels ci) (rows_of voxels cj)) = Ok idx ->
  ((idx / length cj < length ci)%nat /\ (idx mod length cj < length cj)%nat)
  /\ nth (idx mod length cj)
         (nth (idx / length cj) (cdist_nb (rows_of voxels ci) (rows_of voxels cj)) []) 0
     = pair_distance voxels (nth (idx / length cj) ci 0%nat) (nth (idx mod length cj) cj 0%nat)
  /\ pair_distance voxels (nth (idx / length cj) ci 0%nat) (nth (idx mod length cj) cj 0%nat)
     = closest voxels clusts i j.
Proof.
  intros ci cj Hidx.
  pose proof (np_argmin_bound _ Hidx) as Hb. rewrite length_cdist in Hb.
  unfold rows_of in Hb. rewrite !length_map in Hb.
  assert (Hcj : (0 < length cj)%nat) by nia.
  assert (Hii : (idx / length cj < length ci)%nat)
    by (apply Nat.Div0.div_lt_upper_bound; lia).
  assert (Hjj : (idx mod length cj < length cj)%nat)
    by (apply Nat.mod_upper_bound; lia).
  assert (Hentry :
            nth (idx mod length cj)
                (nth (idx / length cj) (cdist_nb (rows_of voxels ci) (rows_of voxels cj)) []) 0
            = pair_distance voxels (nth (idx / length cj) ci 0%nat)
                            (nth (idx mod length cj) cj 0%nat)).
  { rewrite cdist_entry by (unfold rows_of; rewrite length_map; assumption).
    unfold pair_distance, rows_of.
    rewrite (@nth_map_in _ _ _ ci _ 0%nat []) by exact Hii.
    now rewrite (@nth_map_in _ _ _ cj _ 0%nat []) by exact Hjj. }
  split; [split; assumption |]. split; [exact Hentry |].
  rewrite <- Hentry. unfold closest. fold ci cj.
  rewrite <- (np_argmin_spec _ Hidx).
  symmetry.
  replace (length cj) with (length (rows_of voxels cj))
    by (unfold rows_of; apply length_map).
  apply nth_concat_rect; [apply cdist_rows |].
  unfold cdist_nb, rows_of. rewrite !length_map. lia.
Qed.

(** One edge of [_get_edge_distances]. *)
Lemma edge_distance_spec (voxels : list (list R)) (clusts : list (list nat)) (i j : nat)
  (ci cj : list nat) :
  nth_error clusts i = Some ci -> nth_error clusts j = Some cj ->
  valid_cluster voxels ci -> valid_cluster voxels cj ->
  exists d v w,
    edge_distance voxels clusts (i, j) = Ok (d, v, w)
    /\ In v ci /\ In w cj
    /\ d = pair_distance voxels v w
    /\ min_distance_between voxels ci cj d
    /\ (i = j -> d = 0 /\ v = nth 0 ci 0%nat /\ w = nth 0 ci 0%nat).
Proof.
  intros Hi Hj [Hnei Hvi] [Hnej Hvj]. unfold edge_distance. cbn [fst snd].
  pose proof (nth_error_nth _ _ [] Hi) as Hni.
  pose proof (nth_error_nth _ _ [] Hj) as Hnj.
  apply getitem_Ok in Hi, Hj.
  destruct (Nat.eqb_spec i j) as [-> | Hne].
  - assert (Hc : cj = ci) by congruence. rewrite Hc in *. clear Hc Hj Hnj.
    destruct ci as [| c0 ci]; [congruence |].
    rewrite Hi. cbn [bind].
    change (getitem (c0 :: ci) 0%nat) with (Ok c0 : result nat). cbn [bind].
    exists 0, c0, c0. split; [reflexivity |].
    assert (Hself : 0 = pair_distance voxels c0 c0)
      by (unfold pair_distance; now rewrite norm_vsub_self).
    repeat split; simpl; auto.
    + exists c0, c0. simpl. auto.
    + intros v w _ _. apply norm_nonneg.
  - rewrite Hi. cbn [bind]. rewrite (@rows_of_total voxels ci Hvi). cbn [bind].
    rewrite Hj. cbn [bind]. rewrite (@rows_of_total voxels cj Hvj). cbn [bind].
    destruct (@np_argmin_total (cdist_nb (rows_of voxels ci) (rows_of voxels cj)))
      as (idx & Hidx).
    { intro E. apply (f_equal (@length R)) in E. rewrite length_cdist in E.
      unfold rows_of in E. rewrite !length_map in E.
      destruct ci; [congruence |]. destruct cj; [congruence |]. simpl in E. lia. }
    rewrite Hidx. cbn [bind].
    pose proof (@closest_search voxels clusts i j idx) as Hs.
    rewrite Hni, Hnj in Hs. cbv zeta in Hs.
    destruct (Hs Hidx) as ([Hii Hjj] & Hentry & Hmin).
    unfold Np.getitem2.
    rewrite (getitem_nth (cdist_nb (rows_of voxels ci) (rows_of voxels cj)) [])
      by (unfold cdist_nb, rows_of; rewrite !length_map; exact Hii).
    cbn [bind].
    rewrite (getitem_nth _ 0).
    2:{ pose proof (cdist_rows (rows_of voxels ci) (rows_of voxels cj)) as Hrows.
        rewrite Forall_forall in Hrows. rewrite Hrows.
        - unfold rows_of. rewrite length_map. exact Hjj.
        - apply nth_In. unfold cdist_nb, rows_of. rewrite !length_map. exact Hii. }
    cbn [bind].
    rewrite (getitem_nth ci 0%nat) by exact Hii. cbn [bind].
    rewrite (getitem_nth cj 0%nat) by exact Hjj. cbn [bind].
    eexists _, _, _. split; [reflexivity |].
    split; [now apply nth_In |]. split; [now apply nth_In |].
    split; [exact Hentry |]. split; [| intros ->; congruence].
    rewrite Hentry, Hmin. rewrite <- Hni, <- Hnj.
    apply closest_is_min; congruence.
Qed.

End ClosestPoints.

Lemma get_edge_distances_rows (voxels : list (list R)) (clusts : list (list nat))
  (edge_index : list (nat * nat)) :
  valid_edges voxels clusts edge_index ->
  exists res, mapM (Geometry.edge_distance voxels clusts) edge_index = Ok res
              /\ length res = length edge_index
              /\ Forall2 (fun e r => Geometry.edge_distance voxels clusts e = Ok r)
                         edge_index res.
Proof.
  intro Hvalid.
  destruct (@mapM_total_ex _ _ (Geometry.edge_distance voxels clusts) edge_index)
    as (res & Hres).
  - intros [i j] He. unfold valid_edges in Hvalid. rewrite Forall_forall in Hvalid.
    destruct (Hvalid _ He) as (c1 & c2 & H1 & H2 & Hv1 & Hv2).
    destruct (@edge_distance_spec voxels clusts _ _ _ _ H1 H2 Hv1 Hv2) as (d & v & w & Hd & _). eauto.
  - exists res. split; [exact Hres |].
    split; [eapply mapM_length; eauto | now apply mapM_Ok].
Qed.



(** The matrix of [_inter_cluster_distance], whatever the order in which
    the iterations of its [prange] loop ran, against the voxels
    [_get_edge_distances] returns: for an edge [(i,j)] between clusters of
    one batch with [i <= j], the entry [(i,j)] of the matrix is the
    distance between the two voxels returned for the edge; with [j < i]
    the entry is that distance, or the zero the matrix was allocated
    with. *)
Theorem edge_distances_match_distance_matrix (voxels : list (list R))
  (clusts : list (list nat)) (batch_ids : list Z) (edge_index : list (nat * nat))
  (order : list nat) :
  (forall i, i < length batch_ids ->
             exists c, nth_error clusts i = Some c /\ valid_cluster voxels c) ->
  Forall (fun e => fst e < length batch_ids /\ snd e < length batch_ids
                   /\ nth (fst e) batch_ids 0%Z = nth (snd e) batch_ids 0%Z) edge_index ->
  Permutation order (seq 0 (length batch_ids)) ->
  exists D lend resi resj,
    Geometry.inter_cluster_distance_in_order order voxels clusts batch_ids = Ok D
    /\ Geometry._get_edge_distances voxels clusts edge_index = Ok (lend, resi, resj)
    /\ forall k i j,
         nth_error edge_index k = Some (i, j) ->
         (i <= j ->
          entry2 D i j = pair_distance voxels (nth k resi 0) (nth k resj 0))
         /\ (j < i ->
             entry2 D i j = pair_distance voxels (nth k resi 0) (nth k resj 0)
             \/ entry2 D i j = 0%R).
Proof.
  intros Hclusts Hedges Hperm. rewrite Forall_forall in Hedges.
  destruct (@inter_cluster_distance_any_order voxels clusts batch_ids Hclusts order Hperm)
    as (D & HD & _ & Hent).
  assert (Hvalid : valid_edges voxels clusts edge_index).
  { apply Forall_forall. intros e He. destruct (Hedges _ He) as (Hi & Hj & _).
    destruct (Hclusts _ Hi) as (c1 & H1 & Hv1).
    destruct (Hclusts _ Hj) as (c2 & H2 & Hv2). eauto 6. }
  destruct (get_edge_distances_rows Hvalid) as (res & Hres & Hlen & Hrows).
  unfold Geometry._get_edge_distances. rewrite Hres. cbn [bind].
  exists D. eexists _, _, _. split; [exact HD |]. split; [reflexivity |].
  intros k i j Hk.
  assert (Hklt : k < length res).
  { rewrite Hlen. apply nth_error_Some. congruence. }
  pose proof (@Forall2_nth_error _ _ _ _ _ k (i, j) (0%R, 0, 0) Hrows Hk) as Hrow.
  cbv beta in Hrow.
  rewrite !(@nth_map_in _ _ _ res k (0%R, 0, 0) 0) by exact Hklt.
  destruct (Hedges _ (nth_error_In _ _ Hk)) as (Hi & Hj & Hb). cbn [fst snd] in Hi, Hj, Hb.
  destruct (Hclusts _ Hi) as (c1 & H1 & Hv1).
  destruct (Hclusts _ Hj) as (c2 & H2 & Hv2).
  destruct (@edge_distance_spec voxels clusts _ _ _ _ H1 H2 Hv1 Hv2)
    as (d & v & w & Hd & _ & _ & Hdist & Hmin & Hself).
  rewrite Hd in Hrow. injection Hrow as Hrow. rewrite <- Hrow. cbn [fst snd].
  rewrite <- Hdist.
  destruct (Hent i j Hi Hj) as (Hdiag & _ & Habove & Hbelow).
  rewrite (nth_error_nth _ _ [] H1), (nth_error_nth _ _ [] H2) in Habove, Hbelow.
  split.
  - intro Hle. destruct (Nat.eq_dec i j) as [Hij | Hij].
    + rewrite (Hdiag Hij). now destruct (Hself Hij) as [-> _].
    + assert (Hlt : i < j) by lia.
      exact (min_distance_unique (Habove Hlt Hb) Hmin).
  - intro Hlt. destruct (Hbelow Hlt Hb) as [Hz | Hm]; [now right | left].
    exact (min_distance_unique Hm Hmin).
Qed.

Lemma edge_distances_match_distance_matrix_witness :
  let voxels := [[0; 0; 0]; [3; 4; 0]]%R in
  exists D lend resi resj,
    Geometry.inter_cluster_distance_in_order [1; 0] voxels [[0]; [1]] [0; 0]%Z = Ok D
    /\ Geometry._get_edge_distances voxels [[0]; [1]] [(0, 1); (1, 0)]
       = Ok (lend, resi, resj)
    /\ entry2 D 0 1 = pair_distance voxels (nth 0 resi 0) (nth 0 resj 0)
    /\ (entry2 D 1 0 = pair_distance voxels (nth 1 resi 0) (nth 1 resj 0)
        \/ entry2 D 1 0 = 0%R).
Proof.
  intro voxels.
  destruct (@edge_distances_match_distance_matrix voxels [[0]; [1]]
              [0; 0]%Z [(0, 1); (1, 0)] [1; 0])
    as (D & lend & resi & resj & HD & Hl & Hk).
  - intros [| [| i]] Hi; simpl in Hi; try lia.
    + exists [0]. simpl. repeat split; try discriminate; repeat constructor; simpl; lia.
    + exists [1]. simpl. repeat split; try discriminate; repeat constructor; simpl; lia.
  - repeat constructor; simpl; lia.
  - simpl. apply perm_swap.
  - exists D, lend, resi, resj. split; [exact HD |]. split; [exact Hl |].
    split.
    + apply (proj1 (Hk 0 0 1 eq_refl)). lia.
    + apply (proj2 (Hk 1 1 0 eq_refl)). lia.
Defined.

(** ** The points the cluster extractor stores *)

Section ClusterFeaturePoints.

Import Geometry.
Local Open Scope R_scope.

Lemma coords_rows (data : list (list R)) (c : list nat) :
  Forall (fun v => (v < length data)%nat) c ->
  coords data c = Ok (rows_of (map (firstn 3) data) c).
Proof.
  intro Hv. unfold coords, rows_of. apply mapM_total. intros v Hin.
  rewrite Forall_forall in Hv. specialize (Hv _ Hin).
  rewrite (getitem_nth data []) by exact Hv. cbn [bind].
  now rewrite (@nth_map_in _ _ (firstn 3) data v [] []) by exact Hv.
Qed.

Lemma valid_cluster_coords (data : list (list R)) (c : list nat) :
  valid_cluster data c -> valid_cluster (map (firstn 3) data) c.
Proof. intros [Hne Hv]. split; [exact Hne | now rewrite length_map]. Qed.

(** The search of a cluster against itself stops at the first entry. *)
Lemma np_argmin_self (x : list (list R)) :
  x <> [] -> np_argmin (cdist_nb x x) = Ok 0%nat.
Proof.
  intro Hx. destruct x as [| p x]; [congruence |].
  unfold np_argmin.
  destruct (concat (cdist_nb (p :: x) (p :: x))) as [| d t] eqn:E; [discriminate |].
  assert (Hd : d = 0).
  { simpl in E. injection E as Hd _. rewrite <- Hd. apply norm_vsub_self. }
  f_equal. apply argmin_from_stays. intros y Hy. rewrite Hd.
  assert (Hin : In y (concat (cdist_nb (p :: x) (p :: x)))) by (rewrite E; now right).
  apply in_concat_cdist in Hin. destruct Hin as (a & b & _ & _ & ->).
  apply norm_nonneg.
Qed.

(** Both searches, the one of [_get_cluster_edge_features] and the one of
    [_get_edge_distances] with its shortcut for an edge from a cluster to
    itself, end on the same pair of voxels. *)
Lemma edge_distance_argmin (voxels : list (list R)) (clusts : list (list nat))
  (i j : nat) (ci cj : list nat) :
  nth_error clusts i = Some ci -> nth_error clusts j = Some cj ->
  valid_cluster voxels ci -> valid_cluster voxels cj ->
  exists idx,
    np_argmin (cdist_nb (rows_of voxels ci) (rows_of voxels cj)) = Ok idx
    /\ (idx / length cj < length ci)%nat /\ (idx mod length cj < length cj)%nat
    /\ edge_distance voxels clusts (i, j)
       = Ok (pair_distance voxels (nth (idx / length cj) ci 0%nat)
                           (nth (idx mod length cj) cj 0%nat),
             nth (idx / length cj) ci 0%nat, nth (idx mod length cj) cj 0%nat)
    /\ (i = j -> idx = 0%nat).
Proof.
  intros Hi Hj [Hnei Hvi] [Hnej Hvj].
  pose proof (nth_error_nth _ _ [] Hi) as Hni.
  pose proof (nth_error_nth _ _ [] Hj) as Hnj.
  destruct (Nat.eq_dec i j) as [Hij | Hne].
  - subst j. assert (Hc : cj = ci) by congruence. rewrite Hc in *. clear Hc Hj Hnj.
    exists 0%nat.
    assert (Hlen : (0 < length ci)%nat) by (destruct ci; [congruence | simpl; lia]).
    split; [apply np_argmin_self; unfold rows_of; intro E; apply map_eq_nil in E; auto |].
    rewrite Nat.Div0.div_0_l, Nat.Div0.mod_0_l.
    split; [exact Hlen |]. split; [exact Hlen |]. split; [| reflexivity].
    unfold edge_distance. cbn [fst snd]. rewrite Nat.eqb_refl.
    apply getitem_Ok in Hi. rewrite Hi. cbn [bind].
    rewrite (getitem_nth ci 0%nat) by exact Hlen. cbn [bind].
    unfold pair_distance. now rewrite norm_vsub_self.
  - destruct (@np_argmin_total (cdist_nb (rows_of voxels ci) (rows_of voxels cj)))
      as (idx & Hidx).
    { intro E. apply (f_equal (@length R)) in E. rewrite length_cdist in E.
      unfold rows_of in E. rewrite !length_map in E.
      destruct ci; [congruence |]. destruct cj; [congruence |]. simpl in E. lia. }
    exists idx. split; [exact Hidx |].
    pose proof (@closest_search voxels clusts i j idx) as Hs.
    rewrite Hni, Hnj in Hs. cbv zeta in Hs.
    destruct (Hs Hidx) as ([Hii Hjj] & Hentry & _).
    split; [exact Hii |]. split; [exact Hjj |]. split; [| intro; contradiction].
    unfold edge_distance. cbn [fst snd].
    destruct (Nat.eqb_spec i j) as [| _]; [contradiction |].
    apply getitem_Ok in Hi, Hj.
    rewrite Hi. cbn [bind]. rewrite (@rows_of_total voxels ci Hvi). cbn [bind].
    rewrite Hj. cbn [bind]. rewrite (@rows_of_total voxels cj Hvj). cbn [bind].
    rewrite Hidx. cbn [bind]. unfold Np.getitem2.
    rewrite (getitem_nth (cdist_nb (rows_of voxels ci) (rows_of voxels cj)) [])
      by (unfold cdist_nb, rows_of; rewrite !length_map; exact Hii).
    cbn [bind].
    rewrite (getitem_nth _ 0).
    2:{ pose proof (cdist_rows (rows_of voxels ci) (rows_of voxels cj)) as Hrows.
        rewrite Forall_forall in Hrows. rewrite Hrows.
        - unfold rows_of. rewrite length_map. exact Hjj.
        - apply nth_In. unfold cdist_nb, rows_of. rewrite !length_map. exact Hii. }
    cbn [bind].
    rewrite (getitem_nth ci 0%nat) by exact Hii. cbn [bind].
    rewrite (getitem_nth cj 0%nat) by exact Hjj. cbn [bind].
    now rewrite Hentry.
Qed.


(** One edge of [_get_cluster_edge_features]. *)
Lemma cluster_edge_row (data : list (list R)) (clusts : list (list nat)) (i j : nat)
  (ci cj : list nat) :
  Forall (fun row => (3 <= length row)%nat) data ->
  nth_error clusts i = Some ci -> nth_error clusts j = Some cj ->
  valid_cluster data ci -> valid_cluster data cj ->
  let voxels := map (firstn 3) data in
  exists idx row,
    np_argmin (cdist_nb (rows_of voxels ci) (rows_of voxels cj)) = Ok idx
    /\ (idx / length cj < length ci)%nat /\ (idx mod length cj < length cj)%nat
    /\ (i = j -> idx = 0%nat)
    /\ (c1 <- getitem clusts i ;;
        x1 <- coords data c1 ;;
        c2 <- getitem clusts j ;;
        x2 <- coords data c2 ;;
        imin <- np_argmin (cdist_nb x1 x2) ;;
        v1 <- getitem x1 (imin / length x2) ;;
        v2 <- getitem x2 (imin mod length x2) ;;
        feature_row v1 v2 (vsub v1 v2)) = Ok row
    /\ feature_row (nth (nth (idx / length cj) ci 0%nat) voxels [])
                   (nth (nth (idx mod length cj) cj 0%nat) voxels [])
                   (vsub (nth (nth (idx / length cj) ci 0%nat) voxels [])
                         (nth (nth (idx mod length cj) cj 0%nat) voxels [])) = Ok row
    /\ length (nth (nth (idx / length cj) ci 0%nat) voxels []) = 3%nat
    /\ length (nth (nth (idx mod length cj) cj 0%nat) voxels []) = 3%nat.
Proof.
  intros Hrows Hi Hj Hv1 Hv2 voxels.
  destruct (@edge_distance_argmin voxels clusts i j ci cj Hi Hj
              (valid_cluster_coords Hv1) (valid_cluster_coords Hv2))
    as (idx & Hidx & Hii & Hjj & _ & Hself).
  destruct Hv1 as [Hne1 Hin1]. destruct Hv2 as [Hne2 Hin2].
  assert (Hlen3 : forall c k, Forall (fun v => (v < length data)%nat) c ->
                              (k < length c)%nat ->
                              length (nth (nth k c 0%nat) voxels []) = 3%nat).
  { intros c k Hc Hk. rewrite Forall_forall in Hc.
    assert (Hv : (nth k c 0 < length data)%nat) by (apply Hc, nth_In, Hk).
    unfold voxels. rewrite (@nth_map_in _ _ (firstn 3) data _ [] []) by exact Hv.
    rewrite Forall_forall in Hrows. specialize (Hrows (nth (nth k c 0%nat) data [])).
    rewrite length_firstn. specialize (Hrows (nth_In _ _ Hv)). lia. }
  pose proof (Hlen3 ci _ Hin1 Hii) as Hl1. pose proof (Hlen3 cj _ Hin2 Hjj) as Hl2.
  destruct (@feature_row_total
              (nth (nth (idx / length cj) ci 0%nat) voxels [])
              (nth (nth (idx mod length cj) cj 0%nat) voxels [])
              (vsub (nth (nth (idx / length cj) ci 0%nat) voxels [])
                    (nth (nth (idx mod length cj) cj 0%nat) voxels [])))
    as (row & Hrow); [exact Hl1 | exact Hl2 | |].
  { unfold vsub. rewrite length_map, length_combine, Hl1, Hl2. reflexivity. }
  exists idx, row. split; [exact Hidx |]. split; [exact Hii |]. split; [exact Hjj |].
  split; [exact Hself |]. split; [| split; [exact Hrow | split; assumption]].
  apply getitem_Ok in Hi, Hj.
  rewrite Hi. cbn [bind]. rewrite (@coords_rows data ci Hin1). cbn [bind].
  rewrite Hj. cbn [bind]. rewrite (@coords_rows data cj Hin2). cbn [bind].
  fold voxels. rewrite Hidx. cbn [bind].
  assert (Hlx : length (rows_of voxels cj) = length cj)
    by (unfold rows_of; apply length_map).
  rewrite Hlx.
  rewrite (getitem_nth (rows_of voxels ci) [])
    by (unfold rows_of; rewrite length_map; exact Hii).
  cbn [bind].
  rewrite (getitem_nth (rows_of voxels cj) [])
    by (unfold rows_of; rewrite length_map; exact Hjj).
  cbn [bind]. unfold rows_of.
  rewrite (@nth_map_in _ _ _ ci _ 0%nat []) by exact Hii.
  rewrite (@nth_map_in _ _ _ cj _ 0%nat []) by exact Hjj.
  exact Hrow.
Qed.

End ClusterFeaturePoints.



(** ** The row of the cluster extractor in float32 *)

(** In float32, for the voxels (0,0,0) and (3,4,0), one cluster each, and
    the edge (0,1), [_get_cluster_edge_features] stores a row of 19
    entries with the distance 5 and the displacement
    (-10066330, -13421773, 0) in units of [2^-24], the float32 numbers
    nearest to -3/5 and -4/5. The sum of the squares of the displacement
    is 1 + 13421773 / 2^48, not 1; the diagonal of the block is
    (12079596, 21474838, 0) in units of [2^-25], and its trace is
    1 + 2^-24, above 1. *)
Theorem cluster_edge_features_float32_row :
  let data := map (map Float32.of_Z) [[0; 0; 0]; [3; 4; 0]]%Z in
  exists row,
    Float32._get_cluster_edge_features data [[0]; [1]] [(0, 1)] = Ok [row]
    /\ length row = 19
    /\ firstn 6 row = map Float32.of_Z [0; 0; 0; 3; 4; 0]%Z
    /\ nth 9 row Float32.zero = Float32.of_Z 5
    /\ map (Float32.units 24) (firstn 3 (skipn 6 row))
       = [Some (-10066330); Some (-13421773); Some 0]%Z
    /\ Float32.total_squares 24 (firstn 3 (skipn 6 row))
       = Some (2 ^ 48 + 13421773)%Z
    /\ map (Float32.units 25)
           [nth 10 row Float32.zero; nth 14 row Float32.zero; nth 18 row Float32.zero]
       = [Some 12079596; Some 21474838; Some 0]%Z
    /\ Float32.total 25
         [nth 10 row Float32.zero; nth 14 row Float32.zero; nth 18 row Float32.zero]
       = Some (2 ^ 25 + 2)%Z.
Proof.
  intro data. eexists. split; [vm_compute; reflexivity |].
  repeat split; vm_compute; reflexivity.
Qed.

(** ** The vectorised cluster extractor *)

Lemma length_concat_rows {A : Type} (c : nat) (M : list (list A)) :
  Forall (fun row => length row = c) M -> length (concat M) = length M * c.
Proof.
  induction 1 as [| row M Hrow _ IH]; simpl; [reflexivity |].
  rewrite length_app, IH, Hrow. reflexivity.
Qed.

Section VectorisedExtractor.

Import Geometry.
Local Open Scope R_scope.

Lemma valid_edges_coords (data : list (list R)) (clusts : list (list nat))
  (edge_index : list (nat * nat)) :
  valid_edges data clusts edge_index ->
  valid_edges (map (firstn 3) data) clusts edge_index.
Proof.
  unfold valid_edges. rewrite !Forall_forall. intros H e He.
  destruct (H e He) as (c1 & c2 & H1 & H2 & Hv1 & Hv2).
  exists c1, c2. auto using valid_cluster_coords.
Qed.

(** The voxel ids [_get_edge_distances] returns are ids of the voxel set. *)
Lemma get_edge_distances_ids (data : list (list R)) (clusts : list (list nat))
  (edge_index : list (nat * nat)) :
  valid_edges data clusts edge_index ->
  exists res,
    mapM (edge_distance (map (firstn 3) data) clusts) edge_index = Ok res
    /\ length res = length edge_index
    /\ Forall (fun v => (v < length data)%nat) (map (fun r => snd (fst r)) res)
    /\ Forall (fun v => (v < length data)%nat) (map snd res).
Proof.
  intro Hvalid.
  destruct (get_edge_distances_rows (valid_edges_coords Hvalid))
    as (res & Hres & Hlen & Hrows).
  exists res. split; [exact Hres |]. split; [exact Hlen |].
  unfold valid_edges in Hvalid. rewrite Forall_forall in Hvalid.
  assert (Hids : Forall (fun r : R * nat * nat =>
                           (snd (fst r) < length data)%nat /\ (snd r < length data)%nat)
                        res).
  { clear Hres Hlen. induction Hrows as [| [i j] r es rs Hr _ IH]; constructor.
    - destruct (Hvalid (i, j)) as (c1 & c2 & H1 & H2 & Hv1 & Hv2); [now left |].
      cbn [fst snd] in H1, H2.
      destruct (@edge_distance_spec (map (firstn 3) data) clusts _ _ _ _ H1 H2
                  (valid_cluster_coords Hv1) (valid_cluster_coords Hv2))
        as (d & v & w & Hd & Hv & Hw & _).
      rewrite Hd in Hr. inv_Ok Hr. cbn [fst snd].
      destruct Hv1 as [_ Hin1]. destruct Hv2 as [_ Hin2].
      rewrite Forall_forall in Hin1, Hin2. auto.
    - apply IH. intros e He. apply Hvalid. now right. }
  split; apply Forall_forall; intros v Hv; apply in_map_iff in Hv;
    destruct Hv as (r & <- & Hr); rewrite Forall_forall in Hids;
    now destruct (Hids _ Hr).
Qed.

Lemma broadcast9_long (v : list R) :
  (9 < length v)%nat ->
  broadcast9 v = Raise (ValueError "could not broadcast input array").
Proof.
  intro Hv. unfold broadcast9.
  destruct (Nat.eqb_spec (length v) 9) as [E | _]; [lia |].
  destruct v as [| x [| y v]]; simpl in Hv; try lia; reflexivity.
Qed.

(** Dividing by [lend + (lend == 0)] is the normalisation of the loop
    variant. *)
Lemma normalise_eq (disp : list R) :
  map (fun x => x / (norm disp + (if Req_dec_T (norm disp) 0 then 1 else 0))) disp
  = if Rlt_dec 0 (norm disp) then map (fun x => x / norm disp) disp else disp.
Proof.
  pose proof (norm_nonneg disp) as Hn.
  destruct (Req_dec_T (norm disp) 0) as [E | E]; destruct (Rlt_dec 0 (norm disp)) as [H | H];
    try lra.
  - rewrite E. rewrite <- (map_id disp) at 2. apply map_ext. intro x. field.
  - apply map_ext. intro x. f_equal. lra.
Qed.

Lemma rows_of_length3 (data : list (list R)) (ids : list nat) :
  Forall (fun row => (3 <= length row)%nat) data ->
  Forall (fun v => (v < length data)%nat) ids ->
  Forall (fun row => length row = 3%nat) (rows_of (map (firstn 3) data) ids).
Proof.
  intros Hrows Hids. unfold rows_of. apply Forall_forall. intros row Hrow.
  apply in_map_iff in Hrow. destruct Hrow as (v & <- & Hv).
  rewrite Forall_forall in Hids. specialize (Hids _ Hv).
  rewrite (@nth_map_in _ _ (firstn 3) data v [] []) by exact Hids.
  rewrite Forall_forall in Hrows. specialize (Hrows _ (nth_In data [] Hids)).
  rewrite length_firstn. lia.
Qed.

Lemma feature_row_length (p q disp row : list R) :
  feature_row p q disp = Ok row -> length row = 19%nat.
Proof.
  unfold feature_row. cbv zeta.
  match goal with |- (if ?c then _ else _) = _ -> _ => destruct c eqn:E end;
    [| discriminate].
  intro H. inv_Ok H. now apply Nat.eqb_eq.
Qed.

End VectorisedExtractor.

(** With two edges or more, on input the loop variant handles,
    [_get_cluster_edge_features_vec] raises: [np.outer] takes the whole
    array of displacements, and its [9 E^2] entries do not fit the 9
    entries of a row of [B]. *)
Theorem cluster_edge_features_vec_fails (data : list (list R))
  (clusts : list (list nat)) (edge_index : list (nat * nat)) :
  Forall (fun row => 3 <= length row) data ->
  valid_edges data clusts edge_index ->
  2 <= length edge_index ->
  Geometry._get_cluster_edge_features_vec data clusts edge_index
  = Raise (ValueError "could not broadcast input array").
Proof.
  intros Hrows Hvalid Hlen.
  destruct (get_edge_distances_ids Hvalid) as (res & Hres & Hlres & Hids1 & Hids2).
  unfold Geometry._get_cluster_edge_features_vec, Geometry._get_edge_distances.
  rewrite Hres. cbn [bind fst snd].
  rewrite (@coords_rows data _ Hids1). cbn [bind].
  rewrite (@coords_rows data _ Hids2). cbn [bind].
  pose proof (rows_of_length3 Hrows Hids1) as H1.
  pose proof (rows_of_length3 Hrows Hids2) as H2.
  set (v1 := rows_of (map (firstn 3) data) (map (fun r => snd (fst r)) res)) in *.
  set (v2 := rows_of (map (firstn 3) data) (map snd res)) in *.
  assert (Hl1 : length v1 = length edge_index)
    by (unfold v1, rows_of; now rewrite !length_map).
  assert (Hl2 : length v2 = length edge_index)
    by (unfold v2, rows_of; now rewrite !length_map).
  match goal with
  | |- bind (mapM _ (range (length ?d))) _ = _ => set (disp := d)
  end.
  assert (Hld : length disp = length edge_index).
  { unfold disp. rewrite length_map, length_combine, !length_map, length_combine.
    rewrite Hl1, Hl2, Hlres. lia. }
  assert (Hd3 : Forall (fun row => length row = 3) disp).
  { unfold disp. apply Forall_forall. intros row Hrow.
    apply in_map_iff in Hrow. destruct Hrow as ([d l] & <- & Hdl).
    apply in_combine_l in Hdl. apply in_map_iff in Hdl.
    destruct Hdl as ([p q] & <- & Hpq). cbn [fst snd].
    rewrite length_map. unfold Geometry.vsub. rewrite length_map, length_combine.
    rewrite Forall_forall in H1, H2.
    rewrite (H1 _ (in_combine_l _ _ _ _ Hpq)), (H2 _ (in_combine_r _ _ _ _ Hpq)).
    reflexivity. }
  rewrite Hld. destruct (length edge_index) as [| n] eqn:En; [lia |].
  unfold range. cbn [seq mapM].
  rewrite broadcast9_long; [reflexivity |].
  rewrite length_outer, (length_concat_rows Hd3), Hld. nia.
Qed.

Lemma cluster_edge_features_vec_fails_witness :
  Geometry._get_cluster_edge_features_vec [[0; 0; 0]; [3; 4; 0]; [9; 9; 9]]%R
                                          [[0]; [1; 2]] [(0, 1); (1, 1)]
  = Raise (ValueError "could not broadcast input array").
Proof.
  apply cluster_edge_features_vec_fails.
  - repeat constructor; simpl; lia.
  - repeat constructor.
    + exists [0], [1; 2]. simpl.
      repeat split; try discriminate; repeat constructor; simpl; lia.
    + exists [1; 2], [1; 2]. simpl.
      repeat split; try discriminate; repeat constructor; simpl; lia.
  - simpl. lia.
Defined.

(** With at most one edge, on voxel rows of three coordinates or more and
    clusters that are not empty, [_get_cluster_edge_features_vec] returns
    as [_get_cluster_edge_features] does, one row of 19 entries per edge,
    and the two points of its row are those of the row of the loop variant: the
    shortcut of [_get_edge_distances] for an edge from a cluster to itself
    names the pair the search of the loop variant finds. The distance,
    which the vectorised variant takes from the float32 lengths of
    [_get_edge_distances], and what is derived from it are left out. *)
Theorem cluster_edge_features_vec_single_edge (data : list (list R))
  (clusts : list (list nat)) (edge_index : list (nat * nat)) :
  Forall (fun row => 3 <= length row) data ->
  valid_edges data clusts edge_index ->
  length edge_index <= 1 ->
  exists feats feats_vec,
    Geometry._get_cluster_edge_features data clusts edge_index = Ok feats
    /\ Geometry._get_cluster_edge_features_vec data clusts edge_index = Ok feats_vec
    /\ length feats = length edge_index
    /\ length feats_vec = length edge_index
    /\ Forall (fun row => length row = 19) feats_vec
    /\ forall k, k < length edge_index ->
                 cpa1 (nth k feats_vec []) = cpa1 (nth k feats [])
                 /\ cpa2 (nth k feats_vec []) = cpa2 (nth k feats []).
Proof.
  intros Hrows Hvalid Hlen.
  assert (Hboth : exists feats,
             Geometry._get_cluster_edge_features data clusts edge_index = Ok feats
             /\ Geometry._get_cluster_edge_features_vec data clusts edge_index
                = Ok feats
             /\ length feats = length edge_index
             /\ Forall (fun row => length row = 19) feats).
  { destruct edge_index as [| [i j] [| e2 rest]]; simpl in Hlen; [| | lia].
    - exists []. repeat split; reflexivity || constructor.
    - unfold valid_edges in Hvalid. inversion Hvalid as [| e es He _]; subst.
      destruct He as (c1 & c2 & H1 & H2 & Hv1 & Hv2). cbn [fst snd] in H1, H2.
      destruct (@cluster_edge_row data clusts i j c1 c2 Hrows H1 H2 Hv1 Hv2)
        as (idx & row & Hidx & Hii & Hjj & _ & Hbody & Hfr & Hl1 & Hl2).
      destruct (@edge_distance_argmin (map (firstn 3) data) clusts i j c1 c2 H1 H2
                  (valid_cluster_coords Hv1) (valid_cluster_coords Hv2))
        as (idx' & Hidx' & _ & _ & Hed & _).
      assert (idx' = idx) by congruence. subst idx'.
      set (voxels := map (firstn 3) data) in *.
      set (v := nth (idx / length c2) c1 0) in *.
      set (w := nth (idx mod length c2) c2 0) in *.
      destruct Hv1 as [_ Hin1]. destruct Hv2 as [_ Hin2].
      assert (Hv : v < length data).
      { rewrite Forall_forall in Hin1. apply Hin1, nth_In, Hii. }
      assert (Hw : w < length data).
      { rewrite Forall_forall in Hin2. apply Hin2, nth_In, Hjj. }
      exists [row].
      split; [| split; [| split; [reflexivity
                                 | apply Forall_cons;
                                   [exact (@feature_row_length _ _ _ _ Hfr) | apply Forall_nil]]]].
      + unfold Geometry._get_cluster_edge_features.
        cbn [bind Numba.concatenate_argument mapM fst snd].
        cbv zeta. rewrite Hbody. reflexivity.
      + unfold Geometry._get_cluster_edge_features_vec, Geometry._get_edge_distances.
        cbn [mapM]. fold voxels. rewrite Hed. cbn [bind map fst snd].
        rewrite (@coords_rows data [v]) by (repeat constructor; exact Hv). cbn [bind].
        rewrite (@coords_rows data [w]) by (repeat constructor; exact Hw). cbn [bind].
        fold voxels. unfold rows_of, pair_distance.
        cbn [map combine fst snd nth length].
        rewrite normalise_eq.
        unfold Geometry.feature_row in Hfr. revert Hfr.
        set (p := nth v voxels []) in *. set (q := nth w voxels []) in *.
        set (dn := if Rlt_dec 0 (Geometry.norm (Geometry.vsub p q))
                   then map (fun x => (x / Geometry.norm (Geometry.vsub p q))%R)
                            (Geometry.vsub p q)
                   else Geometry.vsub p q).
        cbv zeta.
        match goal with |- (if ?c then _ else _) = _ -> _ => destruct c eqn:E19 end;
          [| discriminate].
        intro Hfr. inv_Ok Hfr.
        assert (Hdn : length dn = 3).
        { unfold dn. destruct (Rlt_dec 0 (Geometry.norm (Geometry.vsub p q)));
            [rewrite length_map |]; unfold Geometry.vsub;
            rewrite length_map, length_combine, Hl1, Hl2; reflexivity. }
        unfold range. cbn [seq mapM concat]. rewrite app_nil_r.
        unfold Geometry.broadcast9. rewrite length_outer, Hdn. cbn [Nat.mul Nat.add Nat.eqb].
        cbn [bind]. unfold Geometry.hstack.
        cbn [forallb length Nat.eqb andb fold_left map combine fst snd].
        rewrite <- !app_assoc. reflexivity.
  }
  destruct Hboth as (feats & Hloop & Hvec & Hl & H19).
  exists feats, feats. repeat split; assumption || reflexivity.
Qed.

Lemma cluster_edge_features_vec_single_edge_witness :
  let data := [[0; 0; 0]; [3; 4; 0]; [9; 9; 9]]%R in
  exists feats feats_vec,
    Geometry._get_cluster_edge_features data [[0]; [1; 2]] [(0, 1)] = Ok feats
    /\ Geometry._get_cluster_edge_features_vec data [[0]; [1; 2]] [(0, 1)]
       = Ok feats_vec
    /\ cpa1 (nth 0 feats_vec []) = cpa1 (nth 0 feats [])
    /\ cpa2 (nth 0 feats_vec []) = cpa2 (nth 0 feats []).
Proof.
  intro data.
  destruct (@cluster_edge_features_vec_single_edge data [[0]; [1; 2]] [(0, 1)])
    as (feats & feats_vec & Hloop & Hvec & _ & _ & _ & Hpts).
  - repeat constructor; simpl; lia.
  - repeat constructor. exists [0], [1; 2]. simpl.
    repeat split; try discriminate; repeat constructor; simpl; lia.
  - simpl. lia.
  - exists feats, feats_vec. split; [exact Hloop |]. split; [exact Hvec |].
    apply Hpts. simpl. lia.
Defined.

(** ** The voxel extractor and the direction of an edge *)

Lemma mapM_pointwise {A B : Type} (f g : A -> result B) (h : A -> A) (r : B -> B)
  (xs : list A) :
  (forall x, In x xs -> exists y, f x = Ok y /\ g (h x) = Ok (r y)) ->
  exists ys, mapM f xs = Ok ys /\ mapM g (map h xs) = Ok (map r ys).
Proof.
  induction xs as [| x xs IH]; intro H; simpl.
  - exists []. split; reflexivity.
  - destruct (H x) as (y & Hf & Hg); [now left |].
    destruct IH as (ys & Hfs & Hgs); [intros; apply H; now right |].
    exists (y :: ys). rewrite Hf, Hg. cbn [bind]. rewrite Hfs, Hgs. split; reflexivity.
Qed.

Section VoxelFeatures.

Import Geometry.
Local Open Scope R_scope.

Ltac list_eq :=
  repeat match goal with
         | |- Ok _ = Ok _ => apply f_equal
         | |- _ :: _ = _ :: _ => apply f_equal2
         | |- [] = [] => reflexivity
         end.

Lemma feature_row_reversed (xi xj : list R) :
  length xi = 3%nat -> length xj = 3%nat ->
  exists row, feature_row xi xj (vsub xj xi) = Ok row
              /\ feature_row xj xi (vsub xi xj) = Ok (reverse_row row).
Proof.
  intros Hi Hj.
  destruct xi as [| a1 [| a2 [| a3 [| ? ?]]]]; try discriminate.
  destruct xj as [| b1 [| b2 [| b3 [| ? ?]]]]; try discriminate.
  unfold feature_row, vsub. cbn [combine map fst snd].
  assert (Hsym : norm [a1 - b1; a2 - b2; a3 - b3] = norm [b1 - a1; b2 - a2; b3 - a3])
    by (rewrite !norm3; f_equal; ring).
  rewrite Hsym. set (n := norm [b1 - a1; b2 - a2; b3 - a3]).
  destruct (Rlt_dec 0 n) as [Hn | Hn]; cbn [map outer concat app length Nat.eqb];
    eexists; (split; [reflexivity |]);
    unfold reverse_row, cpa1, cpa2, displacement, distance, block;
    cbn [firstn skipn nth app map]; list_eq; first [ring | field; lra].
Qed.

Lemma feature_row_self (x : list R) :
  length x = 3%nat ->
  feature_row x x (vsub x x) = Ok (x ++ x ++ [0; 0; 0] ++ [0] ++ repeat 0 9).
Proof.
  intro Hx. destruct x as [| a [| b [| c [| ? ?]]]]; try discriminate.
  unfold feature_row. rewrite norm_vsub_self.
  destruct (Rlt_dec 0 0) as [H | _]; [lra |].
  unfold vsub. cbn [combine map fst snd outer concat app length Nat.eqb repeat].
  list_eq; ring.
Qed.

Lemma voxel_row_length (data : list (list R)) (i : nat) :
  Forall (fun row => (3 <= length row)%nat) data -> (i < length data)%nat ->
  getitem data i = Ok (nth i data []) /\ length (firstn 3 (nth i data [])) = 3%nat.
Proof.
  intros Hrows Hi. split; [now apply getitem_nth |].
  rewrite Forall_forall in Hrows. specialize (Hrows _ (nth_In data [] Hi)).
  rewrite length_firstn. lia.
Qed.

End VoxelFeatures.

(** The loop of [_get_voxel_edge_features], which only a run as plain
    Python reaches: reversing every edge swaps the two points of each row
    it stores and negates the displacement; the distance and the
    orientation block are those of the edge as given. *)
Theorem voxel_edge_rows_reversed (data : list (list R))
  (edge_index : list (nat * nat)) :
  Forall (fun row => 3 <= length row) data ->
  valid_voxel_edges data edge_index ->
  exists feats,
    Geometry.voxel_edge_rows data edge_index = Ok feats
    /\ Geometry.voxel_edge_rows data (Np.flip edge_index)
       = Ok (map reverse_row feats).
Proof.
  intros Hrows Hvalid. unfold valid_voxel_edges in Hvalid.
  rewrite Forall_forall in Hvalid.
  unfold Geometry.voxel_edge_rows, Np.flip.
  apply mapM_pointwise. intros [i j] He.
  destruct (Hvalid _ He) as [Hi Hj]. cbn [fst snd] in *.
  destruct (voxel_row_length Hrows Hi) as [Hgi Hli].
  destruct (voxel_row_length Hrows Hj) as [Hgj Hlj].
  rewrite Hgi, Hgj. cbn [bind]. now apply feature_row_reversed.
Qed.

Lemma voxel_edge_rows_reversed_witness :
  exists feats,
    Geometry.voxel_edge_rows [[0; 0; 0]; [3; 4; 0]]%R [(0, 1)] = Ok feats
    /\ Geometry.voxel_edge_rows [[0; 0; 0]; [3; 4; 0]]%R [(1, 0)]
       = Ok (map reverse_row feats).
Proof.
  apply (@voxel_edge_rows_reversed [[0; 0; 0]; [3; 4; 0]]%R [(0, 1)]).
  - repeat constructor; simpl; lia.
  - repeat constructor; simpl; lia.
Defined.

(** The loop of [_get_voxel_edge_features], which only a run as plain
    Python reaches: for an edge from a voxel to itself it stores the voxel
    twice, then zeros only: no displacement, no distance, and a null
    orientation block. *)
Theorem voxel_edge_rows_self_loop (data : list (list R))
  (edge_index : list (nat * nat)) :
  Forall (fun row => 3 <= length row) data ->
  valid_voxel_edges data edge_index ->
  exists feats,
    Geometry.voxel_edge_rows data edge_index = Ok feats
    /\ forall k i, nth_error edge_index k = Some (i, i) ->
                   nth k feats []
                   = firstn 3 (nth i data []) ++ firstn 3 (nth i data [])
                     ++ repeat 0%R 13.
Proof.
  intros Hrows Hvalid. unfold valid_voxel_edges in Hvalid.
  rewrite Forall_forall in Hvalid.
  unfold Geometry.voxel_edge_rows.
  match goal with |- exists feats, mapM ?f _ = _ /\ _ => set (body := f) end.
  destruct (@mapM_total_ex _ _ body edge_index) as (feats & Hf).
  { intros [i j] He. destruct (Hvalid _ He) as [Hi Hj]. cbn [fst snd] in *.
    destruct (voxel_row_length Hrows Hi) as [Hgi Hli].
    destruct (voxel_row_length Hrows Hj) as [Hgj Hlj].
    unfold body. cbn [fst snd]. rewrite Hgi, Hgj. cbn [bind].
    destruct (@feature_row_reversed _ _ Hli Hlj) as (row & Hrow & _). eauto. }
  exists feats. split; [exact Hf |]. intros k i Hk.
  pose proof (@Forall2_nth_error _ _ _ _ _ k (i, i) [] (mapM_Ok _ _ Hf) Hk) as Hrow.
  destruct (Hvalid _ (nth_error_In _ _ Hk)) as [Hi _]. cbn [fst] in Hi.
  destruct (voxel_row_length Hrows Hi) as [Hgi Hli].
  unfold body in Hrow. cbn [fst snd] in Hrow. rewrite Hgi in Hrow. cbn [bind] in Hrow.
  rewrite (@feature_row_self _ Hli) in Hrow. injection Hrow as Hrow.
  rewrite <- Hrow. reflexivity.
Qed.

Lemma voxel_edge_rows_self_loop_witness :
  exists feats,
    Geometry.voxel_edge_rows [[0; 0; 0]; [3; 4; 0]]%R [(1, 1)] = Ok feats
    /\ nth 0 feats [] = ([3; 4; 0] ++ [3; 4; 0] ++ repeat 0 13)%R.
Proof.
  destruct (@voxel_edge_rows_self_loop [[0; 0; 0]; [3; 4; 0]]%R [(1, 1)])
    as (feats & Hf & Hrow).
  - repeat constructor; simpl; lia.
  - repeat constructor; simpl; lia.
  - exists feats. split; [exact Hf |]. exact (Hrow 0 1 eq_refl).
Defined.

(** ** delaunay_graph: clusters that share a simplex *)

Lemma for_union {A S T : Type} (Q : S -> T -> Prop) (G : A -> T -> Prop)
  (body : S -> A -> result S) (xs : list A) (s s' : S) :
  for_ xs s body = Ok s' ->
  (forall s0 x s1, In x xs -> body s0 x = Ok s1 ->
                   forall e, Q s1 e <-> Q s0 e \/ G x e) ->
  forall e, Q s' e <-> Q s e \/ exists x, In x xs /\ G x e.
Proof.
  revert s. induction xs as [| x xs IH]; simpl; intros s H Hstep e.
  - inv_Ok H. split; [auto | intros [Hq | (x & [] & _)]; exact Hq].
  - inv_bind H. rewrite (IH _ H) by (intros; eapply Hstep; eauto).
    rewrite (Hstep s x x0 (or_introl eq_refl) E). split.
    + intros [[Hq | Hg] | (y & Hy & Hg)]; eauto.
    + intros [Hq | (y & [<- | Hy] & Hg)]; eauto.
Qed.

Lemma setitem_nth_error {A : Type} (l l' : list A) (i : nat) (v : A) :
  setitem l i v = Ok l' ->
  forall k, nth_error l' k = if k =? i then Some v else nth_error l k.
Proof.
  revert l' i. induction l as [| h t IH]; intros l' i H k; [discriminate |].
  destruct i as [| i]; simpl in H.
  - inv_Ok H. destruct k; reflexivity.
  - inv_bind H. inv_Ok H. destruct k as [| k]; [reflexivity |]. simpl. now apply IH.
Qed.

Lemma setitem2_true (adj adj' : list (list bool)) (i j : nat) :
  Np.setitem2 adj i j true = Ok adj' ->
  forall x y, adj_at adj' x y <-> adj_at adj x y \/ (x = i /\ y = j).
Proof.
  unfold Np.setitem2. intro H. do 2 inv_bind H. apply getitem_Ok in E.
  pose proof (setitem_nth_error _ _ _ E0) as Hrow.
  pose proof (setitem_nth_error _ _ _ H) as Hadj.
  intros a b. unfold adj_at. rewrite Hadj.
  destruct (Nat.eqb_spec a i) as [-> | Hne].
  - split.
    + intros (row & Hr & Hb). injection Hr as <-. rewrite Hrow in Hb. revert Hb.
      destruct (Nat.eqb_spec b j) as [Hbj | Hbj]; intro Hb; [right; auto | left; eauto].
    + intros [(row & Hr & Hb) | [_ ->]].
      * exists x0. split; [reflexivity |]. rewrite Hrow.
        destruct (b =? j); [reflexivity | congruence].
      * exists x0. split; [reflexivity |]. rewrite Hrow, Nat.eqb_refl. reflexivity.
  - split; [intros (row & Hr & Hb); left; eauto |].
    intros [Hq | [Ha _]]; [exact Hq | contradiction].
Qed.

Lemma adj_at_zeros (m x y : nat) : ~ adj_at (repeat (repeat false m) m) x y.
Proof.
  intros (row & Hr & Hb). apply nth_error_In in Hr. apply repeat_spec in Hr. subst row.
  apply nth_error_In in Hb. apply repeat_spec in Hb. discriminate.
Qed.

Lemma in_where2 (adj : list (list bool)) (x y : nat) :
  In (x, y) (Np.where2 adj) <-> adj_at adj x y.
Proof.
  unfold Np.where2, adj_at. rewrite in_flat_map. split.
  - intros ([i row] & Hir & Hin). apply in_enumerate in Hir.
    apply in_map_iff in Hin. destruct Hin as (c & Hc & Hin).
    cbn [fst snd] in *. injection Hc as <- <-.
    apply in_where in Hin. destruct Hin as (v & Hv & Hb). subst v. eauto.
  - intros (row & Hr & Hb). exists (x, row). split; [now apply in_enumerate |].
    apply in_map_iff. exists y. split; [reflexivity |].
    apply in_where. eauto.
Qed.

Lemma mapM_In_image {A B : Type} (f : A -> result B) (xs : list A) (ys : list B) (x : A) :
  mapM f xs = Ok ys -> In x xs -> exists y, In y ys /\ f x = Ok y.
Proof.
  intro H. apply mapM_Ok in H. induction H as [| x' y' xs ys Hxy _ IH]; simpl.
  - tauto.
  - intros [<- | Hin]; [eauto |]. destruct (IH Hin) as (y & Hy & Hf). eauto.
Qed.

Lemma in_to_cluster_ids (clust_ids : list nat) (es es' : list (nat * nat)) (a c : nat) :
  to_cluster_ids clust_ids es = Ok es' ->
  In (a, c) es' <->
  exists x y, In (x, y) es /\ nth_error clust_ids x = Some a
              /\ nth_error clust_ids y = Some c.
Proof.
  intro H. unfold to_cluster_ids in H. split.
  - intro Hin. destruct (mapM_In _ _ _ H Hin) as ([x y] & Hxy & He).
    cbn [fst snd] in He. do 2 inv_bind He. injection He as <- <-.
    apply getitem_Ok in E, E0. eauto.
  - intros (x & y & Hxy & Hx & Hy).
    destruct (mapM_In_image _ _ _ H Hxy) as (e & He & Hf).
    cbn [fst snd] in Hf. apply getitem_Ok in Hx, Hy. rewrite Hx, Hy in Hf.
    cbn [bind] in Hf. now injection Hf as <-.
Qed.

Lemma mapM_getitem_nth {A : Type} (l : list A) (ids : list nat) (ys : list A) (d : A) :
  mapM (getitem l) ids = Ok ys -> ys = map (fun i => nth i l d) ids.
Proof.
  revert ys. induction ids as [| i ids IH]; simpl; intros ys H.
  - now inv_Ok H.
  - do 2 inv_bind H. inv_Ok H. apply getitem_Ok in E.
    rewrite (nth_error_nth _ _ d E). f_equal. now apply IH.
Qed.

Lemma mapM_points {F : Type} (data : list (list F)) (mask : list nat)
  (points : list (list F)) :
  mapM (fun v => row <- getitem data v ;; Ok (firstn 3 row)) mask = Ok points ->
  points = map (fun v => firstn 3 (nth v data [])) mask.
Proof.
  revert points. induction mask as [| v mask IH]; simpl; intros points H.
  - now inv_Ok H.
  - do 2 inv_bind H. inv_Ok H. inv_bind E. inv_Ok E.
    match goal with
    | Hg : getitem data v = Ok _ |- _ =>
        apply getitem_Ok in Hg; rewrite (nth_error_nth _ _ [] Hg)
    end.
    f_equal. now apply IH.
Qed.

Section DelaunaySimplices.

Context {F : Type} {DT : Dtype F} {RT : Runtime F}.

(** The edges one batch adds: the pairs of clusters that own two vertices
    of one simplex, the cluster of lower rank first. *)
Lemma delaunay_batch (data : list (list F)) (clusts : list (list nat))
  (batch_ids : list Z) (b : Z) (ret ret' : list (nat * nat)) :
  (let clust_ids := clusters_of batch_ids b in
   members <- mapM (getitem clusts) clust_ids ;;
   let mask := concat members in
   let labels :=
     concat (map (fun ic => repeat (fst ic) (length (snd ic)))
                 (enumerate members)) in
   points <- mapM (fun v => row <- getitem data v ;; Ok (firstn 3 row)) mask ;;
   tri <- Delaunay points ;;
   let m := length clust_ids in
   adj_mat <- for_ tri (repeat (repeat false m) m)
     (fun adj s =>
        for_ s adj (fun adj i =>
          for_ s adj (fun adj j =>
            lj <- getitem labels j ;;
            li <- getitem labels i ;;
            if (li <? lj)%nat then Np.setitem2 adj li lj true else Ok adj))) ;;
   edges <- to_cluster_ids clust_ids (Np.where2 adj_mat) ;;
   Ok (ret ++ edges)) = Ok ret' ->
  forall a c,
    In (a, c) ret' <->
    In (a, c) ret
    \/ exists tri s p q lp lq,
         Delaunay (batch_points data clusts batch_ids b) = Ok tri
         /\ In s tri /\ In p s /\ In q s
         /\ nth_error (batch_labels clusts batch_ids b) p = Some lp
         /\ nth_error (batch_labels clusts batch_ids b) q = Some lq
         /\ lp < lq
         /\ nth_error (clusters_of batch_ids b) lp = Some a
         /\ nth_error (clusters_of batch_ids b) lq = Some c.
Proof.
  cbv zeta. intro H. do 5 inv_bind H. inv_Ok H.
  rename x into members, x0 into points, x1 into tri, x2 into adj, x3 into edges.
  apply (mapM_getitem_nth _ _ []) in E. fold (batch_members clusts batch_ids b) in E.
  subst members. apply mapM_points in E0.
  fold (batch_points data clusts batch_ids b) in E0. subst points.
  fold (batch_labels clusts batch_ids b) in E2.
  set (labels := batch_labels clusts batch_ids b) in *.
  assert (Hadj : forall x y,
             adj_at adj x y <->
             exists s, In s tri /\ exists p, In p s /\ exists q, In q s
               /\ nth_error labels p = Some x /\ nth_error labels q = Some y /\ x < y).
  { assert (Hall : forall e : nat * nat,
               adj_at adj (fst e) (snd e) <->
               adj_at (repeat (repeat false (length (clusters_of batch_ids b)))
                              (length (clusters_of batch_ids b))) (fst e) (snd e)
               \/ exists s, In s tri /\ exists p, In p s /\ exists q, In q s
                    /\ nth_error labels p = Some (fst e)
                    /\ nth_error labels q = Some (snd e) /\ fst e < snd e).
    { apply (@for_union _ _ (nat * nat) (fun adj e => adj_at adj (fst e) (snd e))
               (fun s e => exists p, In p s /\ exists q, In q s
                  /\ nth_error labels p = Some (fst e)
                  /\ nth_error labels q = Some (snd e) /\ fst e < snd e)
               _ _ _ _ E2).
      intros adj0 s adj1 _ Hs.
      apply (@for_union _ _ (nat * nat) (fun adj e => adj_at adj (fst e) (snd e))
               (fun p e => exists q, In q s
                  /\ nth_error labels p = Some (fst e)
                  /\ nth_error labels q = Some (snd e) /\ fst e < snd e)
               _ _ _ _ Hs).
      intros adj2 p adj3 _ Hq.
      apply (@for_union _ _ (nat * nat) (fun adj e => adj_at adj (fst e) (snd e))
               (fun q e => nth_error labels p = Some (fst e)
                  /\ nth_error labels q = Some (snd e) /\ fst e < snd e)
               _ _ _ _ Hq).
      intros adj4 q adj5 _ Hset [x' y']. cbn [fst snd].
      apply bind_Ok in Hset. destruct Hset as (lj & Elj & Hset).
      apply bind_Ok in Hset. destruct Hset as (li & Eli & Hset).
      apply getitem_Ok in Elj, Eli.
      destruct (Nat.ltb_spec li lj) as [Hlt | Hge].
      + rewrite (setitem2_true _ _ _ Hset). split.
        * intros [Hz | [-> ->]]; [auto | right; auto].
        * intros [Hz | (Hp' & Hq' & _)]; [auto |]. right. split; congruence.
      + inv_Ok Hset. split; [auto |].
        intros [Hz | (Hp' & Hq' & Hlt)]; [exact Hz |].
        rewrite Eli in Hp'. rewrite Elj in Hq'.
        injection Hp' as <-. injection Hq' as <-. lia. }
    intros x y. rewrite (Hall (x, y)). cbn [fst snd].
    split; [intros [Hz | Hs]; [now apply adj_at_zeros in Hz | exact Hs] | auto]. }
  intros a c. rewrite in_app_iff, (@in_to_cluster_ids _ _ _ a c E3). split.
  - intros [Hr | (x & y & Hxy & Hx & Hy)]; [auto | right].
    apply in_where2, Hadj in Hxy. destruct Hxy as (s & Hs & p & Hp & q & Hq & Hlp & Hlq & Hlt).
    exists tri, s, p, q, x, y. auto 10.
  - intros [Hr | (tri' & s & p & q & lp & lq & Htri & Hs & Hp & Hq & Hlp & Hlq & Hlt & Ha & Hc)];
      [auto | right].
    assert (tri' = tri) by congruence. subst tri'.
    exists lp, lq. split; [| auto]. apply in_where2, Hadj. eauto 10.
Qed.

End DelaunaySimplices.

(** Without a threshold, when [delaunay_graph] returns, two clusters are
    joined exactly when they are distinct clusters of one batch and some
    simplex of the triangulation of that batch has a vertex in each; the
    edge is then there in both directions. *)
Theorem delaunay_graph_shares_simplex {F : Type} {DT : Dtype F} {RT : Runtime F}
  (data : list (list F)) (clusts : list (list nat)) (batch_ids : list Z)
  (dist_mat : option (list (list F))) (max_dist : F) (m : list nat * list nat) :
  ltb minus_one max_dist = false ->
  delaunay_graph data clusts batch_ids dist_mat max_dist = Ok m ->
  forall a c,
    In (a, c) (Np.edges m) <->
    a <> c
    /\ exists b tri s p q,
         In b batch_ids
         /\ Delaunay (batch_points data clusts batch_ids b) = Ok tri
         /\ In s tri /\ In p s /\ In q s
         /\ point_cluster clusts batch_ids b p = Some a
         /\ point_cluster clusts batch_ids b q = Some c.
Proof.
  intros Hno H. unfold delaunay_graph in H.
  apply bind_Ok in H. destruct H as (ret & Hloop & H).
  apply bind_Ok in H. destruct H as (ret' & Hprune & H). inv_Ok H.
  unfold prune in Hprune. rewrite Hno in Hprune. inv_Ok Hprune.
  assert (Hret : forall e : nat * nat,
             In e ret' <->
             In e []
             \/ exists b, In b (Np.unique batch_ids)
                  /\ exists tri s p q lp lq,
                       Delaunay (batch_points data clusts batch_ids b) = Ok tri
                       /\ In s tri /\ In p s /\ In q s
                       /\ nth_error (batch_labels clusts batch_ids b) p = Some lp
                       /\ nth_error (batch_labels clusts batch_ids b) q = Some lq
                       /\ lp < lq
                       /\ nth_error (clusters_of batch_ids b) lp = Some (fst e)
                       /\ nth_error (clusters_of batch_ids b) lq = Some (snd e)).
  { apply (@for_union _ _ (nat * nat) (fun ret e => In e ret)
             (fun b e => exists tri s p q lp lq,
                  Delaunay (batch_points data clusts batch_ids b) = Ok tri
                  /\ In s tri /\ In p s /\ In q s
                  /\ nth_error (batch_labels clusts batch_ids b) p = Some lp
                  /\ nth_error (batch_labels clusts batch_ids b) q = Some lq
                  /\ lp < lq
                  /\ nth_error (clusters_of batch_ids b) lp = Some (fst e)
                  /\ nth_error (clusters_of batch_ids b) lq = Some (snd e))
             _ _ _ _ Hloop).
    intros ret0 b ret1 _ Hbody [a c]. cbn [fst snd].
    exact (@delaunay_batch F RT data clusts batch_ids b ret0 ret1 Hbody a c). }
  assert (Hinj : forall b lp lq a,
             nth_error (clusters_of batch_ids b) lp = Some a ->
             nth_error (clusters_of batch_ids b) lq = Some a -> lp = lq).
  { intros b lp lq a Hp Hq.
    pose proof (NoDup_where (fun x => (x =? b)%Z) batch_ids) as Hnd.
    fold (clusters_of batch_ids b) in Hnd.
    rewrite NoDup_nth_error in Hnd. apply Hnd; [| congruence].
    apply nth_error_Some. congruence. }
  intros a c. rewrite edges_T, in_add_reciprocal, (Hret (a, c)), (Hret (c, a)).
  cbn [fst snd]. split.
  - intros [[[] | (b & Hb & tri & s & p & q & lp & lq & Ht & Hs & Hp & Hq & Hlp & Hlq & Hlt
                   & Ha & Hc)]
           | [[] | (b & Hb & tri & s & p & q & lp & lq & Ht & Hs & Hp & Hq & Hlp & Hlq & Hlt
                     & Hc & Ha)]];
      (split; [intros ->; pose proof (Hinj _ _ _ _ Ha Hc); lia |]);
      apply (proj1 (in_unique _ _)) in Hb.
    + exists b, tri, s, p, q. unfold point_cluster. rewrite Hlp, Hlq.
      repeat split; assumption.
    + exists b, tri, s, q, p. unfold point_cluster. rewrite Hlp, Hlq.
      repeat split; assumption.
  - intros (Hne & b & tri & s & p & q & Hb & Ht & Hs & Hp & Hq & Ha & Hc).
    apply (proj2 (in_unique _ _)) in Hb. unfold point_cluster in Ha, Hc.
    destruct (nth_error (batch_labels clusts batch_ids b) p) as [lp |] eqn:Hlp;
      [| discriminate].
    destruct (nth_error (batch_labels clusts batch_ids b) q) as [lq |] eqn:Hlq;
      [| discriminate].
    destruct (Nat.lt_total lp lq) as [Hlt | [Heq | Hgt]].
    + left. right. exists b. split; [exact Hb |]. exists tri, s, p, q, lp, lq.
      repeat split; assumption.
    + subst lq. congruence.
    + right. right. exists b. split; [exact Hb |]. exists tri, s, q, p, lq, lp.
      repeat split; assumption.
Qed.

Lemma delaunay_graph_shares_simplex_witness :
  let data := [[0; 0; 0]; [1; 0; 0]; [0; 1; 0]; [0; 0; 1]]%float in
  let clusts := [[0; 1]; [2]; [3]] in
  In (2, 0) (Np.edges ([0; 0; 1; 1; 2; 2], [1; 2; 2; 0; 0; 1])) <->
  2 <> 0
  /\ exists b tri s p q,
       In b [0; 0; 0]%Z
       /\ Delaunay (Runtime := Concrete.runtime)
                   (batch_points data clusts [0; 0; 0]%Z b) = Ok tri
       /\ In s tri /\ In p s /\ In q s
       /\ point_cluster clusts [0; 0; 0]%Z b p = Some 2
       /\ point_cluster clusts [0; 0; 0]%Z b q = Some 0.
Proof.
  intros data clusts.
  apply (@delaunay_graph_shares_simplex float float64 Concrete.runtime data clusts
           [0; 0; 0]%Z None (-1)%float); reflexivity.
Defined.

(** ** bipartite_graph with a threshold *)

(** With a threshold and a distance matrix that covers the clusters,
    [bipartite_graph] keeps the pairs (primary, non-primary) of one batch
    whose entry [dist_mat[primary, secondary]] is strictly below the
    threshold: the entry is read with the primary as the row, whichever
    of the two indices is the larger. *)
Theorem bipartite_graph_with_threshold {F : Type} {DT : Dtype F} (batch_ids : list Z)
  (primaries : list bool) (dm : list (list F)) (max_dist : F) :
  length primaries <= length batch_ids ->
  ltb minus_one max_dist = true ->
  covers (length batch_ids) dm ->
  exists ret,
    bipartite_graph batch_ids primaries (Some dm) max_dist true "secondary"
    = Ok (Np.T ret)
    /\ forall i j, In (i, j) ret <->
                   nth_error primaries i = Some true
                   /\ nth_error primaries j = Some false
                   /\ nth i batch_ids 0%Z = nth j batch_ids 0%Z
                   /\ exists d, Np.getitem2 dm i j = Ok d /\ ltb d max_dist = true.
Proof.
  intros Hlen Hgt Hcov.
  assert (Hloop := @bipartite_rows batch_ids primaries
                     (Np.where_ (fun p : bool => p) primaries) [] Hlen).
  cbn [app] in Hloop. fold (bipartite_pairs batch_ids primaries) in Hloop.
  unfold bipartite_graph. rewrite Hloop.
  2:{ intros i Hi. apply in_where in Hi. destruct Hi as (x & Hx & _).
      assert (i < length primaries) by (apply nth_error_Some; congruence). lia. }
  cbn [bind]. unfold prune. rewrite Hgt.
  destruct (@mapM_total_ex _ _ (fun e : nat * nat => Np.getitem2 dm (fst e) (snd e))
              (bipartite_pairs batch_ids primaries)) as (dists & Hd).
  { intros [i j] Hin. apply in_bipartite_pairs in Hin. destruct Hin as (Hi & Hj & _).
    cbn [fst snd]. apply Hcov.
    - assert (i < length primaries) by (apply nth_error_Some; congruence). lia.
    - assert (j < length primaries) by (apply nth_error_Some; congruence). lia. }
  rewrite Hd. cbn [bind]. 
  change (String.eqb "secondary" "primary") with false.
  change (String.eqb "secondary" "secondary") with true. cbn [negb].
  eexists. split; [reflexivity |].
  intros i j.
  rewrite (select_In (fun e : nat * nat => Np.getitem2 dm (fst e) (snd e))
             (fun d => ltb d max_dist) (i, j) (mapM_Ok _ _ Hd)).
  rewrite in_bipartite_pairs. cbn [fst snd]. tauto.
Qed.

Lemma bipartite_graph_with_threshold_witness :
  exists ret,
    bipartite_graph [0; 0; 0]%Z [false; true; false]
                    (Some [[0; 1; 5]; [1; 0; 2]; [5; 2; 0]]%float) 1.5%float
                    true "secondary"
    = Ok (Np.T ret).
Proof.
  destruct (@bipartite_graph_with_threshold float float64 [0; 0; 0]%Z
              [false; true; false] [[0; 1; 5]; [1; 0; 2]; [5; 2; 0]]%float 1.5%float)
    as (ret & Hret & _).
  - simpl. lia.
  - reflexivity.
  - exact covers_three_by_three.
  - exists ret. exact Hret.
Defined.

(** ** The distance matrix under any schedule, and who reads it *)

Lemma mapM_ext_in {A B : Type} (f g : A -> result B) (xs : list A) :
  (forall x, In x xs -> f x = g x) -> mapM f xs = mapM g xs.
Proof.
  induction xs as [| x xs IH]; intro H; simpl; [reflexivity |].
  rewrite (H x) by now left. rewrite IH by (intros; apply H; now right). reflexivity.
Qed.

Lemma two_clusters_valid :
  forall i, i < length [0; 0]%Z ->
            exists c, nth_error [[0]; [1]] i = Some c
                      /\ valid_cluster [[0; 0; 0]; [1; 0; 0]]%R c.
Proof.
  intros i Hi. destruct i as [| [| i]]; simpl in Hi; [| | lia].
  - exists [0]. repeat split; try discriminate. repeat constructor.
  - exists [1]. repeat split; try discriminate. repeat constructor.
Qed.

(** Whatever the order in which the iterations of the [prange] loop of
    [_inter_cluster_distance] run, each once, the call returns a square
    matrix with a zero diagonal and zero between clusters of different
    batches; between two clusters of one batch, the entry above the
    diagonal is the least distance between a voxel of the one and a voxel
    of the other, and the entry below the diagonal is that distance or
    zero. *)
Theorem inter_cluster_distance_entries (voxels : list (list R))
  (clusts : list (list nat)) (batch_ids : list Z) (order : list nat) :
  (forall i, i < length batch_ids ->
             exists c, nth_error clusts i = Some c /\ valid_cluster voxels c) ->
  Permutation order (seq 0 (length batch_ids)) ->
  exists D,
    Geometry.inter_cluster_distance_in_order order voxels clusts batch_ids = Ok D
    /\ square (length batch_ids) D
    /\ forall i j, i < length batch_ids -> j < length batch_ids ->
         (i = j -> entry2 D i j = 0%R)
         /\ (nth i batch_ids 0%Z <> nth j batch_ids 0%Z -> entry2 D i j = 0%R)
         /\ (i < j -> nth i batch_ids 0%Z = nth j batch_ids 0%Z ->
             min_distance_between voxels (nth i clusts []) (nth j clusts [])
                                  (entry2 D i j))
         /\ (j < i -> nth i batch_ids 0%Z = nth j batch_ids 0%Z ->
             entry2 D i j = 0%R
             \/ min_distance_between voxels (nth i clusts []) (nth j clusts [])
                                     (entry2 D i j)).
Proof.
  intros Hvalid Hperm.
  exact (@inter_cluster_distance_any_order voxels clusts batch_ids Hvalid order Hperm).
Qed.

Lemma inter_cluster_distance_entries_witness :
  let voxels := [[0; 0; 0]; [1; 0; 0]]%R in
  exists D,
    Geometry.inter_cluster_distance_in_order [1; 0] voxels [[0]; [1]] [0; 0]%Z = Ok D
    /\ square 2 D
    /\ entry2 D 0 0 = 0%R
    /\ min_distance_between voxels [0] [1] (entry2 D 0 1)
    /\ (entry2 D 1 0 = 0%R \/ min_distance_between voxels [1] [0] (entry2 D 1 0)).
Proof.
  intro voxels.
  destruct (@inter_cluster_distance_entries voxels [[0]; [1]] [0; 0]%Z [1; 0]
              two_clusters_valid) as (D & HD & Hsq & Hent).
  - simpl. apply perm_swap.
  - exists D. split; [exact HD |]. split; [exact Hsq |].
    assert (H0 : 0 < length [0; 0]%Z) by (simpl; lia).
    assert (H1 : 1 < length [0; 0]%Z) by (simpl; lia).
    destruct (Hent 0 0 H0 H0) as (Hdiag & _).
    destruct (Hent 0 1 H0 H1) as (_ & _ & Habove & _).
    destruct (Hent 1 0 H1 H0) as (_ & _ & _ & Hbelow).
    split; [exact (Hdiag eq_refl) |].
    split; [apply Habove; [lia | reflexivity] | apply Hbelow; [lia | reflexivity]].
Defined.

(** The matrix of any schedule against the matrix of the index order. *)
Lemma schedule_agreement (voxels : list (list R)) (clusts : list (list nat))
  (batch_ids : list Z) (order : list nat) :
  (forall i, i < length batch_ids ->
             exists c, nth_error clusts i = Some c /\ valid_cluster voxels c) ->
  Permutation order (seq 0 (length batch_ids)) ->
  exists D D0,
    Geometry.inter_cluster_distance_in_order order voxels clusts batch_ids = Ok D
    /\ Geometry._inter_cluster_distance voxels clusts batch_ids = Ok D0
    /\ square (length batch_ids) D /\ square (length batch_ids) D0
    /\ forall i j, i < length batch_ids -> j < length batch_ids ->
         (i <= j -> entry2 D i j = entry2 D0 i j)
         /\ (j < i -> entry2 D i j = entry2 D0 i j \/ entry2 D i j = 0%R).
Proof.
  intros Hvalid Hperm.
  destruct (@inter_cluster_distance_any_order voxels clusts batch_ids Hvalid order Hperm)
    as (D & HD & Hsq & Hent).
  destruct (@inter_cluster_distance_sequential voxels clusts batch_ids Hvalid)
    as (D0 & HD0 & Hsq0 & Hent0).
  exists D, D0. repeat (split; [assumption |]).
  intros i j Hi Hj.
  destruct (Hent i j Hi Hj) as (Hdiag & Hcross & Habove & Hbelow).
  destruct (Hent0 i j Hi Hj) as (_ & Hdiag0 & Hcross0 & Hmin0).
  destruct (Z.eq_dec (nth i batch_ids 0%Z) (nth j batch_ids 0%Z)) as [Hb | Hb].
  - split.
    + intro Hle. destruct (Nat.eq_dec i j) as [Hij | Hij].
      * now rewrite (Hdiag Hij), (Hdiag0 Hij).
      * eapply min_distance_unique; [apply Habove; [lia | exact Hb] | now apply Hmin0].
    + intro Hlt. destruct (Hbelow Hlt Hb) as [Hz | Hm]; [now right | left].
      eapply min_distance_unique; [exact Hm | apply Hmin0; [lia | exact Hb]].
  - rewrite (Hcross Hb), (Hcross0 Hb). split; auto.
Qed.

(** Whatever the order in which the iterations of the [prange] loop of
    [_inter_cluster_distance] run, the matrix has the entries of the
    index-order run on and above the diagonal; below the diagonal an
    entry is that of the index-order run or the zero the matrix was
    allocated with. *)
Theorem inter_cluster_distance_any_schedule (voxels : list (list R))
  (clusts : list (list nat)) (batch_ids : list Z) (order : list nat) :
  (forall i, i < length batch_ids ->
             exists c, nth_error clusts i = Some c /\ valid_cluster voxels c) ->
  Permutation order (seq 0 (length batch_ids)) ->
  exists D D0,
    Geometry.inter_cluster_distance_in_order order voxels clusts batch_ids = Ok D
    /\ Geometry._inter_cluster_distance voxels clusts batch_ids = Ok D0
    /\ forall i j, i < length batch_ids -> j < length batch_ids ->
         (i <= j -> entry2 D i j = entry2 D0 i j)
         /\ (j < i -> entry2 D i j = entry2 D0 i j \/ entry2 D i j = 0%R).
Proof.
  intros Hvalid Hperm.
  destruct (@schedule_agreement voxels clusts batch_ids order Hvalid Hperm) as (D & D0 & HD & HD0 & _ & _ & Hent).
  exists D, D0. auto.
Qed.

Lemma inter_cluster_distance_any_schedule_witness :
  exists D D0,
    Geometry.inter_cluster_distance_in_order [1; 0] [[0; 0; 0]; [1; 0; 0]]%R [[0]; [1]]
                                             [0; 0]%Z = Ok D
    /\ Geometry._inter_cluster_distance [[0; 0; 0]; [1; 0; 0]]%R [[0]; [1]] [0; 0]%Z
       = Ok D0
    /\ entry2 D 0 1 = entry2 D0 0 1.
Proof.
  destruct (@inter_cluster_distance_any_schedule [[0; 0; 0]; [1; 0; 0]]%R [[0]; [1]]
              [0; 0]%Z [1; 0] two_clusters_valid) as (D & D0 & HD & HD0 & Hent).
  - simpl. apply perm_swap.
  - exists D, D0. split; [exact HD |]. split; [exact HD0 |].
    destruct (Hent 0 1) as (Hle & _); simpl; try lia. apply Hle. lia.
Defined.

(** [complete_graph] reads its distance matrix above the diagonal only:
    given the matrix of [_inter_cluster_distance], it returns the same
    graph whatever the order in which the iterations of the [prange] loop
    ran. *)
Theorem complete_graph_ignores_schedule {RT : Runtime R} (voxels : list (list R))
  (clusts : list (list nat)) (batch_ids : list Z) (order : list nat) (max_dist : R) :
  (forall i, i < length batch_ids ->
             exists c, nth_error clusts i = Some c /\ valid_cluster voxels c) ->
  Permutation order (seq 0 (length batch_ids)) ->
  exists D D0,
    Geometry.inter_cluster_distance_in_order order voxels clusts batch_ids = Ok D
    /\ Geometry._inter_cluster_distance voxels clusts batch_ids = Ok D0
    /\ complete_graph batch_ids (Some D) max_dist
       = complete_graph batch_ids (Some D0) max_dist.
Proof.
  intros Hvalid Hperm.
  destruct (@schedule_agreement voxels clusts batch_ids order Hvalid Hperm) as (D & D0 & HD & HD0 & Hsq & Hsq0 & Hent).
  exists D, D0. split; [exact HD |]. split; [exact HD0 |].
  rewrite !complete_graph_pairs.
  destruct (pairs batch_ids) as [| p ps] eqn:Hp; [reflexivity |]. rewrite <- Hp.
  unfold prune. destruct (ltb minus_one max_dist); [| reflexivity].
  rewrite (@mapM_ext_in _ _ (fun e : nat * nat => Np.getitem2 D (fst e) (snd e))
             (fun e : nat * nat => Np.getitem2 D0 (fst e) (snd e))); [reflexivity |].
  intros [i j] Hin. apply in_pairs in Hin. destruct Hin as (Hij & Hj & _).
  cbn [fst snd].
  rewrite (getitem2_entry Hsq), (getitem2_entry Hsq0) by lia.
  f_equal. apply Hent; lia.
Qed.

Lemma complete_graph_ignores_schedule_witness :
  exists D D0,
    Geometry.inter_cluster_distance_in_order [1; 0] [[0; 0; 0]; [1; 0; 0]]%R [[0]; [1]]
                                             [0; 0]%Z = Ok D
    /\ Geometry._inter_cluster_distance [[0; 0; 0]; [1; 0; 0]]%R [[0]; [1]] [0; 0]%Z
       = Ok D0
    /\ complete_graph (RT := Concrete.runtime) [0; 0]%Z (Some D) 2%R
       = complete_graph (RT := Concrete.runtime) [0; 0]%Z (Some D0) 2%R.
Proof.
  apply (@complete_graph_ignores_schedule Concrete.runtime [[0; 0; 0]; [1; 0; 0]]%R
           [[0]; [1]] [0; 0]%Z [1; 0] 2%R two_clusters_valid).
  simpl. apply perm_swap.
Defined.

(** * The orchestration code *)

Lemma host_bind_Ok {A B : Type} (c : Host.result A) (k : A -> Host.result B) (b : B) :
  Host.bind c k = Host.Ok b -> exists a, c = Host.Ok a /\ k a = Host.Ok b.
Proof. destruct c as [a | e]; simpl; [eauto | discriminate]. Qed.

Ltac host_inv H :=
  let a := fresh "x" in
  let Ha := fresh "E" in
  apply host_bind_Ok in H; destruct H as (a & Ha & H).

Lemma host_for_invariant {A S : Type} (P : S -> Prop) (body : S -> A -> Host.result S)
  (xs : list A) (s s' : S) :
  Host.for_ xs s body = Host.Ok s' ->
  P s ->
  (forall s0 x s1, In x xs -> P s0 -> body s0 x = Host.Ok s1 -> P s1) ->
  P s'.
Proof.
  revert s. induction xs as [| x xs IH]; simpl; intros s H Hs Hstep.
  - injection H as <-. exact Hs.
  - host_inv H. eapply IH; eauto.
Qed.

(** ** MetaLayerGNN *)

Section MetaLayerGNNFacts.

Import MetaLayerGNN.
Context {T : Torch}.

(** One iteration of the loop of [__init__] either raises or leaves
    [node_model] bound, the feature sizes those of the models it built,
    and one more layer in the list. *)
Lemma init_step_Ok (node_layer edge_layer global_layer : option Config)
  (st st' : locals) (l : nat) :
  init_step node_layer edge_layer global_layer st l = Host.Ok st' ->
  (node_layer = None -> node_model_var st <> None)
  /\ exists layer,
       layers st' = layers st ++ [layer]
       /\ node_model layer <> None
       /\ node_model_var st' = node_model layer
       /\ (edge_model layer = None <-> edge_layer = None)
       /\ (global_model layer = None <-> global_layer = None)
       /\ (forall m, node_layer <> None -> node_model layer = Some m ->
                     node_nf st' = feature_size m)
       /\ (node_layer = None -> node_nf st' = node_nf st)
       /\ (forall m, edge_model layer = Some m -> edge_nf st' = feature_size m)
       /\ (edge_layer = None -> edge_nf st' = edge_nf st)
       /\ (forall m, global_model layer = Some m -> glob_nf st' = feature_size m)
       /\ (global_layer = None -> glob_nf st' = glob_nf st).
Proof.
  unfold init_step. intro H.
  host_inv H. rename x into em, E into Eem.
  host_inv H. rename x into nm, E into Enm.
  host_inv H. rename x into gm, E into Egm.
  destruct (fst nm) as [m |] eqn:Hnm; [| discriminate].
  injection H as <-. cbn [layers node_model_var node_nf edge_nf glob_nf].
  assert (Hedge : (fst em = None <-> edge_layer = None)
                  /\ (forall m', fst em = Some m' -> snd em = feature_size m')
                  /\ (edge_layer = None -> snd em = edge_nf st)).
  { destruct edge_layer as [cfg |].
    - host_inv Eem. injection Eem as <-. cbn [fst snd].
      repeat split; try congruence; discriminate.
    - injection Eem as <-. cbn [fst snd]. repeat split; congruence. }
  assert (Hglob : (fst gm = None <-> global_layer = None)
                  /\ (forall m', fst gm = Some m' -> snd gm = feature_size m')
                  /\ (global_layer = None -> snd gm = glob_nf st)).
  { destruct global_layer as [cfg |].
    - host_inv Egm. injection Egm as <-. cbn [fst snd].
      repeat split; try congruence; discriminate.
    - injection Egm as <-. cbn [fst snd]. repeat split; congruence. }
  assert (Hnode : (node_layer = None -> node_model_var st <> None)
                  /\ (forall m', node_layer <> None -> fst nm = Some m' ->
                                  snd nm = feature_size m')
                  /\ (node_layer = None -> snd nm = node_nf st)).
  { destruct node_layer as [cfg |].
    - host_inv Enm. injection Enm as <-. cbn [fst snd].
      repeat split; try congruence; discriminate.
    - injection Enm as <-. cbn [fst snd] in *. repeat split; congruence. }
  destruct Hedge as (He1 & He2 & He3). destruct Hglob as (Hg1 & Hg2 & Hg3).
  destruct Hnode as (Hn1 & Hn2 & Hn3).
  split; [exact Hn1 |].
  eexists. split; [reflexivity |]. cbn [node_model edge_model global_model].
  split; [discriminate |]. split; [reflexivity |].
  split; [exact He1 |]. split; [exact Hg1 |].
  split; [intros m' Hl Hm'; apply Hn2; [exact Hl | congruence] |].
  split; [exact Hn3 |]. split; [exact He2 |]. split; [exact He3 |].
  split; [exact Hg2 | exact Hg3].
Qed.

(** What the loop of [__init__] leaves after [n] iterations. *)
Lemma init_loop (node_layer edge_layer global_layer : option Config) (n : nat) (a : nat)
  (st st' : locals) :
  Host.for_ (seq a n) st (init_step node_layer edge_layer global_layer) = Host.Ok st' ->
  length (layers st') = length (layers st) + n
  /\ (0 < n -> node_layer = None -> node_model_var st <> None)
  /\ (forall layer, In layer (layers st') ->
        In layer (layers st)
        \/ (node_model layer <> None
            /\ (edge_model layer = None <-> edge_layer = None)
            /\ (global_model layer = None <-> global_layer = None)))
  /\ (node_layer = None -> node_nf st' = node_nf st)
  /\ (edge_layer = None -> edge_nf st' = edge_nf st)
  /\ (global_layer = None -> glob_nf st' = glob_nf st)
  /\ (0 < n ->
      forall d m,
        (node_layer <> None -> node_model (last (layers st') d) = Some m ->
         node_nf st' = feature_size m)
        /\ (edge_model (last (layers st') d) = Some m -> edge_nf st' = feature_size m)
        /\ (global_model (last (layers st') d) = Some m ->
            glob_nf st' = feature_size m)).
Proof.
  revert a st. induction n as [| n IH]; intros a st H; cbn [seq Host.for_] in H.
  - injection H as <-. rewrite Nat.add_0_r.
    repeat split; try reflexivity; try lia; auto.
  - host_inv H. rename x into st1.
    destruct (init_step_Ok _ _ _ _ _ E)
      as (Hbound & layer & Hl & Hnm & Hvar & Hem & Hgm & Hn & Hn0 & He & He0 & Hg & Hg0).
    destruct (IH _ _ H) as (Hlen & Hb & Hall & Hnn & Hee & Hgg & Hlast).
    rewrite Hl in Hlen, Hall. rewrite length_app in Hlen. cbn [length] in Hlen.
    split; [lia |]. split; [intros _; exact Hbound |].
    split.
    { intros layer' Hin. destruct (Hall _ Hin) as [Hold | Hnew]; [| now right].
      apply in_app_iff in Hold. destruct Hold as [Hold | [<- | []]]; [now left |].
      right. auto. }
    split; [intro Hnl; rewrite (Hnn Hnl); auto |].
    split; [intro Hel; rewrite (Hee Hel); auto |].
    split; [intro Hgl; rewrite (Hgg Hgl); auto |].
    intros _. destruct n as [| n].
    + cbn [seq Host.for_] in H. injection H as <-.
      intros d m. rewrite Hl, last_last.
      split; [apply Hn |]. split; [apply He | apply Hg].
    + apply Hlast. lia.
Qed.

End MetaLayerGNNFacts.

(** Without a node layer (the default) and with one message-passing step
    or more (the default is 3), [__init__] never returns: the first
    iteration reads [node_model], which only the branch for a node layer
    binds. When the normalisations and the other layers can be built, the
    exception is [UnboundLocalError]. *)
Theorem meta_init_without_node_layer {T : Torch} (node_feats edge_feats global_feats : Z)
  (edge_layer global_layer : option Config) (num_mp : Z) (input_normalization : Config) :
  (0 < num_mp)%Z ->
  (forall self,
      MetaLayerGNN.__init__ node_feats None edge_feats edge_layer global_feats
                            global_layer num_mp input_normalization <> Host.Ok self)
  /\ ((forall n, exists b, norm_construct input_normalization n = Host.Ok b) ->
      (forall cfg a b c, exists m, edge_layer_construct cfg a b c = Host.Ok m) ->
      (forall cfg a b, exists m, global_layer_construct cfg a b = Host.Ok m) ->
      MetaLayerGNN.__init__ node_feats None edge_feats edge_layer global_feats
                            global_layer num_mp input_normalization
      = Host.Raise (Host.UnboundLocalError "node_model")).
Proof.
  intro Hmp. split.
  - intros self H. unfold MetaLayerGNN.__init__ in H. do 4 host_inv H.
    destruct (init_loop _ _ _ _ _ _ E2) as (_ & Hbound & _).
    apply Hbound; [lia | reflexivity | reflexivity].
  - intros Hnorm Hedge Hglob. unfold MetaLayerGNN.__init__.
    destruct (Hnorm node_feats) as (b1 & ->). cbn [Host.bind].
    destruct (Hnorm edge_feats) as (b2 & ->). cbn [Host.bind].
    destruct (Hnorm global_feats) as (b3 & ->). cbn [Host.bind].
    destruct (Z.to_nat num_mp) as [| n] eqn:En; [lia |].
    cbn [seq Host.for_]. unfold MetaLayerGNN.init_step at 1.
    cbn [MetaLayerGNN.node_nf MetaLayerGNN.edge_nf MetaLayerGNN.glob_nf
         MetaLayerGNN.node_model_var].
    destruct edge_layer as [cfg |].
    + destruct (Hedge cfg node_feats edge_feats global_feats) as (m & ->).
      cbn [Host.bind fst snd].
      destruct global_layer as [cfg' |]; [| reflexivity].
      destruct (Hglob cfg' node_feats global_feats) as (m' & ->). reflexivity.
    + cbn [Host.bind fst snd].
      destruct global_layer as [cfg' |]; [| reflexivity].
      destruct (Hglob cfg' node_feats global_feats) as (m' & ->). reflexivity.
Qed.

Lemma meta_init_without_node_layer_witness :
  MetaLayerGNN.__init__ (T := ConcreteHost.torch) 0%Z None 0%Z None 0%Z None 3%Z 0%Z
  = Host.Raise (Host.UnboundLocalError "node_model").
Proof.
  apply (@meta_init_without_node_layer ConcreteHost.torch 0%Z 0%Z 0%Z None None 3%Z 0%Z);
    try lia; intros; eexists; reflexivity.
Defined.

(** When [__init__] returns, the network has [num_mp] layers; every layer
    has a node model, an edge model exactly when an edge layer is
    configured, and a global model exactly when a global layer is; the
    feature sizes it stores are those of the models of the last layer, and
    the sizes given to it where no layer is configured or there is no
    layer at all. *)
Theorem meta_init_layers {T : Torch} (node_feats : Z) (node_layer : option Config)
  (edge_feats : Z) (edge_layer : option Config) (global_feats : Z)
  (global_layer : option Config) (num_mp : Z) (input_normalization : Config)
  (self : MetaLayerGNN.t) :
  MetaLayerGNN.__init__ node_feats node_layer edge_feats edge_layer global_feats
                        global_layer num_mp input_normalization = Host.Ok self ->
  length (MetaLayerGNN.mp_layers self) = Z.to_nat num_mp
  /\ Forall (fun layer =>
               MetaLayerGNN.node_model layer <> None
               /\ (MetaLayerGNN.edge_model layer = None <-> edge_layer = None)
               /\ (MetaLayerGNN.global_model layer = None <-> global_layer = None))
            (MetaLayerGNN.mp_layers self)
  /\ (edge_layer = None -> MetaLayerGNN.edge_feature_size self = edge_feats)
  /\ (global_layer = None -> MetaLayerGNN.global_feature_size self = global_feats)
  /\ ((num_mp <= 0)%Z ->
      MetaLayerGNN.node_feature_size self = node_feats
      /\ MetaLayerGNN.edge_feature_size self = edge_feats
      /\ MetaLayerGNN.global_feature_size self = global_feats)
  /\ ((0 < num_mp)%Z ->
      node_layer <> None
      /\ forall d m,
           (MetaLayerGNN.node_model (last (MetaLayerGNN.mp_layers self) d) = Some m ->
            MetaLayerGNN.node_feature_size self = feature_size m)
           /\ (MetaLayerGNN.edge_model (last (MetaLayerGNN.mp_layers self) d) = Some m ->
               MetaLayerGNN.edge_feature_size self = feature_size m)
           /\ (MetaLayerGNN.global_model (last (MetaLayerGNN.mp_layers self) d) = Some m ->
               MetaLayerGNN.global_feature_size self = feature_size m)).
Proof.
  intro H. unfold MetaLayerGNN.__init__ in H. do 4 host_inv H. injection H as <-.
  cbn [MetaLayerGNN.mp_layers MetaLayerGNN.node_feature_size
       MetaLayerGNN.edge_feature_size MetaLayerGNN.global_feature_size].
  destruct (init_loop _ _ _ _ _ _ E2) as (Hlen & Hbound & Hall & Hn & He & Hg & Hlast).
  cbn [MetaLayerGNN.layers MetaLayerGNN.node_nf MetaLayerGNN.edge_nf
       MetaLayerGNN.glob_nf MetaLayerGNN.node_model_var length Nat.add] in *.
  split; [exact Hlen |].
  split; [apply Forall_forall; intros layer Hin;
          destruct (Hall _ Hin) as [[] | Hok]; exact Hok |].
  split; [exact He |]. split; [exact Hg |]. split.
  - intro Hle. replace (Z.to_nat num_mp) with 0 in E2 by lia.
    cbn [seq Host.for_] in E2. injection E2 as <-. repeat split.
  - intro Hpos.
    assert (Hnl : node_layer <> None).
    { intro Hnone. apply Hbound; [lia | exact Hnone | reflexivity]. }
    split; [exact Hnl |]. intros d m.
    destruct (Hlast ltac:(lia) d m) as (H1 & H2 & H3).
    split; [exact (H1 Hnl) |]. split; assumption.
Qed.

Lemma meta_init_layers_witness :
  exists self,
    MetaLayerGNN.__init__ (T := ConcreteHost.torch) 2%Z (Some 4%Z) 3%Z None 1%Z
                          (Some 6%Z) 2%Z 0%Z
    = Host.Ok self
    /\ length (MetaLayerGNN.mp_layers self) = 2
    /\ MetaLayerGNN.edge_feature_size self = 3%Z.
Proof.
  eexists. split; [reflexivity |].
  destruct (@meta_init_layers ConcreteHost.torch 2%Z (Some 4%Z) 3%Z None 1%Z
              (Some 6%Z) 2%Z 0%Z _ eq_refl) as (Hlen & _ & Hedge & _).
  split; [exact Hlen | exact (Hedge eq_refl)].
Defined.

(** [forward] returns only for a network with one layer or more and no
    global layer: without a layer [self.mp_layers[0]] is out of range, and
    with a global layer the last item reads the unbound name
    [global_feats]. What it returns has the item [node_features], then
    the item [edge_features] exactly when an edge layer is configured,
    and never [global_features]. *)
Theorem meta_forward_returns {T : Torch} (node_feats : Z) (node_layer : option Config)
  (edge_feats : Z) (edge_layer : option Config) (global_feats : Z)
  (global_layer : option Config) (num_mp : Z) (input_normalization : Config)
  (self : MetaLayerGNN.t) (x : TensorBatch) (edge_index : EdgeIndex)
  (e u : option TensorBatch) (batch : BatchIds)
  (r : list (String.string * TensorBatch)) :
  MetaLayerGNN.__init__ node_feats node_layer edge_feats edge_layer global_feats
                        global_layer num_mp input_normalization = Host.Ok self ->
  MetaLayerGNN.forward self x edge_index e u batch = Host.Ok r ->
  (0 < num_mp)%Z /\ node_layer <> None /\ global_layer = None
  /\ map fst r = "node_features"%string
                 :: match edge_layer with
                    | Some _ => ["edge_features"%string]
                    | None => []
                    end.
Proof.
  intros Hinit H. unfold MetaLayerGNN.__init__ in Hinit. do 4 host_inv Hinit.
  injection Hinit as <-.
  destruct (init_loop _ _ _ _ _ _ E2) as (Hlen & Hbound & Hall & _).
  cbn [MetaLayerGNN.layers MetaLayerGNN.node_model_var length Nat.add] in *.
  unfold MetaLayerGNN.forward in H. cbn [MetaLayerGNN.mp_layers] in H.
  do 4 host_inv H. clear E3 E4 E5 E6.
  host_inv H. rename x7 into l0, E3 into Hl0.
  unfold Host.getitem in Hl0.
  destruct (nth_error (MetaLayerGNN.layers x3) 0) as [l0' |] eqn:Hn0; [| discriminate].
  injection Hl0 as <-.
  assert (Hin : In l0' (MetaLayerGNN.layers x3)) by (eapply nth_error_In; eauto).
  destruct (Hall _ Hin) as [[] | (Hnode & Hedge & Hglob)].
  assert (Hpos : (0 < num_mp)%Z).
  { destruct (MetaLayerGNN.layers x3); [discriminate |]. simpl in Hlen. lia. }
  split; [exact Hpos |].
  split; [intro Hnone; apply Hbound; [lia | exact Hnone | reflexivity] |].
  host_inv H. rename x7 into r1, E3 into Hr1.
  unfold Host.getitem in H. rewrite Hn0 in H. cbn [Host.bind] in H.
  host_inv H. rename x7 into r2, E3 into Hr2.
  destruct (MetaLayerGNN.global_model l0') as [g |] eqn:Hg; [discriminate |].
  injection H as <-.
  split; [now apply Hglob |].
  destruct (MetaLayerGNN.node_model l0') as [nm |]; [| congruence].
  host_inv Hr1. injection Hr1 as <-.
  destruct (MetaLayerGNN.edge_model l0') as [em |] eqn:Hem.
  - do 2 host_inv Hr2. injection Hr2 as <-.
    destruct edge_layer as [cfg |]; [reflexivity |].
    assert (Some em = None) by (now apply Hedge). discriminate.
  - injection Hr2 as <-.
    destruct edge_layer as [cfg |]; [| reflexivity].
    assert (Some cfg = None) by (now apply Hedge). discriminate.
Qed.

Lemma meta_forward_returns_witness :
  (0 < 1)%Z /\ Some 4%Z <> None /\ @None Z = None
  /\ map fst [("node_features"%string, 7%Z); ("edge_features"%string, 8%Z)]
     = ["node_features"%string; "edge_features"%string].
Proof.
  eapply (@meta_forward_returns ConcreteHost.torch 2%Z (Some 4%Z) 3%Z (Some 5%Z) 1%Z
            None 1%Z 0%Z _ 7%Z tt (Some 8%Z) None tt); reflexivity.
Defined.

(** ** run_crt_tpc_matching *)

Lemma in_filter_map {A B : Type} (h : A -> option B) (l : list A) (y : B) :
  In y (filter_map h l) <-> exists x, In x l /\ h x = Some y.
Proof.
  induction l as [| x l IH]; simpl.
  - split; [tauto | intros (x & [] & _)].
  - destruct (h x) as [y' |] eqn:Hx; simpl; rewrite IH; split.
    + intros [<- | (x' & Hin & Hh)]; eauto.
    + intros (x' & [<- | Hin] & Hh); [left; congruence | eauto].
    + intros (x' & Hin & Hh). eauto.
    + intros (x' & [<- | Hin] & Hh); [congruence | eauto].
Qed.

Section CrtTpcFacts.

Import CrtTpc.

Lemma set_matched_nth_error (objects : list Interaction) (r : nat) (m : MatchCandidate)
  (k : nat) :
  nth_error (set_matched objects r m) k
  = if k =? r
    then option_map (fun i => {| id := id i; crthit_matched := true;
                                 crthit_matched_particle_id := Some (track_id m);
                                 crthit_id := Some (crthit_hit_id m) |})
                    (nth_error objects k)
    else nth_error objects k.
Proof.
  revert r k. induction objects as [| i objects IH]; intros r k.
  - cbn [set_matched]. destruct k; cbn [nth_error option_map];
      destruct (_ =? r); reflexivity.
  - destruct r as [| r], k as [| k]; try reflexivity. simpl. apply IH.
Qed.

Lemma set_matched_ids (objects : list Interaction) (r : nat) (m : MatchCandidate) :
  map id (set_matched objects r m) = map id objects.
Proof.
  revert r. induction objects as [| i objects IH]; intros [| r]; simpl;
    try reflexivity. now rewrite IH.
Qed.

Lemma matched_interaction_ids (objs objs' : list Interaction) (interactions : list nat)
  (iid : Z) :
  map id objs = map id objs' ->
  matched_interaction objs interactions iid = matched_interaction objs' interactions iid.
Proof.
  intro Hids. unfold matched_interaction.
  induction interactions as [| r l IH]; simpl; [reflexivity |].
  assert (Hr : has_id objs iid r = has_id objs' iid r).
  { unfold has_id. apply (f_equal (fun l => nth_error l r)) in Hids.
    rewrite !nth_error_map in Hids.
    destruct (nth_error objs r), (nth_error objs' r); simpl in Hids;
      try discriminate; [| reflexivity].
    injection Hids as ->. reflexivity. }
  rewrite Hr, IH. reflexivity.
Qed.

Lemma matched_interaction_valid (objs : list Interaction) (interactions : list nat)
  (iid : Z) (r : nat) :
  matched_interaction objs interactions iid = Some r ->
  exists i, nth_error objs r = Some i.
Proof.
  unfold matched_interaction. intro H. apply find_some in H. destruct H as [_ H].
  unfold has_id in H. destruct (nth_error objs r); [eauto | discriminate].
Qed.

Lemma interactions_item_append (acc : list nat) (r : nat) :
  Host.append_to (interactions_item acc) "interactions" (Ref r)
  = interactions_item (acc ++ [r]).
Proof.
  destruct acc as [| a acc]; [reflexivity |].
  unfold interactions_item. cbn [app Host.append_to]. rewrite String.eqb_refl.
  change (a :: acc ++ [r]) with ((a :: acc) ++ [r]). now rewrite map_app.
Qed.

Lemma candidates_Ok (items : list item) (ms : list MatchCandidate) :
  candidates items = Host.Ok ms -> items = map Candidate ms.
Proof.
  revert ms. induction items as [| [m |] items IH]; simpl; intros ms H.
  - injection H as <-. reflexivity.
  - host_inv H. injection H as <-. simpl. f_equal. now apply IH.
  - discriminate.
Qed.

(** The loop over the matches, from any state the earlier iterations may
    have left. *)
Lemma mark_fold (objects : list Interaction) (interactions : list nat)
  (ms : list MatchCandidate) :
  let h := fun m => matched_interaction objects interactions (track_interaction_id m) in
  forall objs acc,
    map id objs = map id objects ->
    exists objs',
      fold_left (mark interactions) ms (objs, interactions_item acc)
      = (objs', interactions_item (acc ++ filter_map h ms))
      /\ map id objs' = map id objects
      /\ (forall r, ~ In r (filter_map h ms) -> nth_error objs' r = nth_error objs r)
      /\ (forall r, In r (filter_map h ms) ->
            exists i ms1 m ms2,
              nth_error objs' r = Some i
              /\ ms = ms1 ++ m :: ms2
              /\ h m = Some r
              /\ (forall m', In m' ms2 -> h m' <> Some r)
              /\ crthit_matched i = true
              /\ crthit_matched_particle_id i = Some (track_id m)
              /\ crthit_id i = Some (crthit_hit_id m)).
Proof.
  intro h. induction ms as [| m ms IH]; intros objs acc Hids.
  - exists objs. cbn [fold_left filter_map]. rewrite app_nil_r.
    repeat split; auto. intros r [].
  - cbn [fold_left filter_map]. unfold mark at 2. cbn [fst snd].
    rewrite (@matched_interaction_ids objs objects interactions
               (track_interaction_id m) Hids).
    fold (h m). destruct (h m) as [r0 |] eqn:Hm.
    + rewrite interactions_item_append.
      destruct (IH (set_matched objs r0 m) (acc ++ [r0])) as (objs' & Hfold & Hids' & Hkeep & Hset).
      { now rewrite set_matched_ids. }
      exists objs'. rewrite Hfold, <- app_assoc. split; [reflexivity |].
      split; [exact Hids' |]. split.
      * intros r Hr. rewrite Hkeep by (intro; apply Hr; now right).
        rewrite set_matched_nth_error.
        destruct (Nat.eqb_spec r r0) as [-> | _]; [| reflexivity].
        exfalso. apply Hr. now left.
      * intros r Hr.
        destruct (in_dec Nat.eq_dec r (filter_map h ms)) as [Hin | Hnin].
        -- destruct (Hset r Hin) as (i & ms1 & m1 & ms2 & Hi & -> & Hh & Hlast & Hrest).
           exists i, (m :: ms1), m1, ms2. repeat split; auto; apply Hrest.
        -- destruct Hr as [<- | Hr]; [| contradiction].
           assert (Hvalid : exists i, nth_error objs r0 = Some i).
           { apply (@matched_interaction_valid objs interactions
                      (track_interaction_id m) r0).
             rewrite (@matched_interaction_ids objs objects interactions
                        (track_interaction_id m) Hids).
             exact Hm. }
           destruct Hvalid as (i0 & Hi0).
           eexists _, [], m, ms.
           rewrite (Hkeep r0 Hnin), set_matched_nth_error, Nat.eqb_refl, Hi0.
           split; [reflexivity |]. split; [reflexivity |]. split; [exact Hm |].
           split; [| repeat split].
           intros m' Hm' Hh. apply Hnin. apply in_filter_map. eauto.
    + destruct (IH objs acc Hids) as (objs' & Hfold & Hids' & Hkeep & Hset).
      exists objs'. split; [exact Hfold |]. split; [exact Hids' |].
      split; [exact Hkeep |].
      intros r Hr.
      destruct (Hset r Hr) as (i & ms1 & m1 & ms2 & Hi & -> & Hh & Hlast & Hrest).
      exists i, (m :: ms1), m1, ms2. repeat split; auto; apply Hrest.
Qed.

End CrtTpcFacts.

(** With the default [crthit_keys=[]] the assertion fails before anything
    is read, and with the default [crt_tpc_manager=None] the call never
    returns, whatever the other arguments. *)
Theorem crt_matching_defaults (Value Manager : Type)
  (to_int : Value -> Host.result Z)
  (get_crt_tpc_matches :
     Manager -> Z -> list CrtTpc.Interaction -> list nat ->
     list (String.string * Value) -> Host.result (list CrtTpc.item))
  (objects : list CrtTpc.Interaction) (data_dict : list (String.string * Value))
  (result_dict : list (String.string * list nat)) :
  (forall crt_tpc_manager,
      CrtTpc.run_crt_tpc_matching to_int get_crt_tpc_matches objects data_dict
                                  result_dict crt_tpc_manager []
      = Host.Raise Host.AssertionError)
  /\ (forall crthit_keys r,
         CrtTpc.run_crt_tpc_matching to_int get_crt_tpc_matches objects data_dict
                                     result_dict None crthit_keys
         <> Host.Ok r).
Proof.
  split; [reflexivity |].
  intros keys r H. unfold CrtTpc.run_crt_tpc_matching in H.
  destruct (0 <? length keys); [| discriminate].
  do 4 host_inv H. discriminate.
Qed.

(** When [run_crt_tpc_matching] returns, the dictionary holds under
    [crt_tpc_matches] one empty dictionary and nothing else, and under
    [interactions], a key that is there only if a match found its
    interaction, one reference per match whose interaction id is the id
    of an interaction of the list (the first such interaction), in the
    order of the matches. Such an interaction is flagged and carries the
    particle and hit ids of the last match that found it; every other
    interaction is as it was, and no id has changed. *)
Theorem crt_matching_result (Value Manager : Type)
  (to_int : Value -> Host.result Z)
  (get_crt_tpc_matches :
     Manager -> Z -> list CrtTpc.Interaction -> list nat ->
     list (String.string * Value) -> Host.result (list CrtTpc.item))
  (objects : list CrtTpc.Interaction) (data_dict : list (String.string * Value))
  (result_dict : list (String.string * list nat)) (crt_tpc_manager : option Manager)
  (crthit_keys : list String.string) (objects' : list CrtTpc.Interaction)
  (update_dict : list (String.string * list CrtTpc.entry)) :
  CrtTpc.run_crt_tpc_matching to_int get_crt_tpc_matches objects data_dict result_dict
                              crt_tpc_manager crthit_keys
  = Host.Ok (objects', update_dict) ->
  exists interactions manager n crthits ms,
    Host.lookup result_dict "interactions" = Host.Ok interactions
    /\ crt_tpc_manager = Some manager
    /\ get_crt_tpc_matches manager n objects interactions crthits
       = Host.Ok (map CrtTpc.Candidate ms)
    /\ let h := fun m => CrtTpc.matched_interaction objects interactions
                            (CrtTpc.track_interaction_id m) in
       update_dict = interactions_item (filter_map h ms)
                     ++ [("crt_tpc_matches"%string, [CrtTpc.Dict []])]
       /\ map CrtTpc.id objects' = map CrtTpc.id objects
       /\ (forall r, ~ In r (filter_map h ms) ->
                     nth_error objects' r = nth_error objects r)
       /\ (forall r, In r (filter_map h ms) ->
             exists i ms1 m ms2,
               nth_error objects' r = Some i
               /\ ms = ms1 ++ m :: ms2
               /\ h m = Some r
               /\ (forall m', In m' ms2 -> h m' <> Some r)
               /\ CrtTpc.crthit_matched i = true
               /\ CrtTpc.crthit_matched_particle_id i = Some (CrtTpc.track_id m)
               /\ CrtTpc.crthit_id i = Some (CrtTpc.crthit_hit_id m)).
Proof.
  intro H. unfold CrtTpc.run_crt_tpc_matching in H.
  destruct (0 <? length crthit_keys); [| discriminate].
  apply host_bind_Ok in H. destruct H as (crthits & _ & H).
  apply host_bind_Ok in H. destruct H as (interactions & Hint & H).
  apply host_bind_Ok in H. destruct H as (entry & _ & H).
  apply host_bind_Ok in H. destruct H as (manager & Hman & H).
  apply host_bind_Ok in H. destruct H as (n & _ & H).
  apply host_bind_Ok in H. destruct H as (items & Hget & H).
  apply host_bind_Ok in H. destruct H as (ms & Hms & H).
  apply candidates_Ok in Hms. subst items.
  destruct crt_tpc_manager as [mgr |]; [| discriminate]. injection Hman as ->.
  exists interactions, manager, n, crthits, ms.
  split; [exact Hint |]. split; [reflexivity |]. split; [exact Hget |].
  destruct (@mark_fold objects interactions ms objects [] eq_refl)
    as (objs' & Hfold & Hids & Hkeep & Hset).
  change (@nil (String.string * list CrtTpc.entry)) with (interactions_item []) in H.
  rewrite Hfold in H. cbn [fst snd app] in H. injection H as <- <-.
  cbv zeta. split; [| split; [exact Hids | split; [exact Hkeep | exact Hset]]].
  destruct (filter_map _ ms); reflexivity.
Qed.

Lemma crt_matching_result_witness :
  map CrtTpc.id
      [{| CrtTpc.id := 10; CrtTpc.crthit_matched := false;
          CrtTpc.crthit_matched_particle_id := None; CrtTpc.crthit_id := None |};
       {| CrtTpc.id := 20; CrtTpc.crthit_matched := true;
          CrtTpc.crthit_matched_particle_id := Some 7%Z;
          CrtTpc.crthit_id := Some 3%Z |}]
  = map CrtTpc.id ConcreteHost.two_interactions.
Proof.
  destruct (@crt_matching_result Z unit (fun v => Host.Ok v) ConcreteHost.matcher
              ConcreteHost.two_interactions
              [("index"%string, 5%Z); ("crthits"%string, 0%Z)]
              [("interactions"%string, [0; 1])] (Some tt) ["crthits"%string]
              _ _ eq_refl)
    as (interactions & manager & n & crthits & ms & _ & _ & _ & _ & Hids & _).
  exact Hids.
Defined.

(** ** mst_graph and the lower triangle of the distance matrix *)

Lemma where_sorted_from {A : Type} (q : nat * A -> bool) (l : list A) (a : nat) :
  StronglySorted lt (map fst (filter q (combine (seq a (length l)) l)))
  /\ Forall (fun x => a <= x) (map fst (filter q (combine (seq a (length l)) l))).
Proof.
  revert a. induction l as [| y l IH]; intro a; cbn [length seq combine filter map].
  - split; constructor.
  - destruct (IH (S a)) as [Hs Hf].
    assert (Hf' : Forall (fun x => a < x)
                         (map fst (filter q (combine (seq (S a) (length l)) l)))).
    { eapply Forall_impl; [| exact Hf]. intros x Hx. cbv beta in *. lia. }
    destruct (q (a, y)); cbn [map fst].
    + split; [constructor; assumption |].
      constructor; [lia |].
      eapply Forall_impl; [| exact Hf']. intros x Hx. cbv beta in *. lia.
    + split; [exact Hs |].
      eapply Forall_impl; [| exact Hf']. intros x Hx. cbv beta in *. lia.
Qed.

Lemma sorted_nth_le (w : list nat) (i j r c : nat) :
  StronglySorted lt w -> i <= j ->
  nth_error w i = Some r -> nth_error w j = Some c -> r <= c.
Proof.
  intro Hs. revert i j. induction Hs as [| x w Hs IH Hx]; intros i j Hij Hi Hj.
  - destruct i; discriminate.
  - destruct i as [| i], j as [| j]; simpl in Hi, Hj; try lia.
    + injection Hi as <-. injection Hj as <-. lia.
    + injection Hi as <-. apply nth_error_In in Hj.
      rewrite Forall_forall in Hx. specialize (Hx _ Hj). lia.
    + apply (IH i j); [lia | exact Hi | exact Hj].
Qed.

Lemma clusters_of_increasing (batch_ids : list Z) (b : Z) (i j r c : nat) :
  i <= j ->
  nth_error (clusters_of batch_ids b) i = Some r ->
  nth_error (clusters_of batch_ids b) j = Some c -> r <= c.
Proof.
  unfold clusters_of, Np.where_, enumerate.
  apply sorted_nth_le. apply where_sorted_from.
Qed.

Lemma enumerate_map_from {A B : Type} (f : A -> B) (l : list A) (a : nat) :
  combine (seq a (length (map f l))) (map f l)
  = map (fun ix => (fst ix, f (snd ix))) (combine (seq a (length l)) l).
Proof.
  revert a. induction l as [| x l IH]; intro a; simpl; [reflexivity |].
  now rewrite IH.
Qed.

Lemma for_ext_in {A S : Type} (body body' : S -> A -> result S) (xs : list A) (s : S) :
  (forall s0 x, In x xs -> body s0 x = body' s0 x) ->
  for_ xs s body = for_ xs s body'.
Proof.
  revert s. induction xs as [| x xs IH]; intros s H; simpl; [reflexivity |].
  rewrite (H s x) by now left. destruct (body' s x); simpl; [| reflexivity].
  apply IH. intros; apply H. now right.
Qed.

Section UpperTriangle.

Local Open Scope R_scope.

Lemma submatrix_nb_entries (n : nat) (D : list (list R)) (ids : list nat) :
  square n D -> (forall c, In c ids -> (c < n)%nat) ->
  submatrix_nb D ids ids = Ok (map (fun r => map (fun c => entry2 D r c) ids) ids).
Proof.
  intros HD Hids. unfold submatrix_nb. apply mapM_total. intros r Hr.
  rewrite (getitem_nth D []) by (destruct HD; specialize (Hids r Hr); lia).
  cbn [bind]. apply mapM_total. intros c Hc. unfold entry2.
  apply getitem_nth. rewrite (square_row HD (Hids r Hr)). auto.
Qed.

(** The upper triangle of the block of one batch is made of entries on or
    above the diagonal of the matrix. *)
Lemma triu_submatrix_agree (batch_ids : list Z) (b : Z) (D D0 : list (list R)) :
  (forall i j, (i < length batch_ids)%nat -> (j < length batch_ids)%nat ->
               (i <= j)%nat -> entry2 D i j = entry2 D0 i j) ->
  let ids := clusters_of batch_ids b in
  Np.triu (map (fun r => map (fun c => entry2 D r c) ids) ids)
  = Np.triu (map (fun r => map (fun c => entry2 D0 r c) ids) ids).
Proof.
  intros Hagree ids. unfold Np.triu, enumerate.
  rewrite !enumerate_map_from, !map_map. apply map_ext_in.
  intros [i r] Hir. cbn [fst snd].
  rewrite !enumerate_map_from, !map_map. apply map_ext_in.
  intros [j c] Hjc. cbn [fst snd].
  destruct (Nat.ltb_spec j i) as [| Hij]; [reflexivity |].
  apply (in_enumerate ids) in Hir. apply (in_enumerate ids) in Hjc.
  apply Hagree.
  - apply nth_error_In, in_clusters_of in Hir. apply nth_error_Some. congruence.
  - apply nth_error_In, in_clusters_of in Hjc. apply nth_error_Some. congruence.
  - exact (clusters_of_increasing batch_ids b Hij Hir Hjc).
Qed.

End UpperTriangle.

(** Without a threshold [mst_graph] hands the spanning-tree search the
    upper triangle of each batch's block only: given the matrix of
    [_inter_cluster_distance], it returns the same result whatever the
    order in which the iterations of the [prange] loop ran. *)
Theorem mst_graph_ignores_schedule {RT : Runtime R} (voxels : list (list R))
  (clusts : list (list nat)) (batch_ids : list Z) (order : list nat) (max_dist : R) :
  (forall i, i < length batch_ids ->
             exists c, nth_error clusts i = Some c /\ valid_cluster voxels c) ->
  Permutation order (seq 0 (length batch_ids)) ->
  ltb minus_one max_dist = false ->
  exists D D0,
    Geometry.inter_cluster_distance_in_order order voxels clusts batch_ids = Ok D
    /\ Geometry._inter_cluster_distance voxels clusts batch_ids = Ok D0
    /\ mst_graph batch_ids (Some D) max_dist = mst_graph batch_ids (Some D0) max_dist.
Proof.
  intros Hvalid Hperm Hno.
  destruct (@schedule_agreement voxels clusts batch_ids order Hvalid Hperm)
    as (D & D0 & HD & HD0 & Hsq & Hsq0 & Hent).
  exists D, D0. split; [exact HD |]. split; [exact HD0 |].
  unfold mst_graph.
  rewrite (@for_ext_in _ _
             (fun ret b =>
                let clust_ids := clusters_of batch_ids b in
                if 1 <? length clust_ids
                then sub <- submatrix_nb D clust_ids clust_ids ;;
                     (let submat := Np.triu sub in
                      mst_mat <- minimum_spanning_tree submat ;;
                      edges <- to_cluster_ids clust_ids
                                 (Np.where2 (map (map (ltb zero)) mst_mat)) ;;
                      Ok (ret ++ edges))
                else Ok ret)
             (fun ret b =>
                let clust_ids := clusters_of batch_ids b in
                if 1 <? length clust_ids
                then sub <- submatrix_nb D0 clust_ids clust_ids ;;
                     (let submat := Np.triu sub in
                      mst_mat <- minimum_spanning_tree submat ;;
                      edges <- to_cluster_ids clust_ids
                                 (Np.where2 (map (map (ltb zero)) mst_mat)) ;;
                      Ok (ret ++ edges))
                else Ok ret)).
  - destruct (for_ (Np.unique batch_ids) [] _) as [ret | e]; [| reflexivity].
    cbn [bind]. unfold prune. rewrite Hno. reflexivity.
  - intros ret b _. cbv zeta.
    destruct (1 <? length (clusters_of batch_ids b)); [| reflexivity].
    assert (Hids : forall c, In c (clusters_of batch_ids b) -> c < length batch_ids).
    { intros c Hc. apply in_clusters_of in Hc. apply nth_error_Some. congruence. }
    rewrite (@submatrix_nb_entries _ D _ Hsq Hids), (@submatrix_nb_entries _ D0 _ Hsq0 Hids).
    cbn [bind].
    rewrite (@triu_submatrix_agree batch_ids b D D0); [reflexivity |].
    intros i j Hi Hj Hij. apply Hent; assumption.
Qed.

Lemma mst_graph_ignores_schedule_witness :
  exists D D0,
    Geometry.inter_cluster_distance_in_order [1; 0] [[0; 0; 0]; [1; 0; 0]]%R [[0]; [1]]
                                             [0; 0]%Z = Ok D
    /\ Geometry._inter_cluster_distance [[0; 0; 0]; [1; 0; 0]]%R [[0]; [1]] [0; 0]%Z
       = Ok D0
    /\ mst_graph (RT := Concrete.runtime) [0; 0]%Z (Some D) (-1)%R
       = mst_graph (RT := Concrete.runtime) [0; 0]%Z (Some D0) (-1)%R.
Proof.
  apply (@mst_graph_ignores_schedule Concrete.runtime [[0; 0; 0]; [1; 0; 0]]%R
           [[0]; [1]] [0; 0]%Z [1; 0] (-1)%R two_clusters_valid).
  - simpl. apply perm_swap.
  - cbn [ltb minus_one real]. destruct (Rlt_dec (-1) (-1)) as [H | _]; [lra | reflexivity].
Defined.
